(** * A model of [MemoryPool] (memory_pool.h / memory_pool.cpp)

    The pool is modelled as explicit state passing: every member function
    becomes a function [MemoryPool -> MemoryPool * result].

    Memory is modelled at the granularity of block headers: [hdrs] maps the
    address of a [MemoryBlock] header to its contents.  The [next]/[prev]
    links threaded through the headers are represented by the sequences they
    link: the best-fit free list by the list of header addresses in link
    order ([free_list]), a segregated or slab free list by the list of header
    addresses from its head, and a thread-cache vector by the list of payload
    pointers from [back()] to [front()].  Addresses and pointer arithmetic are
    in [Z]; [size_t] arithmetic is reduced modulo [2^64] ([wrap]).

    [blocks] is ghost state: the set of header addresses that are blocks of
    the pool (the block directory of the specification).  A header absorbed
    by coalescing stays in memory (and in [hdrs]) but is no longer a block.
    No computation of the model reads [blocks]. *)

From Stdlib Require Import ZArith Lia Sorted Permutation List.
From stdpp Require Import base gmap list sets list_tactics.

Open Scope Z_scope.

(** ** Constants *)

Definition wrap (z : Z) : Z := z mod 2 ^ 64.
Definition SIZE_MAX : Z := 2 ^ 64 - 1.

(** [MemoryBlock::ALIGNMENT] *)
Definition ALIGNMENT : Z := 16.
(** [sizeof(MemoryBlock)]: two pointers, a [size_t], a [bool] and a
    [uint8_t], padded to a multiple of 8. *)
Definition HEADER_SIZE : Z := 32.
(** [MemoryPool::POOL_SIZE] *)
Definition POOL_SIZE : Z := 1024 * 1024.
(** [CHUNK_SIZE] of [FixedSizeAllocator::add_new_chunk] *)
Definition SLAB_CHUNK_SIZE : Z := 64 * 1024.
(** The backing allocator's bookkeeping word(s) in front of every region it
    returns from [new char[n]]. *)
Definition MALLOC_HEADER : Z := 16.
(** [MIN_SPLIT_PAYLOAD] of [allocate_best_fit] *)
Definition MIN_SPLIT_PAYLOAD : Z := 32.
(** [SEGREGATED_CLASS_SIZES] and [SEGREGATED_CLASS_COUNT] *)
Definition SEGREGATED_CLASS_SIZES : list Z := [32; 64; 128; 256; 512; 1024; 2048; 4096].
Definition SEGREGATED_CLASS_COUNT : nat := 8.
(** [SMALL_CACHE_LIMIT], [MEDIUM_CACHE_LIMIT], [LARGE_CACHE_LIMIT] *)
Definition CACHE_LIMIT : nat := 256.

(** ** Data *)

Inductive AllocationStrategy := BEST_FIT | FIXED_SIZE | POOL_BASED | SEGREGATED.

#[global] Instance AllocationStrategy_eq_dec : EqDecision AllocationStrategy.
Proof. solve_decision. Defined.

Definition strat_eqb (a b : AllocationStrategy) : bool := bool_decide (a = b).

(** [class MemoryBlock] without its links (see the header of this file). *)
Record MemoryBlock := mkBlock {
  size : Z;
  is_free : bool;
  strategy : AllocationStrategy
}.

(** The three [FixedSizeAllocator<B>] members of the pool. *)
Inductive SlabId := Small | Medium | Large.

Definition slab_block_size (c : SlabId) : Z :=
  match c with Small => 32 | Medium => 128 | Large => 256 end.

(** [FixedSizeAllocator<B>]: its chunks and its LIFO free list. *)
Record FixedSizeAllocator := mkSlab {
  slab_chunks : list Z;
  slab_free : list Z
}.

(** [MemoryPool::ThreadLocalCache] *)
Record ThreadLocalCache := mkCache {
  small_blocks : list Z;
  medium_blocks : list Z;
  large_blocks : list Z
}.

(** The thread-local counters of [AllocationStats]. *)
Record Stats := mkStats {
  allocations : Z;
  deallocations : Z;
  bytes_allocated : Z
}.

(** The state: the members of [MemoryPool], the thread-local cache and
    counters of the calling thread, and the backing allocator's next free
    address [heap_top]. *)
Record MemoryPool := mkPool {
  hdrs : gmap Z MemoryBlock;
  blocks : gset Z;
  heap_top : Z;
  memory_chunks : list Z;
  free_list : list Z;
  thread_safe : bool;
  active_scope_count : Z;
  small_allocator : FixedSizeAllocator;
  medium_allocator : FixedSizeAllocator;
  large_allocator : FixedSizeAllocator;
  scope_stack : list (list Z);
  scope_lookup : gmap Z (nat * nat);
  size_index : list (Z * Z);
  segregated_free_lists : list (list Z);
  thread_cache : ThreadLocalCache;
  stats : Stats
}.

Definition set_hdrs v p := mkPool v (blocks p) (heap_top p) (memory_chunks p) (free_list p) (thread_safe p) (active_scope_count p) (small_allocator p) (medium_allocator p) (large_allocator p) (scope_stack p) (scope_lookup p) (size_index p) (segregated_free_lists p) (thread_cache p) (stats p).
Definition set_blocks v p := mkPool (hdrs p) v (heap_top p) (memory_chunks p) (free_list p) (thread_safe p) (active_scope_count p) (small_allocator p) (medium_allocator p) (large_allocator p) (scope_stack p) (scope_lookup p) (size_index p) (segregated_free_lists p) (thread_cache p) (stats p).
Definition set_heap_top v p := mkPool (hdrs p) (blocks p) v (memory_chunks p) (free_list p) (thread_safe p) (active_scope_count p) (small_allocator p) (medium_allocator p) (large_allocator p) (scope_stack p) (scope_lookup p) (size_index p) (segregated_free_lists p) (thread_cache p) (stats p).
Definition set_memory_chunks v p := mkPool (hdrs p) (blocks p) (heap_top p) v (free_list p) (thread_safe p) (active_scope_count p) (small_allocator p) (medium_allocator p) (large_allocator p) (scope_stack p) (scope_lookup p) (size_index p) (segregated_free_lists p) (thread_cache p) (stats p).
Definition set_free_list v p := mkPool (hdrs p) (blocks p) (heap_top p) (memory_chunks p) v (thread_safe p) (active_scope_count p) (small_allocator p) (medium_allocator p) (large_allocator p) (scope_stack p) (scope_lookup p) (size_index p) (segregated_free_lists p) (thread_cache p) (stats p).
Definition set_active_scope_count v p := mkPool (hdrs p) (blocks p) (heap_top p) (memory_chunks p) (free_list p) (thread_safe p) v (small_allocator p) (medium_allocator p) (large_allocator p) (scope_stack p) (scope_lookup p) (size_index p) (segregated_free_lists p) (thread_cache p) (stats p).
Definition set_small_allocator v p := mkPool (hdrs p) (blocks p) (heap_top p) (memory_chunks p) (free_list p) (thread_safe p) (active_scope_count p) v (medium_allocator p) (large_allocator p) (scope_stack p) (scope_lookup p) (size_index p) (segregated_free_lists p) (thread_cache p) (stats p).
Definition set_medium_allocator v p := mkPool (hdrs p) (blocks p) (heap_top p) (memory_chunks p) (free_list p) (thread_safe p) (active_scope_count p) (small_allocator p) v (large_allocator p) (scope_stack p) (scope_lookup p) (size_index p) (segregated_free_lists p) (thread_cache p) (stats p).
Definition set_large_allocator v p := mkPool (hdrs p) (blocks p) (heap_top p) (memory_chunks p) (free_list p) (thread_safe p) (active_scope_count p) (small_allocator p) (medium_allocator p) v (scope_stack p) (scope_lookup p) (size_index p) (segregated_free_lists p) (thread_cache p) (stats p).
Definition set_scope_stack v p := mkPool (hdrs p) (blocks p) (heap_top p) (memory_chunks p) (free_list p) (thread_safe p) (active_scope_count p) (small_allocator p) (medium_allocator p) (large_allocator p) v (scope_lookup p) (size_index p) (segregated_free_lists p) (thread_cache p) (stats p).
Definition set_scope_lookup v p := mkPool (hdrs p) (blocks p) (heap_top p) (memory_chunks p) (free_list p) (thread_safe p) (active_scope_count p) (small_allocator p) (medium_allocator p) (large_allocator p) (scope_stack p) v (size_index p) (segregated_free_lists p) (thread_cache p) (stats p).
Definition set_size_index v p := mkPool (hdrs p) (blocks p) (heap_top p) (memory_chunks p) (free_list p) (thread_safe p) (active_scope_count p) (small_allocator p) (medium_allocator p) (large_allocator p) (scope_stack p) (scope_lookup p) v (segregated_free_lists p) (thread_cache p) (stats p).
Definition set_segregated_free_lists v p := mkPool (hdrs p) (blocks p) (heap_top p) (memory_chunks p) (free_list p) (thread_safe p) (active_scope_count p) (small_allocator p) (medium_allocator p) (large_allocator p) (scope_stack p) (scope_lookup p) (size_index p) v (thread_cache p) (stats p).
Definition set_thread_cache v p := mkPool (hdrs p) (blocks p) (heap_top p) (memory_chunks p) (free_list p) (thread_safe p) (active_scope_count p) (small_allocator p) (medium_allocator p) (large_allocator p) (scope_stack p) (scope_lookup p) (size_index p) (segregated_free_lists p) v (stats p).
Definition set_stats v p := mkPool (hdrs p) (blocks p) (heap_top p) (memory_chunks p) (free_list p) (thread_safe p) (active_scope_count p) (small_allocator p) (medium_allocator p) (large_allocator p) (scope_stack p) (scope_lookup p) (size_index p) (segregated_free_lists p) (thread_cache p) v.

(** ** Headers *)

(** [block->size] *)
Definition bsize (st : MemoryPool) (b : Z) : Z :=
  match hdrs st !! b with Some h => size h | None => 0 end.

Definition upd_hdr (f : MemoryBlock -> MemoryBlock) (b : Z) (st : MemoryPool) : MemoryPool :=
  set_hdrs (alter f b (hdrs st)) st.

Definition with_size (n : Z) (h : MemoryBlock) : MemoryBlock := mkBlock n (is_free h) (strategy h).
Definition with_free (f : bool) (h : MemoryBlock) : MemoryBlock := mkBlock (size h) f (strategy h).
Definition with_free_strat (f : bool) (s : AllocationStrategy) (h : MemoryBlock) : MemoryBlock :=
  mkBlock (size h) f s.

(** [MemoryBlock::init(ptr, size, strat)]: writes a header at [ptr]. *)
Definition init_block (ptr sz : Z) (strat : AllocationStrategy) (st : MemoryPool) : MemoryPool :=
  set_blocks ({[ptr]} ∪ blocks st)
    (set_hdrs (<[ptr := mkBlock (wrap (sz - HEADER_SIZE)) true strat]> (hdrs st)) st).

(** [MemoryBlock::align_size] *)
Definition align_size (size : Z) : Z :=
  Z.land (wrap (size + ALIGNMENT - 1)) (wrap (Z.lnot (ALIGNMENT - 1))).

(** [new char[n]]: the backing allocator hands out fresh regions upwards. *)
Definition obtain_chunk (n : Z) (st : MemoryPool) : Z * MemoryPool :=
  let c := heap_top st + MALLOC_HEADER in (c, set_heap_top (c + n) st).

(** ** Statistics *)

Definition stat_alloc (n : Z) (st : MemoryPool) : MemoryPool :=
  let s := stats st in
  set_stats (mkStats (wrap (allocations s + 1)) (deallocations s)
                     (wrap (bytes_allocated s + n))) st.

(** The saturating decrement written out in every deallocation path. *)
Definition sat_sub (cur n : Z) : Z := if cur >=? n then cur - n else 0.

Definition stat_dealloc (n : Z) (st : MemoryPool) : MemoryPool :=
  let s := stats st in
  set_stats (mkStats (allocations s) (wrap (deallocations s + 1))
                     (sat_sub (bytes_allocated s) n)) st.

(** ** The size index: [std::multimap<size_t, MemoryBlock*>]

    Entries in iteration order.  [emplace] places a new entry after the
    entries with an equal key; [size_lookup] finds a block's entry, so
    [remove_from_size_index] erases the entry of that block. *)

Fixpoint mm_insert (k v : Z) (l : list (Z * Z)) : list (Z * Z) :=
  match l with
  | [] => [(k, v)]
  | (k', v') :: l' => if k <? k' then (k, v) :: l else (k', v') :: mm_insert k v l'
  end.

Fixpoint mm_erase (v : Z) (l : list (Z * Z)) : list (Z * Z) :=
  match l with
  | [] => []
  | (k', v') :: l' => if v' =? v then l' else (k', v') :: mm_erase v l'
  end.

(** [size_index.lower_bound(k)] *)
Fixpoint mm_lower_bound (k : Z) (l : list (Z * Z)) : option (Z * Z) :=
  match l with
  | [] => None
  | (k', v') :: l' => if k <=? k' then Some (k', v') else mm_lower_bound k l'
  end.

(** The order of the multimap's entries. *)
Definition keyle (a b : Z * Z) : Prop := a.1 <= b.1.

Definition add_to_size_index (b : Z) (st : MemoryPool) : MemoryPool :=
  set_size_index (mm_insert (bsize st b) b (size_index st)) st.

Definition remove_from_size_index (b : Z) (st : MemoryPool) : MemoryPool :=
  set_size_index (mm_erase b (size_index st)) st.

(** ** The address-ordered free list *)

(** The scan [while (current && current < block)] of [insert_free_block]:
    the nodes passed and the nodes from [current] on. *)
Fixpoint walk (b : Z) (l : list Z) : list Z * list Z :=
  match l with
  | [] => ([], [])
  | c :: l' => if c <? b then let '(before, after) := walk b l' in (c :: before, after)
               else ([], l)
  end.

(** Unlinking a node. *)
Fixpoint list_remove (x : Z) (l : list Z) : list Z :=
  match l with
  | [] => []
  | y :: l' => if y =? x then l' else y :: list_remove x l'
  end.

(** [block->next] and [block->prev] of a node of the list. *)
Fixpoint next_of (x : Z) (l : list Z) : option Z :=
  match l with
  | [] => None
  | y :: l' => if y =? x then head l' else next_of x l'
  end.

Fixpoint prev_of (x : Z) (l : list Z) : option Z :=
  match l with
  | y :: (z :: _) as l' => if z =? x then Some y else prev_of x l'
  | _ => None
  end.

(** [next->is_free && next->strategy == BEST_FIT] *)
Definition free_bf_b (st : MemoryPool) (y : Z) : bool :=
  match hdrs st !! y with
  | Some h => is_free h && strat_eqb (strategy h) BEST_FIT
  | None => false
  end.

(** [x + sizeof(MemoryBlock) + x->size == y], on byte addresses *)
Definition adjacent (st : MemoryPool) (x y : Z) : bool :=
  x + HEADER_SIZE + bsize st x =? y.

Definition is_bf (st : MemoryPool) (b : Z) : bool :=
  match hdrs st !! b with Some h => strat_eqb (strategy h) BEST_FIT | None => false end.

(** [MemoryPool::coalesce_neighbors] *)
Definition coalesce_neighbors (block : Z) (st : MemoryPool) : MemoryPool :=
  if negb (is_bf st block) then st else
  let st := remove_from_size_index block st in
  let st :=
    match next_of block (free_list st) with
    | Some nxt =>
        if free_bf_b st nxt && adjacent st block nxt then
          let st := remove_from_size_index nxt st in
          let st := upd_hdr (fun h => with_size (wrap (size h + wrap (bsize st nxt + HEADER_SIZE))) h) block st in
          let st := set_free_list (list_remove nxt (free_list st)) st in
          set_blocks (blocks st ∖ {[nxt]}) st
        else st
    | None => st
    end in
  let '(current, st) :=
    match prev_of block (free_list st) with
    | Some prv =>
        if free_bf_b st prv && adjacent st prv block then
          let st := remove_from_size_index prv st in
          let st := upd_hdr (fun h => with_size (wrap (size h + wrap (bsize st block + HEADER_SIZE))) h) prv st in
          let st := set_free_list (list_remove block (free_list st)) st in
          (prv, set_blocks (blocks st ∖ {[block]}) st)
        else (block, st)
    | None => (block, st)
    end in
  add_to_size_index current st.

(** [MemoryPool::insert_free_block(block, strat, allow_coalesce)] *)
Definition insert_free_block (block : Z) (strat : AllocationStrategy) (allow_coalesce : bool)
    (st : MemoryPool) : MemoryPool :=
  let st := upd_hdr (with_free_strat true strat) block st in
  let '(before, after) := walk block (free_list st) in
  let st := set_free_list (before ++ block :: after) st in
  let st := add_to_size_index block st in
  if allow_coalesce && strat_eqb strat BEST_FIT then coalesce_neighbors block st else st.

(** [MemoryPool::detach_free_block] *)
Definition detach_free_block (block : Z) (st : MemoryPool) : MemoryPool :=
  let st := remove_from_size_index block st in
  let st := set_free_list (list_remove block (free_list st)) st in
  upd_hdr (with_free false) block st.

(** [MemoryPool::add_new_chunk] *)
Definition add_new_chunk (st : MemoryPool) : MemoryPool :=
  let '(chunk, st) := obtain_chunk POOL_SIZE st in
  let st := set_memory_chunks (memory_chunks st ++ [chunk]) st in
  let st := init_block chunk POOL_SIZE BEST_FIT st in
  insert_free_block chunk BEST_FIT true st.

(** ** Best fit and pool allocation *)

(** The part of [allocate_best_fit] after the block [block] is chosen. *)
Definition best_fit_take (size : Z) (block : Z) (st : MemoryPool) : MemoryPool * option Z :=
  let st := detach_free_block block st in
  let st :=
    if bsize st block >=? wrap (wrap (size + HEADER_SIZE) + MIN_SPLIT_PAYLOAD) then
      let remainder_total := wrap (bsize st block - size) in
      let remainder := block + HEADER_SIZE + size in
      let st := init_block remainder remainder_total BEST_FIT st in
      let st := upd_hdr (with_size size) block st in
      insert_free_block remainder BEST_FIT true st
    else st in
  let st := upd_hdr (with_free_strat false BEST_FIT) block st in
  let st := stat_alloc (bsize st block) st in
  (st, Some (block + HEADER_SIZE)).

(** [MemoryPool::allocate_best_fit]; [None] is [nullptr]. *)
Definition allocate_best_fit (size : Z) (st : MemoryPool) : MemoryPool * option Z :=
  match mm_lower_bound size (size_index st) with
  | Some (_, block) => best_fit_take size block st
  | None =>
      let st := add_new_chunk st in
      match mm_lower_bound size (size_index st) with
      | Some (_, block) => best_fit_take size block st
      | None => (st, None)
      end
  end.

Definition pool_take (block : Z) (st : MemoryPool) : MemoryPool * option Z :=
  let st := detach_free_block block st in
  let st := upd_hdr (with_free_strat false POOL_BASED) block st in
  let st := stat_alloc (bsize st block) st in
  (st, Some (block + HEADER_SIZE)).

(** [MemoryPool::allocate_from_pool] *)
Definition allocate_from_pool (size : Z) (st : MemoryPool) : MemoryPool * option Z :=
  match mm_lower_bound size (size_index st) with
  | Some (_, block) => pool_take block st
  | None =>
      let st := add_new_chunk st in
      match mm_lower_bound size (size_index st) with
      | Some (_, block) => pool_take block st
      | None => (st, None)
      end
  end.

(** ** Segregated lists *)

Fixpoint select_class_from (i : nat) (classes : list Z) (size : Z) : nat :=
  match classes with
  | [] => i
  | c :: cs => if size <=? c then i else select_class_from (S i) cs size
  end.

(** [MemoryPool::select_segregated_class]: the first class that fits, or
    [SEGREGATED_CLASS_COUNT]. *)
Definition select_segregated_class (size : Z) : nat :=
  select_class_from 0 SEGREGATED_CLASS_SIZES size.

Definition seg_list (st : MemoryPool) (i : nat) : list Z :=
  default [] (segregated_free_lists st !! i).

Definition set_seg_list (i : nat) (l : list Z) (st : MemoryPool) : MemoryPool :=
  set_segregated_free_lists (<[i := l]> (segregated_free_lists st)) st.

(** The partition loop of [replenish_segregated_class]: while
    [total_bytes >= class_size + sizeof(MemoryBlock)] a block is initialised
    at [cursor] and pushed in front of [head].  It runs at most
    [total_bytes / (class_size + sizeof(MemoryBlock))] times; [fuel] is that
    bound plus one. *)
Fixpoint carve (fuel : nat) (class_size cursor total : Z) (head : list Z) (st : MemoryPool)
    : Z * Z * list Z * MemoryPool :=
  match fuel with
  | O => (cursor, total, head, st)
  | S fuel' =>
      if total >=? wrap (class_size + HEADER_SIZE) then
        let st := init_block cursor (wrap (class_size + HEADER_SIZE)) SEGREGATED st in
        carve fuel' class_size (cursor + (class_size + HEADER_SIZE))
              (wrap (total - wrap (class_size + HEADER_SIZE))) (cursor :: head) st
      else (cursor, total, head, st)
  end.

(** [MemoryPool::replenish_segregated_class] (without the sharded locks). *)
Definition replenish_segregated_class (class_index : nat) (st : MemoryPool) : MemoryPool :=
  if (SEGREGATED_CLASS_COUNT <=? class_index)%nat then st else
  let st := add_new_chunk st in
  let chunk_block := default 0 (last (memory_chunks st)) in
  let st := detach_free_block chunk_block st in
  (* ghost: the chunk's block is re-partitioned below *)
  let st := set_blocks (blocks st ∖ {[chunk_block]}) st in
  let class_size := nth class_index SEGREGATED_CLASS_SIZES 0 in
  if bsize st chunk_block >? SIZE_MAX - HEADER_SIZE then st else
  let total_bytes := wrap (bsize st chunk_block + HEADER_SIZE) in
  let fuel := S (Z.to_nat (total_bytes / (class_size + HEADER_SIZE))) in
  let '(cursor, total_bytes, head, st) := carve fuel class_size chunk_block total_bytes [] st in
  let st := match head with
            | [] => st
            | _ => set_seg_list class_index (head ++ seg_list st class_index) st
            end in
  if total_bytes >? HEADER_SIZE then
    let st := init_block cursor total_bytes BEST_FIT st in
    insert_free_block cursor BEST_FIT true st
  else st.

(** [MemoryPool::allocate_segregated] *)
Definition allocate_segregated (size : Z) (st : MemoryPool) : MemoryPool * option Z :=
  let class_index := select_segregated_class size in
  if (class_index =? SEGREGATED_CLASS_COUNT)%nat then allocate_best_fit size st else
  let st := match seg_list st class_index with
            | [] => replenish_segregated_class class_index st
            | _ => st
            end in
  match seg_list st class_index with
  | block :: rest =>
      let st := set_seg_list class_index rest st in
      let st := upd_hdr (with_free_strat false SEGREGATED) block st in
      let st := stat_alloc (bsize st block) st in
      (st, Some (block + HEADER_SIZE))
  | [] => allocate_best_fit size st
  end.

(** ** Fixed-size slabs *)

Definition get_slab (c : SlabId) (st : MemoryPool) : FixedSizeAllocator :=
  match c with
  | Small => small_allocator st
  | Medium => medium_allocator st
  | Large => large_allocator st
  end.

Definition set_slab (c : SlabId) (s : FixedSizeAllocator) (st : MemoryPool) : MemoryPool :=
  match c with
  | Small => set_small_allocator s st
  | Medium => set_medium_allocator s st
  | Large => set_large_allocator s st
  end.

Definition set_slab_free (c : SlabId) (l : list Z) (st : MemoryPool) : MemoryPool :=
  set_slab c (mkSlab (slab_chunks (get_slab c st)) l) st.

(** The loop of [FixedSizeAllocator::add_new_chunk], from block [i] on. *)
Fixpoint slab_fill (n : nat) (chunk stride i : Z) (free : list Z) (st : MemoryPool)
    : list Z * MemoryPool :=
  match n with
  | O => (free, st)
  | S n' =>
      let block_ptr := chunk + i * stride in
      let st := init_block block_ptr stride FIXED_SIZE st in
      slab_fill n' chunk stride (i + 1) (block_ptr :: free) st
  end.

(** [FixedSizeAllocator<B>::add_new_chunk] *)
Definition slab_add_new_chunk (c : SlabId) (st : MemoryPool) : MemoryPool :=
  let '(chunk, st) := obtain_chunk SLAB_CHUNK_SIZE st in
  let stride := slab_block_size c + HEADER_SIZE in
  let num_blocks := SLAB_CHUNK_SIZE / stride in
  let sl := get_slab c st in
  let '(free, st) := slab_fill (Z.to_nat num_blocks) chunk stride 0 (slab_free sl) st in
  set_slab c (mkSlab (slab_chunks sl ++ [chunk]) free) st.

(** [FixedSizeAllocator<B>::allocate]; after [add_new_chunk] the free list
    is not empty, the [None] branch is not reached. *)
Definition slab_allocate (c : SlabId) (st : MemoryPool) : MemoryPool * option Z :=
  let st := match slab_free (get_slab c st) with
            | [] => slab_add_new_chunk c st
            | _ => st
            end in
  match slab_free (get_slab c st) with
  | block :: rest =>
      let st := set_slab_free c rest st in
      let st := upd_hdr (with_free_strat false FIXED_SIZE) block st in
      let st := stat_alloc (bsize st block) st in
      (st, Some (block + HEADER_SIZE))
  | [] => (st, None)
  end.

(** [FixedSizeAllocator<B>::deallocate] *)
Definition slab_deallocate (c : SlabId) (ptr : Z) (st : MemoryPool) : MemoryPool :=
  if ptr =? 0 then st else
  let block := ptr - HEADER_SIZE in
  let st := upd_hdr (with_free true) block st in
  let st := set_slab_free c (block :: slab_free (get_slab c st)) st in
  stat_dealloc (bsize st block) st.

(** Modelled from the spec: [FixedSizeAllocator<B>::allocate_raw], called by
    the cache refill of memory_pool.cpp but not part of memory_pool.h.  Per
    the spec (4.5) it hands one block of the slab's free list to the
    magazine, and yields null when the slab cannot supply one; the magazine
    accounts for the allocation when it hands the block out. *)
Definition slab_allocate_raw (c : SlabId) (st : MemoryPool) : MemoryPool * option Z :=
  match slab_free (get_slab c st) with
  | block :: rest => (set_slab_free c rest st, Some (block + HEADER_SIZE))
  | [] => (st, None)
  end.

(** ** The thread-local magazines *)

Definition get_cache (c : SlabId) (st : MemoryPool) : list Z :=
  match c with
  | Small => small_blocks (thread_cache st)
  | Medium => medium_blocks (thread_cache st)
  | Large => large_blocks (thread_cache st)
  end.

Definition set_cache (c : SlabId) (l : list Z) (st : MemoryPool) : MemoryPool :=
  let tc := thread_cache st in
  match c with
  | Small => set_thread_cache (mkCache l (medium_blocks tc) (large_blocks tc)) st
  | Medium => set_thread_cache (mkCache (small_blocks tc) l (large_blocks tc)) st
  | Large => set_thread_cache (mkCache (small_blocks tc) (medium_blocks tc) l) st
  end.

(** [REFILL_BATCH] of [refill_small_cache] and of the two others. *)
Definition refill_batch (c : SlabId) : nat :=
  match c with Small => 64 | Medium => 32 | Large => 32 end.

Fixpoint refill_loop (k : nat) (c : SlabId) (st : MemoryPool) : MemoryPool :=
  match k with
  | O => st
  | S k' =>
      if (length (get_cache c st) <? CACHE_LIMIT)%nat then
        match slab_allocate_raw c st with
        | (st, Some ptr) =>
            let st := upd_hdr (with_free true) (ptr - HEADER_SIZE) st in
            refill_loop k' c (set_cache c (ptr :: get_cache c st) st)
        | (st, None) => st
        end
      else st
  end.

(** [refill_small_cache], [refill_medium_cache], [refill_large_cache] *)
Definition refill_cache (c : SlabId) (st : MemoryPool) : MemoryPool :=
  refill_loop (refill_batch c) c st.

(** [acquire_small_from_cache] and its two siblings. *)
Definition acquire_from_cache (c : SlabId) (st : MemoryPool) : MemoryPool * option Z :=
  let '(st, early) :=
    match get_cache c st with
    | [] => let st := refill_cache c st in
            match get_cache c st with
            | [] => let '(st, r) := slab_allocate c st in (st, Some r)
            | _ => (st, None)
            end
    | _ => (st, None)
    end in
  match early with
  | Some r => (st, r)
  | None =>
      match get_cache c st with
      | ptr :: rest =>
          let st := set_cache c rest st in
          let st := upd_hdr (with_free_strat false FIXED_SIZE) (ptr - HEADER_SIZE) st in
          let st := stat_alloc (bsize st (ptr - HEADER_SIZE)) st in
          (st, Some ptr)
      | [] => (st, None)
      end
  end.

(** [release_small_to_cache] and its two siblings. *)
Definition release_to_cache (c : SlabId) (ptr : Z) (st : MemoryPool) : MemoryPool * bool :=
  if (length (get_cache c st) <? CACHE_LIMIT)%nat then
    let block := ptr - HEADER_SIZE in
    let st := upd_hdr (with_free true) block st in
    let st := set_cache c (ptr :: get_cache c st) st in
    (stat_dealloc (bsize st block) st, true)
  else (slab_deallocate c ptr st, true).

(** ** Scopes *)

(** [scope_stack.emplace_back(); active_scope_count++] *)
Definition begin_scope (st : MemoryPool) : MemoryPool :=
  let st := set_scope_stack (scope_stack st ++ [[]]) st in
  set_active_scope_count (wrap (active_scope_count st + 1)) st.

(** The registration block of [allocate]: append [p] to the top cohort and
    record [p -> (scope_index, position)]; nothing when the stack is empty. *)
Definition register_in_scope (p : Z) (st : MemoryPool) : MemoryPool :=
  match last (scope_stack st) with
  | Some scope =>
      let position := length scope in
      let si := (length (scope_stack st) - 1)%nat in
      let st := set_scope_stack (<[si := scope ++ [p]]> (scope_stack st)) st in
      set_scope_lookup (<[p := (si, position)]> (scope_lookup st)) st
  | None => st
  end.

(** The scope block of [deallocate]: swap-with-back removal of [ptr] from its
    cohort.  [scope_lookup[tail].position = position] creates a default entry
    when [tail] has none. *)
Definition unregister_scope (ptr : Z) (st : MemoryPool) : MemoryPool :=
  match scope_lookup st !! ptr with
  | Some (scope_index, position) =>
      let st :=
        match scope_stack st !! scope_index with
        | Some scope =>
            if (position <? length scope)%nat then
              let tail := default 0 (last scope) in
              let scope' := removelast (<[position := tail]> scope) in
              let st := set_scope_stack (<[scope_index := scope']> (scope_stack st)) st in
              if tail =? ptr then st
              else set_scope_lookup
                     (partial_alter (fun o => Some (match o with
                                                    | Some (si, _) => (si, position)
                                                    | None => (0%nat, position)
                                                    end)) tail (scope_lookup st)) st
            else st
        | None => st
        end in
      set_scope_lookup (delete ptr (scope_lookup st)) st
  | None => st
  end.

(** ** [MemoryPool::allocate] *)

(** The reclassification of a [BEST_FIT] request. *)
Definition effective_strategy (aligned_size : Z) (strategy : AllocationStrategy)
    : AllocationStrategy :=
  match strategy with
  | BEST_FIT =>
      if aligned_size <=? 32 then FIXED_SIZE
      else if aligned_size <=? 128 then FIXED_SIZE
      else if aligned_size <=? 256 then FIXED_SIZE
      else if aligned_size <=? 512 then SEGREGATED
      else BEST_FIT
  | s => s
  end.

(** The magazine chosen by the fixed-size branch, if any. *)
Definition fixed_slab (aligned_size : Z) : option SlabId :=
  if aligned_size <=? 32 then Some Small
  else if aligned_size <=? 128 then Some Medium
  else if aligned_size <=? 256 then Some Large
  else None.

(** The fixed-size branch: [Some] result returns at once. *)
Definition fixed_path (aligned_size : Z) (st : MemoryPool) : MemoryPool * option Z :=
  match fixed_slab aligned_size with
  | Some c => acquire_from_cache c st
  | None => (st, None)
  end.

Definition fixed_register (p : Z) (st : MemoryPool) : MemoryPool :=
  if thread_safe st && (0 <? active_scope_count st) then register_in_scope p st else st.

(** The locked part of [allocate]: the [switch] and the registration. *)
Definition general_path (eff : AllocationStrategy) (aligned_size : Z) (st : MemoryPool)
    : MemoryPool * option Z :=
  let '(st, result) :=
    match eff with
    | BEST_FIT => allocate_best_fit aligned_size st
    | POOL_BASED => allocate_from_pool aligned_size st
    | SEGREGATED => allocate_segregated aligned_size st
    | FIXED_SIZE => allocate_best_fit aligned_size st
    end in
  match result with
  | Some p => (register_in_scope p st, Some p)
  | None => (st, None)
  end.

Definition allocate (size : Z) (strategy : AllocationStrategy) (st : MemoryPool)
    : MemoryPool * option Z :=
  let aligned_size := align_size size in
  let eff := effective_strategy aligned_size strategy in
  let '(st, fixed_result) :=
    if strat_eqb eff FIXED_SIZE then fixed_path aligned_size st else (st, None) in
  match fixed_result with
  | Some p => (fixed_register p st, Some p)
  | None => general_path eff aligned_size st
  end.

(** ** [MemoryPool::deallocate] *)

(** [MemoryPool::deallocate_block] *)
Definition deallocate_block (block : Z) (st : MemoryPool) : MemoryPool :=
  let freed_size := bsize st block in
  let st := insert_free_block block BEST_FIT true st in
  stat_dealloc freed_size st.

(** The [FIXED_SIZE] branch: the magazine, else the slab. *)
Definition release_fixed (c : SlabId) (ptr : Z) (st : MemoryPool) : MemoryPool :=
  let '(st, handled) := release_to_cache c ptr st in
  if handled then st else slab_deallocate c ptr st.

(** The [SEGREGATED] case of the [switch]. *)
Definition release_segregated (block : Z) (st : MemoryPool) : MemoryPool :=
  let class_index := select_segregated_class (bsize st block) in
  let st := upd_hdr (with_free true) block st in
  let st :=
    if (class_index <? SEGREGATED_CLASS_COUNT)%nat then
      let st := upd_hdr (with_free_strat true SEGREGATED) block st in
      set_seg_list class_index (block :: seg_list st class_index) st
    else insert_free_block block BEST_FIT true st in
  stat_dealloc (bsize st block) st.

Definition deallocate (ptr : Z) (st : MemoryPool) : MemoryPool :=
  if ptr =? 0 then st else
  let block := ptr - HEADER_SIZE in
  let st := if thread_safe st && (0 <? active_scope_count st) then unregister_scope ptr st else st in
  match hdrs st !! block with
  | Some h =>
      match strategy h with
      | FIXED_SIZE =>
          if size h <=? 32 then release_fixed Small ptr st
          else if size h <=? 128 then release_fixed Medium ptr st
          else if size h <=? 256 then release_fixed Large ptr st
          else deallocate_block block st
      | SEGREGATED => release_segregated block st
      | _ => deallocate_block block st
      end
  | None => st
  end.

(** [end_scope]: pop the top cohort, forget its lookup entries, then
    [deallocate] each member in order. *)
Definition end_scope_pop (st : MemoryPool) : option (list Z * MemoryPool) :=
  match last (scope_stack st) with
  | None => None
  | Some scoped =>
      let st := set_scope_lookup (foldl (fun m p => delete p m) (scope_lookup st) scoped) st in
      let st := set_scope_stack (removelast (scope_stack st)) st in
      Some (scoped, set_active_scope_count (wrap (active_scope_count st - 1)) st)
  end.

Definition end_scope (st : MemoryPool) : MemoryPool :=
  match end_scope_pop st with
  | None => if 0 <? active_scope_count st
            then set_active_scope_count (active_scope_count st - 1) st else st
  | Some (scoped, st) => foldl (fun st p => deallocate p st) st scoped
  end.

(** ** [MemoryPool::reset] *)

(** [b] is a block of a slab (tagged [FIXED_SIZE]). *)
Definition is_fixed (st : MemoryPool) (b : Z) : bool :=
  match hdrs st !! b with Some h => strat_eqb (strategy h) FIXED_SIZE | None => false end.

(** The body of the loop over [memory_chunks]. *)
Definition reset_step (st : MemoryPool) (chunk : Z) : MemoryPool :=
  insert_free_block chunk BEST_FIT true (init_block chunk POOL_SIZE BEST_FIT st).

Definition reset (st : MemoryPool) : MemoryPool :=
  let st := set_free_list [] st in
  let st := set_size_index [] st in
  (* ghost: re-initialising the pool's chunks ends the blocks they were
     divided into; the blocks of the slabs stay *)
  let st := set_blocks (filter (fun a => is_fixed st a = true) (blocks st)) st in
  let st := foldl reset_step st (memory_chunks st) in
  let st := set_scope_stack [] st in
  let st := set_scope_lookup ∅ st in
  let st := set_segregated_free_lists (replicate SEGREGATED_CLASS_COUNT []) st in
  let st := set_active_scope_count 0 st in
  set_thread_cache (mkCache [] [] []) st.

(** The header [reset] and [add_new_chunk] write at the start of a chunk. *)
Definition chunk_header : MemoryBlock := mkBlock (POOL_SIZE - HEADER_SIZE) true BEST_FIT.

(** ** Construction *)

(** [MemoryPool(thread_safe)] on a fresh thread, with the backing allocator
    at [base]: the three slab members are constructed first (each adds one
    chunk), then the body adds the first pool chunk. *)
Definition new_pool (ts : bool) (base : Z) : MemoryPool :=
  let st := mkPool ∅ ∅ base [] [] ts 0 (mkSlab [] []) (mkSlab [] []) (mkSlab [] [])
                   [] ∅ [] (replicate SEGREGATED_CLASS_COUNT []) (mkCache [] [] [])
                   (mkStats 0 0 0) in
  let st := slab_add_new_chunk Small st in
  let st := slab_add_new_chunk Medium st in
  let st := slab_add_new_chunk Large st in
  add_new_chunk st.

(** Modelled from the spec: [usable_size(p)] (used by the benchmark adapter,
    not part of memory_pool.h) is [header(p).size] (spec 4.11). *)
Definition usable_size (st : MemoryPool) (p : Z) : Z := bsize st (p - HEADER_SIZE).

(** ** The dispatcher as the specification's table states it (4.1) *)

Inductive Route := ToSlab (c : SlabId) | ToBestFit | ToPool | ToSegregated.

(** The route of a request by the spec's words: a [BEST_FIT] request is
    reclassified by [aligned_size]; [POOL_BASED] is served by the pool;
    [SEGREGATED] by the segregated lists unless [aligned_size] exceeds the
    largest class; [FIXED_SIZE] by the slab of the smallest block size that
    fits, or by best fit above 256. *)
Definition spec_route (aligned_size : Z) (requested : AllocationStrategy) : Route :=
  match requested with
  | BEST_FIT =>
      if aligned_size <=? 32 then ToSlab Small
      else if aligned_size <=? 128 then ToSlab Medium
      else if aligned_size <=? 256 then ToSlab Large
      else if aligned_size <=? 512 then ToSegregated
      else ToBestFit
  | POOL_BASED => ToPool
  | SEGREGATED => if 4096 <? aligned_size then ToBestFit else ToSegregated
  | FIXED_SIZE =>
      if aligned_size <=? 32 then ToSlab Small
      else if aligned_size <=? 128 then ToSlab Medium
      else if aligned_size <=? 256 then ToSlab Large
      else ToBestFit
  end.

(** Serving a request of [aligned_size] bytes along a route: a slab route
    goes through the magazine (scope registration as in the fixed-size
    branch; a null magazine result continues under the pool lock); the
    other routes call the named substructure under the pool lock. *)
Definition run_route (r : Route) (aligned_size : Z) (st : MemoryPool) : MemoryPool * option Z :=
  match r with
  | ToSlab c =>
      let '(st, res) := acquire_from_cache c st in
      match res with
      | Some p => (fixed_register p st, Some p)
      | None => general_path FIXED_SIZE aligned_size st
      end
  | ToBestFit => general_path BEST_FIT aligned_size st
  | ToPool => general_path POOL_BASED aligned_size st
  | ToSegregated => general_path SEGREGATED aligned_size st
  end.

(** ** Invariants of the block structures (spec 3 and 8) *)

(** One past the last byte of the block whose header is at [x]. *)
Definition bend (st : MemoryPool) (x : Z) : Z := x + HEADER_SIZE + bsize st x.

Definition free_bf (st : MemoryPool) (x : Z) : Prop :=
  exists h, hdrs st !! x = Some h /\ is_free h = true /\ strategy h = BEST_FIT.

Definition tagged (st : MemoryPool) (x : Z) (s : AllocationStrategy) : Prop :=
  exists h, hdrs st !! x = Some h /\ strategy h = s.

(** The regions obtained from the backing allocator, with their lengths. *)
Definition slab_chunk_list (st : MemoryPool) : list Z :=
  slab_chunks (small_allocator st) ++ slab_chunks (medium_allocator st)
  ++ slab_chunks (large_allocator st).

Definition all_chunks (st : MemoryPool) : list (Z * Z) :=
  map (fun c => (c, POOL_SIZE)) (memory_chunks st) ++
  map (fun c => (c, SLAB_CHUNK_SIZE)) (slab_chunk_list st).

(** The block at [x] lies in a chunk of the kind its tag says: a slab chunk
    for [FIXED_SIZE], a pool chunk otherwise. *)
Definition in_chunk (st : MemoryPool) (x : Z) (s : AllocationStrategy) : Prop :=
  if strat_eqb s FIXED_SIZE
  then exists c, c ∈ slab_chunk_list st /\ c <= x /\ bend st x <= c + SLAB_CHUNK_SIZE
  else exists c, c ∈ memory_chunks st /\ c <= x /\ bend st x <= c + POOL_SIZE.

Definition fixed_block_sizes : list Z := [32; 128; 256].

(** The block directory, the chunks and the lists other than the best-fit
    free list. *)
Record wf_blocks (st : MemoryPool) : Prop := {
  wf_hdr : forall x, x ∈ blocks st -> is_Some (hdrs st !! x);
  wf_size : forall x, x ∈ blocks st -> 0 <= bsize st x;
  wf_disjoint : forall x y, x ∈ blocks st -> y ∈ blocks st -> x <> y ->
                bend st x <= y \/ bend st y <= x;
  wf_in_chunk : forall x h, x ∈ blocks st -> hdrs st !! x = Some h -> in_chunk st x (strategy h);
  wf_chunks_nodup : NoDup (map fst (all_chunks st));
  wf_chunks_apart : forall c1 n1 c2 n2, (c1, n1) ∈ all_chunks st -> (c2, n2) ∈ all_chunks st ->
                    c1 <> c2 -> c1 + n1 < c2 \/ c2 + n2 < c1;
  wf_chunks_below : forall c n, (c, n) ∈ all_chunks st -> 0 <= c /\ c + n <= heap_top st;
  wf_seg_len : length (segregated_free_lists st) = SEGREGATED_CLASS_COUNT;
  wf_seg : forall i l b, segregated_free_lists st !! i = Some l -> b ∈ l ->
           b ∈ blocks st /\ exists h, hdrs st !! b = Some h /\ strategy h = SEGREGATED /\
                                   SEGREGATED_CLASS_SIZES !! i = Some (size h);
  wf_seg_size : forall x h, x ∈ blocks st -> hdrs st !! x = Some h -> strategy h = SEGREGATED ->
                size h ∈ SEGREGATED_CLASS_SIZES;
  wf_fixed_size : forall x h, x ∈ blocks st -> hdrs st !! x = Some h -> strategy h = FIXED_SIZE ->
                  size h ∈ fixed_block_sizes;
  wf_slab : forall c b, b ∈ slab_free (get_slab c st) -> b ∈ blocks st /\ tagged st b FIXED_SIZE;
  wf_cache : forall c p, p ∈ get_cache c st ->
             (p - HEADER_SIZE) ∈ blocks st /\ tagged st (p - HEADER_SIZE) FIXED_SIZE;
  wf_heap : 0 <= heap_top st
}.

(** The best-fit free list and its size index. *)
Record wf (st : MemoryPool) : Prop := {
  wf_base : wf_blocks st;
  wf_fl_sorted : StronglySorted Z.lt (free_list st);
  wf_fl_mem : forall x, x ∈ free_list st <-> x ∈ blocks st /\ free_bf st x;
  wf_idx_sorted : StronglySorted keyle (size_index st);
  wf_idx_perm : size_index st ≡ₚ map (fun x => (bsize st x, x)) (free_list st);
  wf_nonadj : forall x y, x ∈ free_list st -> y ∈ free_list st -> bend st x <> y
}.

(** Parts of [wf], for the states inside a free-list operation. *)
Definition fl_mem (st : MemoryPool) : Prop :=
  forall x, x ∈ free_list st <-> x ∈ blocks st /\ free_bf st x.

Definition idx_of (st : MemoryPool) (l : list Z) : Prop :=
  size_index st ≡ₚ map (fun x => (bsize st x, x)) l.

(** [wf] but for the block [b], not yet linked into the free list. *)
Definition wf_except (st : MemoryPool) (b : Z) : Prop :=
  wf_blocks st /\ StronglySorted Z.lt (free_list st) /\
  (forall x, x ∈ free_list st <-> x ∈ blocks st /\ free_bf st x /\ x <> b) /\
  StronglySorted keyle (size_index st) /\ idx_of st (free_list st) /\
  (forall x y, x ∈ free_list st -> y ∈ free_list st -> bend st x <> y).

(** The tags of the blocks of the pool chunks other than the segregated
    ones. *)
Definition non_fixed_seg (s : AllocationStrategy) : Prop := s = BEST_FIT \/ s = POOL_BASED.

(** The fields that the free-list operations leave alone (all but [hdrs],
    [blocks], [free_list] and [size_index]). *)
Definition free_frame (st st' : MemoryPool) : Prop :=
  heap_top st' = heap_top st /\ memory_chunks st' = memory_chunks st /\
  thread_safe st' = thread_safe st /\ active_scope_count st' = active_scope_count st /\
  small_allocator st' = small_allocator st /\ medium_allocator st' = medium_allocator st /\
  large_allocator st' = large_allocator st /\ scope_stack st' = scope_stack st /\
  scope_lookup st' = scope_lookup st /\ segregated_free_lists st' = segregated_free_lists st /\
  thread_cache st' = thread_cache st /\ stats st' = stats st.

(** The fields that the scope bookkeeping leaves alone. *)
Definition scope_frame (st st' : MemoryPool) : Prop :=
  hdrs st' = hdrs st /\ blocks st' = blocks st /\ heap_top st' = heap_top st /\
  memory_chunks st' = memory_chunks st /\ free_list st' = free_list st /\
  thread_safe st' = thread_safe st /\
  small_allocator st' = small_allocator st /\ medium_allocator st' = medium_allocator st /\
  large_allocator st' = large_allocator st /\ size_index st' = size_index st /\
  segregated_free_lists st' = segregated_free_lists st /\
  thread_cache st' = thread_cache st /\ stats st' = stats st.

(** ** Executions *)

(** A payload the client may pass to [deallocate]: the header of a block of
    the pool that is not free (anything else is a double or foreign free,
    undefined behaviour by spec 4.13). *)
Definition live (st : MemoryPool) (p : Z) : Prop :=
  (p - HEADER_SIZE) ∈ blocks st /\
  exists h, hdrs st !! (p - HEADER_SIZE) = Some h /\ is_free h = false.

Fixpoint frees_ok (ps : list Z) (st : MemoryPool) : Prop :=
  match ps with
  | [] => True
  | p :: ps' => (p = 0 \/ live st p) /\ frees_ok ps' (deallocate p st)
  end.

(** [end_scope] frees only live payloads. *)
Definition end_scope_ok (st : MemoryPool) : Prop :=
  match end_scope_pop st with
  | None => True
  | Some (scoped, st') => frees_ok scoped st'
  end.

(** One call of the public interface on one thread, without undefined
    behaviour. *)
Inductive step : MemoryPool -> MemoryPool -> Prop :=
| step_allocate st size s : 0 <= size <= SIZE_MAX -> step st (allocate size s st).1
| step_deallocate st p : p = 0 \/ live st p -> step st (deallocate p st)
| step_reset st : step st (reset st)
| step_begin_scope st : step st (begin_scope st)
| step_end_scope st : end_scope_ok st -> step st (end_scope st).

Inductive reachable : MemoryPool -> Prop :=
| reachable_new ts base : 0 <= base -> reachable (new_pool ts base)
| reachable_step st st' : reachable st -> step st st' -> reachable st'.

(** Decidable equality of the slab names. *)
#[global] Instance SlabId_eq_dec : EqDecision SlabId.
Proof. solve_decision. Defined.

(** The header update [g] of the block at [b] keeps its tag, or moves it between [BEST_FIT] and [POOL_BASED]. *)
Definition strat_ok (g : MemoryBlock -> MemoryBlock) (b : Z) (st : MemoryPool) : Prop :=
  forall h, hdrs st !! b = Some h ->
    strategy (g h) = strategy h \/ (non_fixed_seg (strategy h) /\ non_fixed_seg (strategy (g h))).

(** The outcome of [allocate_best_fit size st] the specification states
    (4.2): a null result only when no free block fits, before and after one
    new chunk; otherwise the returned block is a free block of smallest size
    at least [size] (of [st], or of [add_new_chunk st] when none of [st]
    fits), and it is split exactly when it has room for [size], a header and
    [MIN_SPLIT_PAYLOAD] more bytes. *)
Definition best_fit_outcome (size : Z) (st : MemoryPool) (res : MemoryPool * option Z) : Prop :=
  (res.2 = None ->
     (forall y, y ∈ free_list st -> bsize st y < size) /\
     (forall y, y ∈ free_list (add_new_chunk st) -> bsize (add_new_chunk st) y < size)) /\
  (forall p, res.2 = Some p ->
     let b := p - HEADER_SIZE in
     exists st0,
       (st0 = st \/ ((forall y, y ∈ free_list st -> bsize st y < size) /\ st0 = add_new_chunk st)) /\
       b ∈ free_list st0 /\ size <= bsize st0 b /\
       (forall y, y ∈ free_list st0 -> size <= bsize st0 y -> bsize st0 b <= bsize st0 y) /\
       (size + HEADER_SIZE + MIN_SPLIT_PAYLOAD <= bsize st0 b ->
          hdrs res.1 !! b = Some (mkBlock size false BEST_FIT) /\
          b + HEADER_SIZE + size ∈ free_list res.1 /\
          (bsize res.1 (b + HEADER_SIZE + size), b + HEADER_SIZE + size) ∈ size_index res.1 /\
          hdrs res.1 !! (b + HEADER_SIZE + size) =
            Some (mkBlock (bsize st0 b - size - HEADER_SIZE) true BEST_FIT)) /\
       (bsize st0 b < size + HEADER_SIZE + MIN_SPLIT_PAYLOAD ->
          hdrs res.1 !! b = Some (mkBlock (bsize st0 b) false BEST_FIT))).

(** The fields of the pool that the scope bookkeeping reads. *)
Definition scope_view (st : MemoryPool) : bool * Z * list (list Z) * gmap Z (nat * nat) :=
  (thread_safe st, active_scope_count st, scope_stack st, scope_lookup st).

(** The counters after a call that may hand out a block: one more
    allocation and the returned block's size more bytes when it returns a
    payload, unchanged counters when it returns null. *)
Definition alloc_stats (st : MemoryPool) (res : MemoryPool * option Z) : Prop :=
  match res.2 with
  | Some p => stats res.1 = mkStats (wrap (allocations (stats st) + 1)) (deallocations (stats st))
                                    (wrap (bytes_allocated (stats st) + bsize res.1 (p - HEADER_SIZE)))
  | None => stats res.1 = stats st
  end.

(** * Proofs *)

Ltac frame_tac := unfold free_frame, scope_frame in *; repeat split; reflexivity.


Lemma walk_app b l : (walk b l).1 ++ (walk b l).2 = l.
Proof.
  induction l as [|c l IH]; simpl; [done|].
  destruct (c <? b); [|done]. destruct (walk b l) as [bf af]; simpl in *. by rewrite IH.
Qed.

Lemma walk_before b l x : x ∈ (walk b l).1 -> x < b.
Proof.
  induction l as [|c l IH]; simpl; [set_solver|].
  destruct (c <? b) eqn:E; [|set_solver].
  destruct (walk b l) as [bf af]; simpl in *.
  intros [->|Hx]%elem_of_cons; [lia|auto].
Qed.

Lemma walk_after b l x : StronglySorted Z.lt l -> x ∈ (walk b l).2 -> b <= x.
Proof.
  induction l as [|c l IH]; simpl; intros Hs; [set_solver|].
  inversion Hs as [|? ? Hs' Hf]; subst.
  destruct (c <? b) eqn:E.
  - destruct (walk b l) as [bf af]; simpl in *. auto.
  - intros [->|Hx]%elem_of_cons; [lia|].
    rewrite Forall_forall in Hf. specialize (Hf _ Hx). lia.
Qed.

Lemma list_remove_notin x l : x ∉ l -> list_remove x l = l.
Proof.
  induction l as [|y l IH]; simpl; [done|]. intros Hn.
  destruct (y =? x) eqn:E; [apply Z.eqb_eq in E; subst; set_solver|].
  rewrite IH; set_solver.
Qed.

Lemma list_remove_app x A B : x ∉ A -> list_remove x (A ++ x :: B) = A ++ B.
Proof.
  induction A as [|a A IH]; simpl; intros Hn.
  - by rewrite Z.eqb_refl.
  - destruct (a =? x) eqn:E; [apply Z.eqb_eq in E; subst; set_solver|].
    rewrite IH; set_solver.
Qed.

Lemma list_remove_perm x l : x ∈ l -> l ≡ₚ x :: list_remove x l.
Proof.
  induction l as [|y l IH]; simpl; [set_solver|]. intros Hx.
  destruct (y =? x) eqn:E; [apply Z.eqb_eq in E; by subst|].
  apply Z.eqb_neq in E. transitivity (y :: x :: list_remove x l).
  - apply perm_skip, IH. set_solver.
  - apply perm_swap.
Qed.

Lemma list_remove_sublist x l : sublist (list_remove x l) l.
Proof.
  induction l as [|y l IH]; simpl; [done|].
  destruct (y =? x); [by apply sublist_cons|by apply sublist_skip].
Qed.

Lemma list_remove_elem x l y : NoDup l -> y ∈ list_remove x l <-> y ∈ l /\ y <> x.
Proof.
  intros Hnd. destruct (decide (x ∈ l)) as [Hx|Hx].
  - pose proof (list_remove_perm x l Hx) as Hp.
    assert (Hnd' : NoDup (x :: list_remove x l)) by (by rewrite <- Hp).
    apply NoDup_cons in Hnd' as [Hn _].
    split.
    + intros Hy. split; [rewrite Hp; set_solver|]. intros ->. done.
    + intros [Hy Hne]. rewrite Hp in Hy. set_solver.
  - rewrite list_remove_notin by done. split; [|tauto]. intros Hy; split; [done|]. intros ->. done.
Qed.

Lemma StronglySorted_sublist {A} (R : relation A) l1 l2 :
  sublist l1 l2 -> StronglySorted R l2 -> StronglySorted R l1.
Proof.
  induction 1 as [|x l1 l2 Hs IH|x l1 l2 Hs IH]; intros H2; [constructor| |].
  - inversion H2 as [|? ? H2' Hf]; subst. constructor; [auto|].
    rewrite Forall_forall in *. intros y Hy. apply Hf. by eapply elem_of_sublist.
  - inversion H2; subst. auto.
Qed.

Lemma StronglySorted_lt_NoDup l : StronglySorted Z.lt l -> NoDup l.
Proof.
  induction 1 as [|x l Hs IH Hf]; constructor; [|done].
  rewrite Forall_forall in Hf. intros Hx. specialize (Hf _ Hx). lia.
Qed.

Lemma StronglySorted_app_inv l1 l2 :
  StronglySorted Z.lt (l1 ++ l2) ->
  StronglySorted Z.lt l1 /\ StronglySorted Z.lt l2 /\ forall x y, x ∈ l1 -> y ∈ l2 -> x < y.
Proof.
  induction l1 as [|a l1 IH]; simpl; intros Hs.
  - repeat split; [constructor|done|set_solver].
  - inversion Hs as [|? ? Hs' Hf]; subst. destruct (IH Hs') as (H1 & H2 & H3).
    rewrite Forall_forall in Hf.
    repeat split; [constructor; [done|]| done |].
    + rewrite Forall_forall. intros y Hy. apply Hf. set_solver.
    + intros x y [->|Hx]%elem_of_cons Hy; [|auto].
      apply Hf. set_solver.
Qed.

Lemma StronglySorted_app l1 l2 :
  StronglySorted Z.lt l1 -> StronglySorted Z.lt l2 -> (forall x y, x ∈ l1 -> y ∈ l2 -> x < y) ->
  StronglySorted Z.lt (l1 ++ l2).
Proof.
  induction l1 as [|a l1 IH]; simpl; intros H1 H2 H3; [done|].
  inversion H1 as [|? ? H1' Hf]; subst. constructor; [apply IH; set_solver|].
  rewrite Forall_forall in *. intros y [Hy|Hy]%elem_of_app; [auto|].
  apply H3; set_solver.
Qed.

(** Splicing [b] into a sorted list where the scan stops. *)
Lemma walk_insert_sorted b l :
  StronglySorted Z.lt l -> b ∉ l ->
  StronglySorted Z.lt ((walk b l).1 ++ b :: (walk b l).2).
Proof.
  intros Hs Hn. pose proof (walk_app b l) as Ha.
  apply StronglySorted_app.
  - rewrite <- Ha in Hs. by apply StronglySorted_app_inv in Hs as [? _].
  - constructor.
    + rewrite <- Ha in Hs. by apply StronglySorted_app_inv in Hs as (_ & ? & _).
    + rewrite Forall_forall. intros y Hy.
      pose proof (walk_after b l y Hs Hy). assert (y <> b) by (intros ->; apply Hn; rewrite <- Ha; set_solver). lia.
  - intros x y Hx Hy. pose proof (walk_before b l x Hx).
    apply elem_of_cons in Hy as [->|Hy]; [lia|]. pose proof (walk_after b l y Hs Hy). lia.
Qed.

Lemma next_of_app x A B : x ∉ A -> next_of x (A ++ x :: B) = head B.
Proof.
  induction A as [|a A IH]; simpl; intros Hn.
  - by rewrite Z.eqb_refl.
  - destruct (a =? x) eqn:E; [apply Z.eqb_eq in E; subst; set_solver|]. apply IH. set_solver.
Qed.

Lemma prev_of_none x l : x ∉ tail l -> prev_of x l = None.
Proof.
  induction l as [|y l IH]; simpl; [done|]. intros Hn.
  destruct l as [|z l]; [done|].
  destruct (z =? x) eqn:E; [apply Z.eqb_eq in E; subst; set_solver|]. apply IH. set_solver.
Qed.

Lemma prev_of_cons2 x y z l : prev_of x (y :: z :: l) = if z =? x then Some y else prev_of x (z :: l).
Proof. reflexivity. Qed.

Lemma prev_of_app x A B : NoDup (A ++ x :: B) -> prev_of x (A ++ x :: B) = last A.
Proof.
  induction A as [|a A IH]; intros Hnd.
  - apply prev_of_none. simpl. by apply NoDup_cons in Hnd as [? _].
  - simpl in Hnd. apply NoDup_cons in Hnd as [Hn Hnd].
    destruct A as [|a' A].
    + simpl. by rewrite Z.eqb_refl.
    + change ((a :: a' :: A) ++ x :: B) with (a :: a' :: (A ++ x :: B)).
      rewrite prev_of_cons2. destruct (a' =? x) eqn:E.
      * apply Z.eqb_eq in E; subst. simpl in Hnd. apply NoDup_cons in Hnd as [Hn' _]. set_solver.
      * change (a' :: (A ++ x :: B)) with ((a' :: A) ++ x :: B). rewrite IH by done. done.
Qed.

Lemma mm_insert_perm k v l : mm_insert k v l ≡ₚ (k, v) :: l.
Proof.
  induction l as [|[k' v'] l IH]; simpl; [done|].
  destruct (k <? k'); [done|]. rewrite IH. apply perm_swap.
Qed.

Lemma mm_insert_sorted k v l : StronglySorted keyle l -> StronglySorted keyle (mm_insert k v l).
Proof.
  induction l as [|[k' v'] l IH]; simpl; intros Hs; [repeat constructor|].
  inversion Hs as [|? ? Hs' Hf]; subst.
  destruct (k <? k') eqn:E.
  - apply Z.ltb_lt in E. constructor; [done|]. constructor; [unfold keyle; simpl; lia|].
    rewrite Forall_forall in *. intros [k2 v2] H2. specialize (Hf _ H2). unfold keyle in *; simpl in *; lia.
  - apply Z.ltb_ge in E. constructor; [auto|]. rewrite Forall_forall in *.
    intros e He. rewrite (mm_insert_perm k v l) in He. apply elem_of_cons in He as [->|He]; [|auto].
    unfold keyle; simpl; lia.
Qed.

Lemma mm_erase_notin v l : v ∉ map snd l -> mm_erase v l = l.
Proof.
  induction l as [|[k' v'] l IH]; simpl; [done|]. intros Hn.
  destruct (v' =? v) eqn:E; [apply Z.eqb_eq in E; subst; set_solver|]. rewrite IH; set_solver.
Qed.

Lemma mm_erase_sublist v l : sublist (mm_erase v l) l.
Proof.
  induction l as [|[k' v'] l IH]; simpl; [done|].
  destruct (v' =? v); [by apply sublist_cons|by apply sublist_skip].
Qed.

Lemma mm_erase_perm v l : v ∈ map snd l -> exists k, (k, v) ∈ l /\ l ≡ₚ (k, v) :: mm_erase v l.
Proof.
  induction l as [|[k' v'] l IH]; simpl; [set_solver|]. intros Hv.
  destruct (v' =? v) eqn:E.
  - apply Z.eqb_eq in E; subst. exists k'. split; [set_solver|done].
  - apply Z.eqb_neq in E. destruct IH as (k & Hk & Hp); [set_solver|].
    exists k. split; [set_solver|]. rewrite Hp at 1. apply perm_swap.
Qed.

Lemma mm_erase_sorted v l : StronglySorted keyle l -> StronglySorted keyle (mm_erase v l).
Proof. apply StronglySorted_sublist, mm_erase_sublist. Qed.

Lemma mm_lower_bound_some k l e :
  mm_lower_bound k l = Some e ->
  e ∈ l /\ k <= e.1 /\ (StronglySorted keyle l -> forall e', e' ∈ l -> k <= e'.1 -> e.1 <= e'.1).
Proof.
  induction l as [|[k' v'] l IH]; simpl; [done|]. intros He.
  destruct (k <=? k') eqn:E.
  - injection He as <-. apply Z.leb_le in E. split; [set_solver|]. split; [done|].
    intros Hs e' He' _. inversion Hs as [|? ? Hs' Hf]; subst.
    apply elem_of_cons in He' as [->|He']; [simpl; lia|].
    rewrite Forall_forall in Hf. by apply Hf.
  - apply Z.leb_gt in E. destruct (IH He) as (H1 & H2 & H3).
    split; [set_solver|]. split; [done|]. intros Hs e' He' Hk.
    inversion Hs; subst. apply elem_of_cons in He' as [->|He']; [simpl in *; lia|]. auto.
Qed.

Lemma mm_lower_bound_none k l : mm_lower_bound k l = None -> forall e, e ∈ l -> e.1 < k.
Proof.
  induction l as [|[k' v'] l IH]; simpl; [set_solver|]. intros Hn e He.
  destruct (k <=? k') eqn:E; [done|]. apply Z.leb_gt in E.
  apply elem_of_cons in He as [->|He]; [simpl; lia|auto].
Qed.

(** An index that lists the nodes of a list, each under a key given by [g]. *)
Lemma idx_snd (g : Z -> Z) (idx : list (Z * Z)) fl : idx ≡ₚ map (fun x => (g x, x)) fl -> map snd idx ≡ₚ fl.
Proof.
  intros Hp. rewrite Hp, map_map. simpl. clear. induction fl; simpl; by constructor.
Qed.

Lemma idx_elem (g : Z -> Z) (idx : list (Z * Z)) fl k x : idx ≡ₚ map (fun x => (g x, x)) fl -> (k, x) ∈ idx <-> x ∈ fl /\ k = g x.
Proof.
  intros Hp. rewrite Hp, list_elem_of_fmap. split.
  - intros (y & Hy & Hin). injection Hy as -> ->. done.
  - intros [Hx ->]. exists x. done.
Qed.

Lemma idx_erase (g : Z -> Z) (idx : list (Z * Z)) fl v :
  NoDup fl -> idx ≡ₚ map (fun x => (g x, x)) fl ->
  mm_erase v idx ≡ₚ map (fun x => (g x, x)) (list_remove v fl).
Proof.
  intros Hnd Hp. destruct (decide (v ∈ fl)) as [Hv|Hv].
  - destruct (mm_erase_perm v idx) as (k & Hk & Hperm).
    { rewrite (idx_snd g idx fl Hp). done. }
    apply (idx_elem g idx fl) in Hk as [_ ->]; [|done].
    apply (Permutation_cons_inv (a := (g v, v))).
    rewrite <- Hperm, Hp. rewrite (list_remove_perm v fl Hv) at 1. done.
  - rewrite mm_erase_notin, list_remove_notin; [done|done|].
    rewrite (idx_snd g idx fl Hp). done.
Qed.



Lemma free_frame_refl st : free_frame st st.
Proof. frame_tac. Qed.

Lemma free_frame_trans st1 st2 st3 : free_frame st1 st2 -> free_frame st2 st3 -> free_frame st1 st3.
Proof.
  unfold free_frame. intros H1 H2. destruct_and!. repeat split; congruence.
Qed.

Lemma coalesce_frame b st : free_frame st (coalesce_neighbors b st).
Proof.
  unfold coalesce_neighbors. repeat case_match; simplify_eq; frame_tac.
Qed.

Lemma insert_frame b s ac st : free_frame st (insert_free_block b s ac st).
Proof.
  unfold insert_free_block. destruct (walk _ _) as [bf af].
  case_match; [|frame_tac].
  eapply free_frame_trans; [|apply coalesce_frame]. frame_tac.
Qed.

Lemma unregister_frame p st : scope_frame st (unregister_scope p st).
Proof.
  unfold unregister_scope. repeat case_match; simplify_eq; frame_tac.
Qed.

Lemma lookup_upd_hdr f b st x :
  hdrs (upd_hdr f b st) !! x = if decide (b = x) then f <$> hdrs st !! x else hdrs st !! x.
Proof.
  unfold upd_hdr; simpl. case_decide; subst; [by rewrite lookup_alter_eq|by rewrite lookup_alter_ne].
Qed.

Lemma bsize_upd_hdr f b st x :
  (forall h, size (f h) = size h) -> bsize (upd_hdr f b st) x = bsize st x.
Proof.
  intros Hf. unfold bsize. rewrite lookup_upd_hdr. case_decide; [|done].
  subst. destruct (hdrs st !! x); simpl; auto.
Qed.

Lemma hdrs_set_cache c l st : hdrs (set_cache c l st) = hdrs st.
Proof. by destruct c. Qed.

Lemma hdrs_set_slab c s st : hdrs (set_slab c s st) = hdrs st.
Proof. by destruct c. Qed.

Lemma stats_set_cache c l st : stats (set_cache c l st) = stats st.
Proof. by destruct c. Qed.

Lemma stats_set_slab c s st : stats (set_slab c s st) = stats st.
Proof. by destruct c. Qed.

Lemma stats_upd f b st : stats (upd_hdr f b st) = stats st.
Proof. done. Qed.

Lemma bsize_hdrs st st' x : hdrs st' = hdrs st -> bsize st' x = bsize st x.
Proof. unfold bsize. by intros ->. Qed.

Lemma select_class_from_lt i classes size :
  size ∈ classes -> (select_class_from i classes size < i + length classes)%nat.
Proof.
  revert i. induction classes as [|c cs IH]; intros i Hin; simpl; [set_solver|].
  destruct (size <=? c) eqn:E; [lia|].
  apply elem_of_cons in Hin as [->|Hin]; [rewrite Z.leb_refl in E; done|].
  specialize (IH (S i) Hin). lia.
Qed.

Lemma select_class_member size :
  size ∈ SEGREGATED_CLASS_SIZES -> (select_segregated_class size < SEGREGATED_CLASS_COUNT)%nat.
Proof. intros H. apply (select_class_from_lt 0) in H. exact H. Qed.

(** C10: whatever path [deallocate] takes for a non-null payload (best-fit
    or pool block, segregated list, thread cache, slab), [bytes_allocated]
    drops by the block's size, saturating at 0 when the size exceeds it. *)
Theorem deallocate_bytes_saturate (ptr : Z) (st : MemoryPool) (h : MemoryBlock)
  (Hptr : ptr <> 0) (Hh : hdrs st !! (ptr - HEADER_SIZE) = Some h)
  (Hseg : strategy h = SEGREGATED -> size h ∈ SEGREGATED_CLASS_SIZES) :
  bytes_allocated (stats (deallocate ptr st)) =
    (if bytes_allocated (stats st) >=? size h then bytes_allocated (stats st) - size h else 0).
Proof.
  unfold deallocate. rewrite (proj2 (Z.eqb_neq ptr 0) Hptr).
  set (st1 := if thread_safe st && (0 <? active_scope_count st) then unregister_scope ptr st else st).
  assert (Hh1 : hdrs st1 = hdrs st /\ stats st1 = stats st).
  { subst st1. case_match; [|done]. pose proof (unregister_frame ptr st) as F.
    unfold scope_frame in F. destruct_and!. done. }
  destruct Hh1 as [Hh1 Hs1]. clearbody st1. rewrite Hh1, Hh.
  assert (Hb1 : bsize st1 (ptr - HEADER_SIZE) = size h) by (unfold bsize; by rewrite Hh1, Hh).
  assert (Hdb : bytes_allocated (stats (deallocate_block (ptr - HEADER_SIZE) st1)) =
    (if bytes_allocated (stats st) >=? size h then bytes_allocated (stats st) - size h else 0)).
  { unfold deallocate_block, stat_dealloc, sat_sub. cbn [stats set_stats bytes_allocated].
    pose proof (insert_frame (ptr - HEADER_SIZE) BEST_FIT true st1) as F.
    unfold free_frame in F. destruct_and!. by rewrite H11, Hs1, Hb1. }
  assert (Hrf : forall c, bytes_allocated (stats (release_fixed c ptr st1)) =
    (if bytes_allocated (stats st) >=? size h then bytes_allocated (stats st) - size h else 0)).
  { intros c. unfold release_fixed, release_to_cache.
    destruct (length (get_cache c st1) <? CACHE_LIMIT)%nat; cbv iota.
    - unfold stat_dealloc, sat_sub. cbn [stats set_stats bytes_allocated].
      assert (Hb : bsize (set_cache c (ptr :: get_cache c (upd_hdr (with_free true) (ptr - HEADER_SIZE) st1))
                     (upd_hdr (with_free true) (ptr - HEADER_SIZE) st1)) (ptr - HEADER_SIZE) = size h).
      { rewrite (bsize_hdrs (upd_hdr (with_free true) (ptr - HEADER_SIZE) st1)) by apply hdrs_set_cache.
        rewrite <- Hb1; apply bsize_upd_hdr; done. }
      rewrite Hb, stats_set_cache, stats_upd. by rewrite Hs1.
    - unfold slab_deallocate. rewrite (proj2 (Z.eqb_neq ptr 0) Hptr).
      unfold stat_dealloc, sat_sub, set_slab_free.
      assert (Hb : forall s, bsize (set_slab c s (upd_hdr (with_free true) (ptr - HEADER_SIZE) st1))
                     (ptr - HEADER_SIZE) = size h).
      { intros s. rewrite (bsize_hdrs (upd_hdr (with_free true) (ptr - HEADER_SIZE) st1)) by apply hdrs_set_slab.
        rewrite <- Hb1; apply bsize_upd_hdr; done. }
      cbn [stats set_stats bytes_allocated].
      rewrite Hb, stats_set_slab, stats_upd. by rewrite Hs1. }
  destruct (strategy h) eqn:Es; try exact Hdb.
  - repeat case_match; auto.
  - specialize (Hseg eq_refl). apply select_class_member in Hseg.
    unfold release_segregated. rewrite Hb1.
    replace ((select_segregated_class (size h) <? SEGREGATED_CLASS_COUNT)%nat) with true
      by (symmetry; apply Nat.ltb_lt; done).
    unfold stat_dealloc, sat_sub. cbn [stats set_stats bytes_allocated].
    rewrite (bsize_hdrs (upd_hdr (with_free_strat true SEGREGATED) (ptr - HEADER_SIZE)
                          (upd_hdr (with_free true) (ptr - HEADER_SIZE) st1))) by done.
    rewrite !bsize_upd_hdr by done. rewrite Hb1. cbn. rewrite Hs1. done.
Qed.

Lemma align_size_eq size : align_size size = wrap (size + 15) / 16 * 16.
Proof.
  unfold align_size, wrap, ALIGNMENT. change (16 - 1) with 15.
  set (x := (size + 16 - 1) mod 2 ^ 64).
  replace ((size + 15) mod 2 ^ 64) with x by (subst x; f_equal; lia).
  rewrite <- (Z.land_ones (Z.lnot 15) 64) by lia.
  rewrite (Z.land_comm (Z.lnot 15)), Z.land_assoc, Z.land_ones by lia.
  replace (x mod 2 ^ 64) with x by (subst x; by rewrite Zmod_mod).
  rewrite <- Z.ldiff_land. change 15 with (Z.ones 4).
  rewrite Z.ldiff_ones_r by lia. rewrite Z.shiftl_mul_pow2, Z.shiftr_div_pow2 by lia. done.
Qed.

Lemma align_size_spec size : 0 <= size <= SIZE_MAX - 15 ->
  align_size size mod 16 = 0 /\ size <= align_size size < size + 16.
Proof.
  intros H. rewrite align_size_eq. unfold wrap, SIZE_MAX in *.
  rewrite (Z.mod_small (size + 15) (2 ^ 64)) by lia.
  pose proof (Z.div_mod (size + 15) 16) as Hd. pose proof (Z.mod_pos_bound (size + 15) 16) as Hb.
  split; [apply Z.mod_mul; lia|lia].
Qed.

Lemma align_size_nonneg size : 0 <= align_size size.
Proof.
  rewrite align_size_eq. unfold wrap.
  pose proof (Z.mod_pos_bound (size + 15) (2 ^ 64)). apply Z.mul_nonneg_nonneg; [|lia].
  apply Z.div_pos; lia.
Qed.

Lemma select_class_big a : select_segregated_class a = SEGREGATED_CLASS_COUNT <-> 4096 < a.
Proof.
  unfold select_segregated_class, SEGREGATED_CLASS_SIZES, SEGREGATED_CLASS_COUNT. cbn [select_class_from].
  destruct (Z.leb_spec a 32); [split; [discriminate|lia]|].
  destruct (Z.leb_spec a 64); [split; [discriminate|lia]|].
  destruct (Z.leb_spec a 128); [split; [discriminate|lia]|].
  destruct (Z.leb_spec a 256); [split; [discriminate|lia]|].
  destruct (Z.leb_spec a 512); [split; [discriminate|lia]|].
  destruct (Z.leb_spec a 1024); [split; [discriminate|lia]|].
  destruct (Z.leb_spec a 2048); [split; [discriminate|lia]|].
  destruct (Z.leb_spec a 4096); [split; [discriminate|lia]|].
  split; [lia|done].
Qed.

(** With [FIXED_SIZE] the locked [switch] is the best-fit case. *)
Lemma general_path_fixed a st : general_path FIXED_SIZE a st = general_path BEST_FIT a st.
Proof. reflexivity. Qed.

Lemma general_path_segregated_big a st : 4096 < a ->
  general_path SEGREGATED a st = general_path BEST_FIT a st.
Proof.
  intros H. unfold general_path, allocate_segregated.
  apply select_class_big in H. rewrite H. reflexivity.
Qed.

(** C2: [align_size] rounds a size up to the next multiple of 16, and
    [allocate] behaves as the route table of the specification: a [BEST_FIT]
    request is reclassified by the aligned size (to the 32-, 128- or 256-byte
    slab, to [SEGREGATED] up to 512, else [BEST_FIT]); other requests keep
    their strategy, [SEGREGATED] above 4096 and [FIXED_SIZE] above 256 going
    to best fit. *)
Theorem allocate_routes (size : Z) (requested : AllocationStrategy) (st : MemoryPool) :
  (0 <= size <= SIZE_MAX - 15 ->
     align_size size mod ALIGNMENT = 0 /\ size <= align_size size < size + ALIGNMENT) /\
  allocate size requested st =
    run_route (spec_route (align_size size) requested) (align_size size) st.
Proof.
  split; [apply align_size_spec|].
  unfold allocate, run_route, spec_route, effective_strategy, fixed_path, fixed_slab.
  set (a := align_size size). clearbody a.
  destruct requested.
  - destruct (a <=? 32); [destruct (acquire_from_cache _ st) as [? [|]]; reflexivity|].
    destruct (a <=? 128); [destruct (acquire_from_cache _ st) as [? [|]]; reflexivity|].
    destruct (a <=? 256); [destruct (acquire_from_cache _ st) as [? [|]]; reflexivity|].
    destruct (a <=? 512); reflexivity.
  - destruct (a <=? 32); [destruct (acquire_from_cache _ st) as [? [|]]; reflexivity|].
    destruct (a <=? 128); [destruct (acquire_from_cache _ st) as [? [|]]; reflexivity|].
    destruct (a <=? 256); [destruct (acquire_from_cache _ st) as [? [|]]; reflexivity|].
    reflexivity.
  - reflexivity.
  - destruct (4096 <? a) eqn:E; [|reflexivity].
    apply Z.ltb_lt in E. apply general_path_segregated_big. done.
Qed.

(** When neither list neighbour qualifies, coalescing re-keys [b] only. *)
Lemma coalesce_no_merge b st :
  is_bf st b = true ->
  (forall y, next_of b (free_list st) = Some y -> free_bf_b st y && adjacent st b y = false) ->
  (forall y, prev_of b (free_list st) = Some y -> free_bf_b st y && adjacent st y b = false) ->
  coalesce_neighbors b st = add_to_size_index b (remove_from_size_index b st).
Proof.
  intros Hbf Hn Hp. unfold coalesce_neighbors. rewrite Hbf. cbn [negb].
  set (s := remove_from_size_index b st).
  change (free_list s) with (free_list st).
  destruct (next_of b (free_list st)) as [y|] eqn:E.
  - change (free_bf_b s y) with (free_bf_b st y). change (adjacent s b y) with (adjacent st b y).
    rewrite (Hn y eq_refl).
    change (free_list s) with (free_list st).
    destruct (prev_of b (free_list st)) as [z|] eqn:E'; [|reflexivity].
    change (free_bf_b s z) with (free_bf_b st z). change (adjacent s z b) with (adjacent st z b).
    rewrite (Hp z eq_refl). reflexivity.
  - change (free_list s) with (free_list st).
    destruct (prev_of b (free_list st)) as [z|] eqn:E'; [|reflexivity].
    change (free_bf_b s z) with (free_bf_b st z). change (adjacent s z b) with (adjacent st z b).
    rewrite (Hp z eq_refl). reflexivity.
Qed.

Lemma insert_free_block_unfold b st :
  insert_free_block b BEST_FIT true st =
  let st1 := upd_hdr (with_free_strat true BEST_FIT) b st in
  coalesce_neighbors b (add_to_size_index b
    (set_free_list ((walk b (free_list st1)).1 ++ b :: (walk b (free_list st1)).2) st1)).
Proof.
  unfold insert_free_block. simpl. destruct (walk b (free_list st)) as [bf af]. reflexivity.
Qed.

Lemma next_of_elem x l y : next_of x l = Some y -> y ∈ l.
Proof.
  induction l as [|z l IH]; simpl; [done|]. destruct (z =? x).
  - destruct l; simpl; [done|]. intros [= ->]. set_solver.
  - intros H. specialize (IH H). set_solver.
Qed.

Lemma prev_of_elem x l y : prev_of x l = Some y -> y ∈ l.
Proof.
  induction l as [|z l IH]; [done|]. destruct l as [|w l]; [done|].
  rewrite prev_of_cons2. destruct (w =? x).
  - intros [= ->]. set_solver.
  - intros H. specialize (IH H). set_solver.
Qed.


Lemma sep_elems (l : list Z) :
  (forall i j ci cj, l !! i = Some ci -> l !! j = Some cj -> i <> j ->
     ci + POOL_SIZE < cj \/ cj + POOL_SIZE < ci) ->
  NoDup l /\ forall x y, x ∈ l -> y ∈ l -> x <> y -> x + POOL_SIZE < y \/ y + POOL_SIZE < x.
Proof.
  intros Hs. split.
  - apply NoDup_alt. intros i j x Hi Hj. destruct (decide (i = j)) as [|Hne]; [done|].
    specialize (Hs i j x x Hi Hj Hne). unfold POOL_SIZE in Hs. lia.
  - intros x y Hx Hy Hne. apply list_elem_of_lookup in Hx as [i Hi], Hy as [j Hj].
    apply (Hs i j); [done|done|]. intros ->. congruence.
Qed.

Lemma hdrs_init_insert c s :
  hdrs (upd_hdr (with_free_strat true BEST_FIT) c (init_block c POOL_SIZE BEST_FIT s)) =
  <[c := chunk_header]> (hdrs s).
Proof.
  unfold upd_hdr, init_block; simpl. rewrite alter_insert_eq. reflexivity.
Qed.

Lemma reset_step_inv P c s :
  StronglySorted Z.lt (free_list s) -> free_list s ≡ₚ P ->
  (forall x, x ∈ P -> hdrs s !! x = Some chunk_header) ->
  size_index s ≡ₚ map (fun x => (POOL_SIZE - HEADER_SIZE, x)) P ->
  c ∉ P -> (forall y, y ∈ P -> c + POOL_SIZE < y \/ y + POOL_SIZE < c) ->
  let s' := reset_step s c in
  StronglySorted Z.lt (free_list s') /\ free_list s' ≡ₚ P ++ [c] /\
  (forall x, x ∈ P ++ [c] -> hdrs s' !! x = Some chunk_header) /\
  size_index s' ≡ₚ map (fun x => (POOL_SIZE - HEADER_SIZE, x)) (P ++ [c]) /\
  free_frame s s' /\ hdrs s' = <[c := chunk_header]> (hdrs s) /\ blocks s' = {[c]} ∪ blocks s.
Proof.
  intros Hs Hp Hh Hi Hc Hsep s'.
  assert (Hfr : free_frame s s').
  { eapply free_frame_trans; [|apply insert_frame]. unfold free_frame; repeat split. }
  assert (Hcfl : c ∉ free_list s) by (by rewrite Hp).
  subst s'. unfold reset_step. rewrite insert_free_block_unfold. cbv zeta.
  set (s1 := upd_hdr (with_free_strat true BEST_FIT) c (init_block c POOL_SIZE BEST_FIT s)).
  assert (Hh1 : hdrs s1 = <[c := chunk_header]> (hdrs s)) by apply hdrs_init_insert.
  assert (Hfl1 : free_list s1 = free_list s) by reflexivity.
  assert (Hb1 : bsize s1 c = POOL_SIZE - HEADER_SIZE) by (unfold bsize; rewrite Hh1, lookup_insert_eq; reflexivity).
  assert (HbP : forall y, y ∈ P -> bsize s1 y = POOL_SIZE - HEADER_SIZE).
  { intros y Hy. unfold bsize. rewrite Hh1, lookup_insert_ne by (intros ->; done). rewrite Hh by done. reflexivity. }
  rewrite Hfl1.
  pose proof (walk_app c (free_list s)) as Hw.
  set (bf := (walk c (free_list s)).1) in *. set (af := (walk c (free_list s)).2) in *.
  assert (Hsorted : StronglySorted Z.lt (bf ++ c :: af)) by (apply walk_insert_sorted; done).
  assert (Hmem : forall y, y ∈ bf ++ c :: af -> y = c \/ y ∈ P).
  { intros y Hy. rewrite <- Hp, <- Hw. set_solver. }
  set (s2 := add_to_size_index c (set_free_list (bf ++ c :: af) s1)).
  assert (Hadj : forall x y, x ∈ bf ++ c :: af -> y ∈ bf ++ c :: af -> (x = c \/ y = c) -> adjacent s2 x y = false).
  { intros x y Hx Hy Hxy. unfold adjacent. apply Z.eqb_neq.
    change (bsize s2 x) with (bsize s1 x).
    apply Hmem in Hx, Hy.
    destruct Hx as [->|Hx]; destruct Hy as [->|Hy].
    - rewrite Hb1. unfold POOL_SIZE, HEADER_SIZE. lia.
    - rewrite Hb1. specialize (Hsep y Hy). unfold POOL_SIZE, HEADER_SIZE in *. lia.
    - rewrite (HbP x Hx). specialize (Hsep x Hx). unfold POOL_SIZE, HEADER_SIZE in *. lia.
    - exfalso. destruct Hxy as [->| ->]; done. }
  rewrite coalesce_no_merge.
  2:{ unfold is_bf. change (hdrs s2) with (hdrs s1). rewrite Hh1, lookup_insert_eq. reflexivity. }
  2:{ intros y Hy. apply andb_false_intro2. change (free_list s2) with (bf ++ c :: af) in Hy.
      apply Hadj; [set_solver|eapply next_of_elem; done|by left]. }
  2:{ intros y Hy. apply andb_false_intro2. change (free_list s2) with (bf ++ c :: af) in Hy.
      apply Hadj; [eapply prev_of_elem; done|set_solver|by right]. }
  change (free_list (add_to_size_index c (remove_from_size_index c s2))) with (bf ++ c :: af).
  change (hdrs (add_to_size_index c (remove_from_size_index c s2))) with (hdrs s1).
  split; [done|]. split; [|split; [|split]].
  - rewrite <- Permutation_middle, Hw, Hp. apply Permutation_cons_append.
  - intros x Hx. rewrite Hh1. destruct (decide (x = c)) as [->|Hne].
    + by rewrite lookup_insert_eq.
    + rewrite lookup_insert_ne by done. apply Hh. set_solver.
  - simpl. unfold add_to_size_index, remove_from_size_index. simpl.
    change (bsize (set_size_index _ _) c) with (bsize s1 c). rewrite Hb1.
    rewrite mm_insert_perm.
    assert (Hnd : NoDup (c :: P)).
    { constructor; [done|]. rewrite <- Hp. by apply StronglySorted_lt_NoDup. }
    rewrite (idx_erase (fun _ => POOL_SIZE - HEADER_SIZE) _ (c :: P)); [|done|].
    + simpl. rewrite Z.eqb_refl. rewrite map_app. simpl. apply Permutation_cons_append.
    + rewrite mm_insert_perm. change (bsize (set_free_list (bf ++ c :: af) s1) c) with (bsize s1 c).
      rewrite Hb1. simpl. by apply perm_skip.
  - split; [done|]. split; [exact Hh1|reflexivity].
Qed.

Lemma reset_fold L P s :
  StronglySorted Z.lt (free_list s) -> free_list s ≡ₚ P ->
  (forall x, x ∈ P -> hdrs s !! x = Some chunk_header) ->
  size_index s ≡ₚ map (fun x => (POOL_SIZE - HEADER_SIZE, x)) P ->
  NoDup (P ++ L) ->
  (forall x y, x ∈ P ++ L -> y ∈ P ++ L -> x <> y -> x + POOL_SIZE < y \/ y + POOL_SIZE < x) ->
  let s' := foldl reset_step s L in
  StronglySorted Z.lt (free_list s') /\ free_list s' ≡ₚ P ++ L /\
  (forall x, x ∈ P ++ L -> hdrs s' !! x = Some chunk_header) /\
  size_index s' ≡ₚ map (fun x => (POOL_SIZE - HEADER_SIZE, x)) (P ++ L) /\
  free_frame s s' /\ (forall y, y ∉ L -> hdrs s' !! y = hdrs s !! y) /\
  blocks s' = list_to_set L ∪ blocks s.
Proof.
  revert P s. induction L as [|c L IH]; intros P s Hs Hp Hh Hi Hnd Hsep; simpl.
  - rewrite app_nil_r. split; [done|]. split; [done|]. split; [done|]. split; [done|].
    split; [apply free_frame_refl|]. split; [done|]. set_solver.
  - assert (Hc : c ∉ P) by (intros Hc; apply NoDup_app in Hnd as (_ & Hd & _); apply (Hd c Hc); set_solver).
    destruct (reset_step_inv P c s Hs Hp Hh Hi Hc) as (Hs1 & Hp1 & Hh1 & Hi1 & Hf1 & Hhd1 & Hbl1).
    { intros y Hy. apply Hsep; [set_solver|set_solver|]. intros ->. done. }
    replace (P ++ c :: L) with ((P ++ [c]) ++ L) in * by (by rewrite <- app_assoc).
    destruct (IH (P ++ [c]) (reset_step s c) Hs1 Hp1 Hh1 Hi1 Hnd Hsep) as (H1 & H2 & H3 & H4 & H5 & H6 & H7).
    split; [done|]. split; [done|]. split; [done|]. split; [done|].
    split; [eapply free_frame_trans; done|]. split.
    + intros y Hy. rewrite H6 by set_solver. rewrite Hhd1, lookup_insert_ne; [done|set_solver].
    + rewrite H7, Hbl1. set_solver.
Qed.


Lemma wf_blocks_ext st st' :
  hdrs st' = hdrs st -> blocks st' = blocks st -> heap_top st' = heap_top st ->
  memory_chunks st' = memory_chunks st -> small_allocator st' = small_allocator st ->
  medium_allocator st' = medium_allocator st -> large_allocator st' = large_allocator st ->
  segregated_free_lists st' = segregated_free_lists st -> thread_cache st' = thread_cache st ->
  wf_blocks st -> wf_blocks st'.
Proof.
  destruct st, st'; simpl; intros; subst. destruct H8; split; assumption.
Qed.

Lemma wf_ext st st' :
  hdrs st' = hdrs st -> blocks st' = blocks st -> heap_top st' = heap_top st ->
  memory_chunks st' = memory_chunks st -> small_allocator st' = small_allocator st ->
  medium_allocator st' = medium_allocator st -> large_allocator st' = large_allocator st ->
  segregated_free_lists st' = segregated_free_lists st -> thread_cache st' = thread_cache st ->
  free_list st' = free_list st -> size_index st' = size_index st ->
  wf st -> wf st'.
Proof.
  destruct st, st'; simpl; intros; subst. destruct H10 as [Hb ? ? ? ? ?].
  split; try assumption. eapply wf_blocks_ext, Hb; reflexivity.
Qed.

Lemma wf_scope_frame st st' : scope_frame st st' -> wf st -> wf st'.
Proof.
  unfold scope_frame. intros H. destruct_and!. apply wf_ext; assumption.
Qed.

Lemma wf_set_stats s st : wf st -> wf (set_stats s st).
Proof. apply wf_ext; reflexivity. Qed.

Lemma wf_stat_alloc n st : wf st -> wf (stat_alloc n st).
Proof. apply wf_set_stats. Qed.

Lemma wf_stat_dealloc n st : wf st -> wf (stat_dealloc n st).
Proof. apply wf_set_stats. Qed.

(** ** Header updates that keep the block's size *)




Lemma in_chunk_bsize st st' x s :
  bsize st' x = bsize st x -> memory_chunks st' = memory_chunks st ->
  slab_chunk_list st' = slab_chunk_list st -> in_chunk st' x s <-> in_chunk st x s.
Proof.
  intros Hb Hm Hs. unfold in_chunk, bend. rewrite Hb, Hm, Hs. done.
Qed.

Lemma in_chunk_non_fixed st x s s' :
  s <> FIXED_SIZE -> s' <> FIXED_SIZE -> in_chunk st x s -> in_chunk st x s'.
Proof.
  unfold in_chunk, strat_eqb. intros H1 H2. by rewrite !bool_decide_false.
Qed.

Lemma upd_lookup_inv g b st x h' :
  hdrs (upd_hdr g b st) !! x = Some h' ->
  (x = b /\ exists h, hdrs st !! b = Some h /\ h' = g h) \/ (x <> b /\ hdrs st !! x = Some h').
Proof.
  rewrite lookup_upd_hdr. case_decide; subst.
  - intros Hl. apply fmap_Some in Hl as (h & Hh & ->). left. eauto.
  - right. auto.
Qed.

Lemma tagged_upd g b st x s :
  strat_ok g b st -> s = SEGREGATED \/ s = FIXED_SIZE ->
  tagged st x s -> tagged (upd_hdr g b st) x s.
Proof.
  intros Hok Hs (h & Hh & Ht). unfold tagged; rewrite lookup_upd_hdr. case_decide; subst.
  - rewrite Hh. exists (g h). split; [done|].
    destruct Hs; destruct (Hok _ Hh) as [?|[[? | ?] [? | ?]]]; congruence.
  - eauto.
Qed.

Lemma wf_blocks_upd g b st :
  (forall h, size (g h) = size h) -> strat_ok g b st -> wf_blocks st -> wf_blocks (upd_hdr g b st).
Proof.
  intros Hsz Hok [Hhdr Hsize Hdis Hin Hnd Hap Hbel Hsl Hseg Hss Hfs Hslab Hcache Hheap].
  assert (Hbs : forall x, bsize (upd_hdr g b st) x = bsize st x) by (intros; by apply bsize_upd_hdr).
  assert (Hstrat : forall x h', hdrs (upd_hdr g b st) !! x = Some h' ->
            exists h, hdrs st !! x = Some h /\ size h' = size h /\
              (strategy h' = strategy h \/ (non_fixed_seg (strategy h) /\ non_fixed_seg (strategy h')))).
  { intros x h' Hl. apply upd_lookup_inv in Hl as [[-> (h & Hh & ->)]|[_ Hl]].
    - exists h. split; [done|]. split; [apply Hsz|]. by apply Hok.
    - exists h'. auto. }
  split; cbn [blocks upd_hdr set_hdrs heap_top memory_chunks segregated_free_lists].
  - intros x Hx. rewrite lookup_upd_hdr. case_decide; [|by apply Hhdr].
    destruct (Hhdr x Hx) as [h ->]. by eexists.
  - intros x Hx. rewrite Hbs. by apply Hsize.
  - intros x y Hx Hy Hne. unfold bend. rewrite !Hbs. by apply Hdis.
  - intros x h' Hx Hl. destruct (Hstrat x h' Hl) as (h & Hh & _ & Hs).
    apply (in_chunk_bsize st); [apply Hbs|done|done|].
    destruct Hs as [->|[Hs1 Hs2]]; [by apply (Hin x h)|].
    apply (in_chunk_non_fixed _ _ (strategy h)); [destruct Hs1 as [-> | ->]; discriminate
      |destruct Hs2 as [-> | ->]; discriminate|by apply (Hin x h)].
  - exact Hnd.
  - exact Hap.
  - exact Hbel.
  - exact Hsl.
  - intros i l x Hi Hx. destruct (Hseg i l x Hi Hx) as (Hxb & h & Hh & Hst & Hc).
    split; [done|]. rewrite lookup_upd_hdr. case_decide; subst; [|eauto].
    rewrite Hh. exists (g h). split; [done|]. rewrite Hsz. split; [|done].
    destruct (Hok _ Hh) as [?|[[? | ?] [? | ?]]]; congruence.
  - intros x h' Hx Hl Hs'. destruct (Hstrat x h' Hl) as (h & Hh & -> & Hs).
    apply (Hss x h Hx Hh). destruct Hs as [?|[[? | ?] [? | ?]]]; congruence.
  - intros x h' Hx Hl Hs'. destruct (Hstrat x h' Hl) as (h & Hh & -> & Hs).
    apply (Hfs x h Hx Hh). destruct Hs as [?|[[? | ?] [? | ?]]]; congruence.
  - intros c x Hx. destruct (Hslab c x) as [Hxb Ht]; [by destruct c|].
    split; [done|]. apply tagged_upd; auto.
  - intros c p Hp. destruct (Hcache c p) as [Hxb Ht]; [by destruct c|].
    split; [done|]. apply tagged_upd; auto.
  - exact Hheap.
Qed.

Lemma free_bf_upd_ne g b st x : x <> b -> free_bf (upd_hdr g b st) x <-> free_bf st x.
Proof. intros Hne. unfold free_bf. rewrite lookup_upd_hdr, decide_False; [done|congruence]. Qed.

Lemma free_bf_upd_eq g b st :
  free_bf (upd_hdr g b st) b <->
  exists h, hdrs st !! b = Some h /\ is_free (g h) = true /\ strategy (g h) = BEST_FIT.
Proof.
  unfold free_bf. rewrite lookup_upd_hdr, decide_True; [|done]. split.
  - intros (h' & Hl & ? & ?). apply fmap_Some in Hl as (h & Hh & ->). eauto.
  - intros (h & Hh & ? & ?). exists (g h). by rewrite Hh.
Qed.

Lemma wf_upd g b st :
  (forall h, size (g h) = size h) -> strat_ok g b st ->
  (forall h, hdrs st !! b = Some h ->
     (is_free (g h) = true /\ strategy (g h) = BEST_FIT <-> is_free h = true /\ strategy h = BEST_FIT)) ->
  wf st -> wf (upd_hdr g b st).
Proof.
  intros Hsz Hok Hfr [Hb Hs Hm Hidx Hp Hna].
  assert (Hbs : forall x, bsize (upd_hdr g b st) x = bsize st x) by (intros; by apply bsize_upd_hdr).
  split; cbn [free_list size_index blocks upd_hdr set_hdrs].
  - by apply wf_blocks_upd.
  - done.
  - intros x. rewrite Hm. destruct (decide (x = b)) as [->|Hne].
    + rewrite free_bf_upd_eq. unfold free_bf. split; intros [? (h & Hh & H1)]; split; auto;
        exists h; split; [done| |done| ]; apply Hfr; auto.
    + by rewrite free_bf_upd_ne.
  - done.
  - rewrite Hp. apply Permutation_refl'. apply map_ext. intros x. by rewrite Hbs.
  - intros x y Hx Hy. unfold bend. rewrite Hbs. by apply Hna.
Qed.

(** ** Detaching a free block *)

Lemma wf_detach b st : wf st -> b ∈ free_list st -> wf (detach_free_block b st).
Proof.
  intros [Hb Hs Hm Hidx Hp Hna] Hbf.
  pose proof (StronglySorted_lt_NoDup _ Hs) as Hnd.
  set (s1 := set_free_list (list_remove b (free_list st)) (remove_from_size_index b st)).
  assert (Hbs : forall x, bsize (detach_free_block b st) x = bsize st x).
  { intros x. unfold detach_free_block. rewrite bsize_upd_hdr; done. }
  assert (Hfl : free_list (detach_free_block b st) = list_remove b (free_list st)) by done.
  split.
  - unfold detach_free_block. apply wf_blocks_upd; [done| |].
    + intros h _. by left.
    + apply (wf_blocks_ext st); try reflexivity. exact Hb.
  - rewrite Hfl. eapply StronglySorted_sublist; [apply list_remove_sublist|done].
  - intros x. rewrite Hfl, list_remove_elem; [|done]. rewrite Hm.
    change (blocks (detach_free_block b st)) with (blocks st).
    unfold detach_free_block. destruct (decide (x = b)) as [->|Hne].
    + rewrite free_bf_upd_eq. split; [intros [_ []]; done|].
      intros [_ (h & _ & Hf & _)]. discriminate.
    + rewrite free_bf_upd_ne; [|done]. tauto.
  - apply mm_erase_sorted, Hidx.
  - change (size_index (detach_free_block b st)) with (mm_erase b (size_index st)).
    rewrite Hfl. etrans; [apply (idx_erase (bsize st)); done|].
    apply Permutation_refl'. apply map_ext. intros x. by rewrite Hbs.
  - intros x y Hx Hy. rewrite Hfl in Hx, Hy. unfold bend. rewrite Hbs.
    apply Hna; eapply elem_of_sublist; eauto using list_remove_sublist.
Qed.

Lemma free_bf_b_spec st y : free_bf_b st y = true <-> free_bf st y.
Proof.
  unfold free_bf_b, free_bf, strat_eqb. destruct (hdrs st !! y) as [h|]; split.
  - intros H. apply andb_true_iff in H as [H1 H2]. apply bool_decide_eq_true in H2. eauto.
  - intros (h' & [= <-] & H1 & H2). rewrite H1. simpl. by apply bool_decide_eq_true.
  - discriminate.
  - intros (? & ? & _). discriminate.
Qed.

Lemma adjacent_spec st x y : adjacent st x y = true <-> bend st x = y.
Proof. unfold adjacent, bend. apply Z.eqb_eq. Qed.

Lemma in_chunk_pool st x s :
  s <> FIXED_SIZE -> in_chunk st x s ->
  exists c, c ∈ memory_chunks st /\ c <= x /\ bend st x <= c + POOL_SIZE.
Proof. unfold in_chunk, strat_eqb. intros Hs. by rewrite bool_decide_false. Qed.

Lemma free_bf_chunk st x :
  wf_blocks st -> x ∈ blocks st -> free_bf st x ->
  exists c, c ∈ memory_chunks st /\ c <= x /\ bend st x <= c + POOL_SIZE.
Proof.
  intros Hw Hx (h & Hh & _ & Hs). apply (in_chunk_pool _ _ (strategy h)); [congruence|].
  by apply (wf_in_chunk _ Hw x h).
Qed.

Lemma pool_chunk_all st c : c ∈ memory_chunks st -> (c, POOL_SIZE) ∈ all_chunks st.
Proof.
  intros Hc. unfold all_chunks. apply elem_of_app. left.
  apply list_elem_of_fmap. eauto.
Qed.

(** Two blocks of pool chunks that touch lie in the same chunk. *)
Lemma same_chunk st x y cx cy :
  wf_blocks st -> cx ∈ memory_chunks st -> cy ∈ memory_chunks st ->
  cx <= x -> bend st x <= cx + POOL_SIZE -> cy <= y -> bend st y <= cy + POOL_SIZE ->
  0 <= bsize st x -> 0 <= bsize st y -> bend st x = y -> cx = cy.
Proof.
  intros Hw Hx Hy H1 H2 H3 H4 Hs' Hs Hb. destruct (decide (cx = cy)) as [|Hne]; [done|].
  destruct (wf_chunks_apart _ Hw cx POOL_SIZE cy POOL_SIZE) as [Ha|Ha];
    [by apply pool_chunk_all|by apply pool_chunk_all|done| |];
    unfold bend, POOL_SIZE, HEADER_SIZE in *; lia.
Qed.

Lemma fl_blocks st x : fl_mem st -> x ∈ free_list st -> x ∈ blocks st /\ free_bf st x.
Proof. intros Hm Hx. by apply Hm. Qed.

(** The list neighbours are the only possible physical neighbours. *)
Lemma next_phys st b y :
  wf_blocks st -> StronglySorted Z.lt (free_list st) -> fl_mem st ->
  b ∈ free_list st -> y ∈ free_list st -> bend st b = y -> next_of b (free_list st) = Some y.
Proof.
  intros Hw Hs Hm Hb Hy Hbe.
  destruct (fl_blocks _ _ Hm Hb) as [Hbb _]. destruct (fl_blocks _ _ Hm Hy) as [Hyb _].
  pose proof (wf_size _ Hw b Hbb) as Hsb.
  apply list_elem_of_split in Hb as (A & B & Hfl). rewrite Hfl in Hs, Hy |- *.
  apply StronglySorted_app_inv in Hs as (HsA & HsB & Hlt).
  rewrite next_of_app; [|intros HbA; assert (b < b) by (apply Hlt; set_solver); lia].
  unfold bend, HEADER_SIZE in Hbe.
  apply elem_of_app in Hy as [HyA|HyB];
    [assert (y < b) by (apply Hlt; set_solver); unfold HEADER_SIZE in *; lia|].
  inversion HsB as [|? ? HsB' Hf]; subst.
  apply elem_of_cons in HyB as [Hyb'|HyB]; [lia|].
  destruct B as [|z B]; [set_solver|]. simpl. f_equal.
  rewrite Forall_forall in Hf. assert (b < z) by (apply Hf; set_solver).
  inversion HsB' as [|? ? _ Hf']; subst. rewrite Forall_forall in Hf'.
  apply elem_of_cons in HyB as [->|HyB]; [done|].
  specialize (Hf' _ HyB).
  assert (Hzb : z ∈ blocks st) by (apply (fl_blocks st z Hm); rewrite Hfl; set_solver).
  pose proof (wf_size _ Hw z Hzb).
  destruct (wf_disjoint _ Hw b z) as [Hd|Hd]; [done|done|lia|unfold bend, HEADER_SIZE in *; lia|unfold bend, HEADER_SIZE in *; lia].
Qed.

Lemma prev_phys st b y :
  wf_blocks st -> StronglySorted Z.lt (free_list st) -> fl_mem st ->
  b ∈ free_list st -> y ∈ free_list st -> bend st y = b -> prev_of b (free_list st) = Some y.
Proof.
  intros Hw Hs Hm Hb Hy Hbe.
  destruct (fl_blocks _ _ Hm Hy) as [Hyb _].
  pose proof (wf_size _ Hw y Hyb) as Hsy.
  pose proof (StronglySorted_lt_NoDup _ Hs) as Hnd.
  apply list_elem_of_split in Hb as (A & B & Hfl). rewrite Hfl in Hs, Hy, Hnd |- *.
  rewrite prev_of_app; [|done].
  apply StronglySorted_app_inv in Hs as (HsA & HsB & Hlt).
  unfold bend, HEADER_SIZE in Hbe.
  apply elem_of_app in Hy as [HyA|HyB].
  2:{ inversion HsB as [|? ? HsB' Hf]; subst. rewrite Forall_forall in Hf.
      apply elem_of_cons in HyB as [?|HyB]; [lia|]. specialize (Hf _ HyB). lia. }
  destruct (last A) as [z|] eqn:Hz.
  2:{ apply last_None in Hz. subst. set_solver. }
  apply last_Some in Hz as [A' ->]. f_equal.
  assert (Hzl : z < b) by (apply Hlt; set_solver).
  apply elem_of_app in HyA as [HyA'|Hyz]; [|set_solver].
  apply StronglySorted_app_inv in HsA as (_ & _ & Hlt').
  specialize (Hlt' y z HyA' ltac:(set_solver)).
  assert (Hzb : z ∈ blocks st) by (apply (fl_blocks st z Hm); rewrite Hfl; set_solver).
  pose proof (wf_size _ Hw z Hzb).
  destruct (wf_disjoint _ Hw y z) as [Hd|Hd]; [done|done|lia|unfold bend, HEADER_SIZE in *; lia|unfold bend, HEADER_SIZE in *; lia].
Qed.

Lemma list_remove_comm x y l : list_remove x (list_remove y l) = list_remove y (list_remove x l).
Proof.
  induction l as [|z l IH]; simpl; [done|].
  destruct (z =? y) eqn:Ey, (z =? x) eqn:Ex; simpl; rewrite ?Ey, ?Ex; try done.
  - apply Z.eqb_eq in Ey, Ex. by subst.
  - by rewrite IH.
Qed.

Lemma free_bf_upd_keep g b st x :
  (forall h, is_free (g h) = is_free h /\ strategy (g h) = strategy h) ->
  free_bf (upd_hdr g b st) x <-> free_bf st x.
Proof.
  intros Hg. unfold free_bf. rewrite lookup_upd_hdr. case_decide; [|done]. subst.
  destruct (hdrs st !! x) as [h|]; simpl; split.
  - intros (h' & [= <-] & H1 & H2). destruct (Hg h). exists h. split; [done|]. split; congruence.
  - intros (h' & [= <-] & H1 & H2). destruct (Hg h). exists (g h). split; [done|]. split; congruence.
  - intros (? & ? & _). discriminate.
  - intros (? & ? & _). discriminate.
Qed.

Lemma tagged_upd_keep g b st x s :
  (forall h, strategy (g h) = strategy h) -> tagged (upd_hdr g b st) x s <-> tagged st x s.
Proof.
  intros Hg. unfold tagged. rewrite lookup_upd_hdr. case_decide; [|done]. subst.
  destruct (hdrs st !! x) as [h|]; simpl; split.
  - intros (h' & [= <-] & H1). exists h. rewrite <- Hg. done.
  - intros (h' & [= <-] & H1). exists (g h). rewrite Hg. done.
  - intros (? & ? & _). discriminate.
  - intros (? & ? & _). discriminate.
Qed.

Lemma wrap_small z : 0 <= z < 2 ^ 64 -> wrap z = z.
Proof. intros. unfold wrap. by apply Z.mod_small. Qed.

Lemma wrap_small' z : 0 <= z <= 2 ^ 40 -> wrap z = z.
Proof. intros. apply wrap_small. assert (2 ^ 40 < 2 ^ 64) by (vm_compute; done). lia. Qed.

Lemma free_bf_tag st x s : free_bf st x -> tagged st x s -> s = BEST_FIT.
Proof. intros (h & Hh & _ & Hs) (h' & Hh' & Hs'). congruence. Qed.

(** Absorbing the free block [q] that follows the free block [p]. *)
Lemma merge_ok s p q :
  wf_blocks s -> StronglySorted Z.lt (free_list s) -> fl_mem s ->
  p ∈ free_list s -> q ∈ free_list s -> bend s p = q ->
  let s1 := upd_hdr (fun h => with_size (wrap (size h + wrap (bsize s q + HEADER_SIZE))) h) p s in
  let s2 := set_free_list (list_remove q (free_list s1)) s1 in
  let s' := set_blocks (blocks s2 ∖ {[q]}) s2 in
  wf_blocks s' /\ StronglySorted Z.lt (free_list s') /\ fl_mem s' /\
  bend s' p = bend s q /\ (forall x, x <> p -> bsize s' x = bsize s x) /\
  free_list s' = list_remove q (free_list s) /\ blocks s' = blocks s ∖ {[q]}.
Proof.
  intros Hw Hs Hm Hp Hq Hpq s1 s2 s'.
  destruct (fl_blocks _ _ Hm Hp) as [Hpb Hpf]. destruct (fl_blocks _ _ Hm Hq) as [Hqb Hqf].
  pose proof (wf_size _ Hw p Hpb) as Hsp. pose proof (wf_size _ Hw q Hqb) as Hsq.
  destruct (free_bf_chunk _ _ Hw Hpb Hpf) as (cp & Hcp & Hcp1 & Hcp2).
  destruct (free_bf_chunk _ _ Hw Hqb Hqf) as (cq & Hcq & Hcq1 & Hcq2).
  assert (cp = cq) as <- by (eapply same_chunk; eauto).
  destruct Hpf as (hp & Hhp & Hfp & Htp).
  assert (Hne : p <> q) by (unfold bend, HEADER_SIZE in *; lia).
  set (N := bsize s p + (bsize s q + HEADER_SIZE)).
  assert (HN : wrap (size hp + wrap (bsize s q + HEADER_SIZE)) = N).
  { assert (Hbsp : bsize s p = size hp) by (unfold bsize; by rewrite Hhp).
    unfold N. rewrite <- Hbsp. assert (2 ^ 20 <= 2 ^ 40) by (vm_compute; done).
    unfold bend, POOL_SIZE, HEADER_SIZE in *.
    rewrite (wrap_small' (bsize s q + 32)) by lia. rewrite wrap_small' by lia. done. }
  assert (Hl : forall x, hdrs s' !! x = if decide (p = x) then Some (with_size N hp) else hdrs s !! x).
  { intros x. change (hdrs s') with (hdrs s1). unfold s1. rewrite lookup_upd_hdr.
    case_decide; [subst; rewrite Hhp; simpl; by rewrite HN|done]. }
  assert (Hbp : bsize s' p = N) by (unfold bsize at 1; rewrite Hl, decide_True; done).
  assert (Hbx : forall x, x <> p -> bsize s' x = bsize s x).
  { intros x Hx. unfold bsize at 1. rewrite Hl, decide_False; [done|congruence]. }
  assert (Hbl : blocks s' = blocks s ∖ {[q]}) by done.
  assert (Hfl : free_list s' = list_remove q (free_list s)) by done.
  assert (Hfree : forall x, free_bf s' x <-> free_bf s x).
  { intros x. change (free_bf s' x) with (free_bf s1 x). by apply free_bf_upd_keep. }
  assert (Htag : forall x t, tagged s' x t <-> tagged s x t).
  { intros x t. change (tagged s' x t) with (tagged s1 x t). by apply tagged_upd_keep. }
  assert (Hbe : bend s' p = bend s q).
  { unfold bend. rewrite Hbp. unfold N. rewrite <- Hpq. unfold bend. lia. }
  assert (Hqt : forall x t, tagged s x t -> t <> BEST_FIT -> x <> q /\ x <> p).
  { assert (Hpf : free_bf s p) by (exists hp; done).
    intros x t Ht Hnb. split; intros ->; apply Hnb;
      [exact (free_bf_tag s q t Hqf Ht)|exact (free_bf_tag s p t Hpf Ht)]. }
  split; [|split; [|split; [|split; [done|split; [done|split; done]]]]].
  - destruct Hw as [Hhdr Hsize Hdis Hin Hnd Hap Hbel Hsl Hseg Hss Hfs Hslab Hcache Hheap].
    split; rewrite ?Hbl.
    + intros x Hx. rewrite Hl. case_decide; [by eexists|]. apply Hhdr. set_solver.
    + intros x Hx. destruct (decide (x = p)) as [->|Hxp]; [rewrite Hbp; unfold N, HEADER_SIZE; lia|].
      rewrite Hbx; [|done]. apply Hsize. set_solver.
    + intros x y Hx Hy Hxy. unfold bend.
      assert (Hxb : x ∈ blocks s) by set_solver. assert (Hyb : y ∈ blocks s) by set_solver.
      assert (x <> q /\ y <> q) as [Hxq Hyq] by set_solver.
      destruct (decide (x = p)) as [->|Hxp]; [|destruct (decide (y = p)) as [->|Hyp]].
      * rewrite Hbp, (Hbx y); [|done]. pose proof (Hsize y Hyb).
        destruct (Hdis p y) as [Hd|Hd]; [done|done|done| |unfold bend in Hd; unfold N; lia].
        destruct (Hdis q y) as [Hd'|Hd']; [done|done|done| |];
          unfold bend, N, HEADER_SIZE in *; lia.
      * rewrite Hbp, (Hbx x); [|done]. pose proof (Hsize x Hxb).
        destruct (Hdis p x) as [Hd|Hd]; [done|done|done| |unfold bend in Hd; unfold N; lia].
        destruct (Hdis q x) as [Hd'|Hd']; [done|done|done| |];
          unfold bend, N, HEADER_SIZE in *; lia.
      * rewrite !Hbx; [|done|done]. by apply Hdis.
    + intros x h' Hx Hh'. rewrite Hl in Hh'. case_decide as Hxp.
      * subst x. injection Hh' as <-. unfold in_chunk, strat_eqb. simpl. rewrite Htp.
        rewrite bool_decide_false; [|discriminate]. exists cp. rewrite Hbe. auto.
      * apply (in_chunk_bsize s); [apply Hbx; congruence|done|done|]. apply (Hin x); [set_solver|done].
    + exact Hnd.
    + exact Hap.
    + exact Hbel.
    + exact Hsl.
    + intros i l x Hi Hx. destruct (Hseg i l x Hi Hx) as (Hxb & h & Hh & Hst & Hc).
      destruct (Hqt x SEGREGATED) as [Hxq Hxp]; [by exists h|discriminate|].
      split; [set_solver|]. exists h. rewrite Hl, decide_False; [done|congruence].
    + intros x h' Hx Hh' Hst. rewrite Hl in Hh'. case_decide as Hxp.
      * subst x. injection Hh' as <-. simpl in Hst. congruence.
      * apply (Hss x); [set_solver|done|done].
    + intros x h' Hx Hh' Hst. rewrite Hl in Hh'. case_decide as Hxp.
      * subst x. injection Hh' as <-. simpl in Hst. congruence.
      * apply (Hfs x); [set_solver|done|done].
    + intros c x Hx. destruct (Hslab c x Hx) as [Hxb Ht].
      destruct (Hqt x FIXED_SIZE) as [Hxq _]; [done|discriminate|].
      split; [set_solver|]. by apply Htag.
    + intros c x Hx. destruct (Hcache c x Hx) as [Hxb Ht].
      destruct (Hqt (x - HEADER_SIZE) FIXED_SIZE) as [Hxq _]; [done|discriminate|].
      split; [set_solver|]. by apply Htag.
    + exact Hheap.
  - rewrite Hfl. eapply StronglySorted_sublist; [apply list_remove_sublist|done].
  - intros x. rewrite Hfl, list_remove_elem, Hbl, Hfree; [|by apply StronglySorted_lt_NoDup].
    rewrite (Hm x). set_solver.
Qed.

Lemma map_ext_elem (f g : Z -> Z * Z) (l : list Z) :
  (forall x, x ∈ l -> f x = g x) -> map f l = map g l.
Proof. intros H. apply map_ext_in. intros a Ha. apply H. by apply list_elem_of_In. Qed.

Lemma list_remove_NoDup x l : NoDup l -> NoDup (list_remove x l).
Proof. intros H. eapply sublist_NoDup; [done|apply list_remove_sublist]. Qed.

Lemma coalesce_next_ok st b :
  wf_blocks st -> StronglySorted Z.lt (free_list st) -> fl_mem st -> b ∈ free_list st ->
  StronglySorted keyle (size_index st) -> idx_of st (list_remove b (free_list st)) ->
  (forall x y, x ∈ free_list st -> y ∈ free_list st -> x <> b -> y <> b -> bend st x <> y) ->
  let st' := match next_of b (free_list st) with
    | Some nxt =>
        if free_bf_b st nxt && adjacent st b nxt then
          let st := remove_from_size_index nxt st in
          let st := upd_hdr (fun h => with_size (wrap (size h + wrap (bsize st nxt + HEADER_SIZE))) h) b st in
          let st := set_free_list (list_remove nxt (free_list st)) st in
          set_blocks (blocks st ∖ {[nxt]}) st
        else st
    | None => st
    end in
  wf_blocks st' /\ StronglySorted Z.lt (free_list st') /\ fl_mem st' /\ b ∈ free_list st' /\
  StronglySorted keyle (size_index st') /\ idx_of st' (list_remove b (free_list st')) /\
  (forall x y, x ∈ free_list st' -> y ∈ free_list st' -> y <> b -> bend st' x <> y).
Proof.
  intros Hw Hs Hm Hb Hidx Hip Hna. cbv zeta.
  pose proof (StronglySorted_lt_NoDup _ Hs) as Hnd.
  assert (Hnomerge : forall y, y ∈ free_list st -> bend st b = y ->
            exists nxt, next_of b (free_list st) = Some nxt /\ free_bf_b st nxt && adjacent st b nxt = true).
  { intros y Hy Hby. exists y. split; [by apply next_phys|].
    apply andb_true_iff. split; [apply free_bf_b_spec; by apply Hm|by apply adjacent_spec]. }
  destruct (next_of b (free_list st)) as [nxt|] eqn:Hn;
    [destruct (free_bf_b st nxt && adjacent st b nxt) eqn:Hc|].
  - apply andb_true_iff in Hc as [Hc1 Hc2]. apply adjacent_spec in Hc2.
    pose proof (next_of_elem _ _ _ Hn) as Hnxt.
    set (s := remove_from_size_index nxt st).
    pose proof (merge_ok s b nxt) as M. cbv zeta in M.
    destruct M as (Hw' & Hs' & Hm' & Hbe & Hbx & Hfl' & Hbl');
      [by apply (wf_blocks_ext st)|exact Hs|exact Hm|exact Hb|exact Hnxt|exact Hc2|].
    match goal with |- context [set_blocks ?B ?S] => set (s' := set_blocks B S) in * end.
    assert (Hbpos : 0 <= bsize st b) by (apply (wf_size _ Hw); by apply Hm).
    assert (Hbn : b <> nxt) by (unfold bend, HEADER_SIZE in *; lia).
    split; [done|]. split; [done|]. split; [done|].
    split; [rewrite Hfl', list_remove_elem; done|].
    split; [apply mm_erase_sorted, Hidx|].
    split.
    + unfold idx_of in *. change (size_index s') with (mm_erase nxt (size_index st)).
      rewrite Hfl'. etrans.
      { apply (idx_erase (bsize st)); [|done]. by apply list_remove_NoDup. }
      rewrite list_remove_comm. apply Permutation_refl'. apply map_ext_elem. intros x Hx.
      rewrite list_remove_elem in Hx; [|by apply list_remove_NoDup].
      rewrite Hbx; [done|]. tauto.
    + intros x y Hx Hy Hyb. rewrite Hfl', list_remove_elem in Hx, Hy; [|done|done].
      destruct Hx as [Hx Hxn], Hy as [Hy Hyn].
      destruct (decide (x = b)) as [->|Hxb].
      * rewrite Hbe. apply Hna; auto.
      * unfold bend. rewrite Hbx; [|done]. apply Hna; auto.
  - split; [done|]. split; [done|]. split; [done|]. split; [done|]. split; [done|]. split; [done|].
    intros x y Hx Hy Hyb. destruct (decide (x = b)) as [->|Hxb]; [|by apply Hna].
    intros Hby. destruct (Hnomerge y Hy Hby) as (nxt' & Hn' & Hc'). congruence.
  - split; [done|]. split; [done|]. split; [done|]. split; [done|]. split; [done|]. split; [done|].
    intros x y Hx Hy Hyb. destruct (decide (x = b)) as [->|Hxb]; [|by apply Hna].
    intros Hby. destruct (Hnomerge y Hy Hby) as (nxt' & Hn' & Hc'). congruence.
Qed.

Lemma coalesce_prev_ok st b :
  wf_blocks st -> StronglySorted Z.lt (free_list st) -> fl_mem st -> b ∈ free_list st ->
  StronglySorted keyle (size_index st) -> idx_of st (list_remove b (free_list st)) ->
  (forall x y, x ∈ free_list st -> y ∈ free_list st -> y <> b -> bend st x <> y) ->
  wf (let '(current, st) :=
        match prev_of b (free_list st) with
        | Some prv =>
            if free_bf_b st prv && adjacent st prv b then
              let st := remove_from_size_index prv st in
              let st := upd_hdr (fun h => with_size (wrap (size h + wrap (bsize st b + HEADER_SIZE))) h) prv st in
              let st := set_free_list (list_remove b (free_list st)) st in
              (prv, set_blocks (blocks st ∖ {[b]}) st)
            else (b, st)
        | None => (b, st)
        end in
      add_to_size_index current st).
Proof.
  intros Hw Hs Hm Hb Hidx Hip Hna.
  pose proof (StronglySorted_lt_NoDup _ Hs) as Hnd.
  assert (Hnomerge : wf (add_to_size_index b st) \/
            exists prv, prev_of b (free_list st) = Some prv /\ free_bf_b st prv && adjacent st prv b = true).
  { destruct (decide (Exists (fun y => bend st y = b) (free_list st))) as [Hex|Hno];
      [apply Exists_exists in Hex as (y & Hy & Hyb)|rewrite Exists_exists in Hno].
    - right. exists y. split; [by apply prev_phys|].
      apply andb_true_iff. split; [apply free_bf_b_spec; by apply Hm|by apply adjacent_spec].
    - left. split.
      + apply (wf_blocks_ext st); try reflexivity. done.
      + done.
      + done.
      + apply mm_insert_sorted, Hidx.
      + change (size_index (add_to_size_index b st)) with (mm_insert (bsize st b) b (size_index st)).
        rewrite mm_insert_perm. unfold idx_of in Hip. rewrite Hip.
        transitivity (map (fun x => (bsize st x, x)) (b :: list_remove b (free_list st))); [done|].
        apply Permutation_map. symmetry. by apply list_remove_perm.
      + intros x y Hx Hy. destruct (decide (y = b)) as [->|Hyb]; [|by apply Hna].
        intros Hxb. apply Hno. eauto. }
  destruct (prev_of b (free_list st)) as [prv|] eqn:Hn;
    [destruct (free_bf_b st prv && adjacent st prv b) eqn:Hc|].
  - apply andb_true_iff in Hc as [Hc1 Hc2]. apply adjacent_spec in Hc2.
    pose proof (prev_of_elem _ _ _ Hn) as Hprv.
    set (s := remove_from_size_index prv st).
    pose proof (merge_ok s prv b) as M. cbv zeta in M.
    destruct M as (Hw' & Hs' & Hm' & Hbe & Hbx & Hfl' & Hbl');
      [by apply (wf_blocks_ext st)|exact Hs|exact Hm|exact Hprv|exact Hb|exact Hc2|].
    cbv beta iota zeta.
    match goal with |- context [add_to_size_index prv ?S] => set (s' := S) in * end.
    assert (Hpb : prv <> b).
    { assert (0 <= bsize st prv) by (apply (wf_size _ Hw); by apply Hm).
      unfold bend, HEADER_SIZE in *; lia. }
    assert (Hprv' : prv ∈ list_remove b (free_list st)) by (rewrite list_remove_elem; done).
    split.
    + apply (wf_blocks_ext s'); try reflexivity. done.
    + done.
    + done.
    + apply mm_insert_sorted, mm_erase_sorted, Hidx.
    + change (size_index (add_to_size_index prv s'))
        with (mm_insert (bsize s' prv) prv (mm_erase prv (size_index st))).
      change (free_list (add_to_size_index prv s')) with (free_list s').
      rewrite mm_insert_perm. etrans.
      { apply perm_skip. apply (idx_erase (bsize st)); [by apply list_remove_NoDup|done]. }
      rewrite Hfl'.
      transitivity (map (fun x => (bsize s' x, x)) (prv :: list_remove prv (list_remove b (free_list st)))).
      { simpl. apply perm_skip. apply Permutation_refl'. apply map_ext_elem. intros x Hx.
        rewrite list_remove_elem in Hx; [|by apply list_remove_NoDup]. rewrite Hbx; [done|]. tauto. }
      apply Permutation_map. symmetry. by apply list_remove_perm.
    + change (free_list (add_to_size_index prv s')) with (free_list s').
      change (bend (add_to_size_index prv s')) with (bend s').
      intros x y Hx Hy. rewrite Hfl', list_remove_elem in Hx, Hy; [|done|done].
      destruct Hx as [Hx Hxn], Hy as [Hy Hyn].
      destruct (decide (x = prv)) as [->|Hxp].
      * rewrite Hbe. apply Hna; auto.
      * unfold bend. rewrite Hbx; [|done]. apply Hna; auto.
  - cbv beta iota zeta. destruct Hnomerge as [?|(prv' & Hn' & Hc')]; [done|congruence].
  - cbv beta iota zeta. destruct Hnomerge as [?|(prv' & Hn' & Hc')]; [done|congruence].
Qed.

Lemma coalesce_wf st b :
  wf_blocks st -> StronglySorted Z.lt (free_list st) -> fl_mem st -> b ∈ free_list st ->
  StronglySorted keyle (size_index st) -> idx_of st (free_list st) ->
  (forall x y, x ∈ free_list st -> y ∈ free_list st -> x <> b -> y <> b -> bend st x <> y) ->
  wf (coalesce_neighbors b st).
Proof.
  intros Hw Hs Hm Hb Hidx Hip Hna.
  assert (His : is_bf st b = true).
  { destruct (fl_blocks _ _ Hm Hb) as [_ (h & Hh & _ & Ht)]. unfold is_bf, strat_eqb.
    rewrite Hh. by apply bool_decide_eq_true. }
  unfold coalesce_neighbors. rewrite His. change (negb true) with false. cbv iota zeta.
  pose proof (coalesce_next_ok (remove_from_size_index b st) b) as N. cbv zeta in N.
  destruct N as (Hw1 & Hs1 & Hm1 & Hb1 & Hidx1 & Hip1 & Hna1);
    [by apply (wf_blocks_ext st)|exact Hs|exact Hm|exact Hb|apply mm_erase_sorted, Hidx| |exact Hna|].
  { unfold idx_of in *. change (size_index (remove_from_size_index b st)) with (mm_erase b (size_index st)).
    apply (idx_erase (bsize st)); [by apply StronglySorted_lt_NoDup|done]. }
  apply coalesce_prev_ok; assumption.
Qed.

(** Inserting a block that is not yet in the free list. *)
Lemma wf_insert st b :
  wf_blocks st -> StronglySorted Z.lt (free_list st) ->
  (forall x, x ∈ free_list st <-> x ∈ blocks st /\ free_bf st x /\ x <> b) ->
  StronglySorted keyle (size_index st) -> idx_of st (free_list st) ->
  (forall x y, x ∈ free_list st -> y ∈ free_list st -> bend st x <> y) ->
  b ∈ blocks st -> (forall h, hdrs st !! b = Some h -> non_fixed_seg (strategy h)) ->
  wf (insert_free_block b BEST_FIT true st).
Proof.
  intros Hw Hs Hm Hidx Hip Hna Hb Hnf.
  rewrite insert_free_block_unfold. cbv zeta.
  set (s1 := upd_hdr (with_free_strat true BEST_FIT) b st).
  assert (Hbs : forall x, bsize s1 x = bsize st x) by (intros; by apply bsize_upd_hdr).
  assert (Hbn : b ∉ free_list st) by (rewrite Hm; tauto).
  pose proof (walk_app b (free_list st)) as Hwa.
  change (free_list s1) with (free_list st).
  set (fl := (walk b (free_list st)).1 ++ b :: (walk b (free_list st)).2).
  assert (Hperm : fl ≡ₚ b :: free_list st).
  { unfold fl. rewrite <- Permutation_middle. by rewrite Hwa. }
  assert (Hel : forall x, x ∈ fl <-> x = b \/ x ∈ free_list st).
  { intros x. rewrite Hperm. set_solver. }
  set (s2 := add_to_size_index b (set_free_list fl s1)).
  apply coalesce_wf.
  - apply (wf_blocks_ext s1); try reflexivity. apply wf_blocks_upd; [done| |done].
    intros h Hh. right. split; [by apply Hnf|by left].
  - apply walk_insert_sorted; done.
  - intros x. change (free_list s2) with fl. change (blocks s2) with (blocks st).
    change (free_bf s2 x) with (free_bf s1 x). rewrite Hel.
    destruct (decide (x = b)) as [->|Hxb].
    + split; [|by left]. intros _. split; [done|]. unfold s1. apply free_bf_upd_eq.
      destruct (wf_hdr _ Hw b Hb) as [h Hh]. by exists h.
    + unfold s1. rewrite free_bf_upd_ne, Hm; [|done]. naive_solver.
  - change (free_list s2) with fl. apply Hel. by left.
  - apply mm_insert_sorted, Hidx.
  - unfold idx_of in *. change (size_index s2) with (mm_insert (bsize s1 b) b (size_index st)).
    change (free_list s2) with fl. rewrite mm_insert_perm, Hip.
    transitivity (map (fun x => (bsize st x, x)) (b :: free_list st)).
    { simpl. rewrite Hbs. done. }
    etrans; [apply Permutation_map; symmetry; exact Hperm|].
    apply Permutation_refl'. apply map_ext. intros x.
    change (bsize s2 x) with (bsize s1 x). by rewrite Hbs.
  - intros x y Hx Hy Hxb Hyb. change (free_list s2) with fl in Hx, Hy.
    apply Hel in Hx as [?|Hx]; [done|]. apply Hel in Hy as [?|Hy]; [done|].
    change (bend s2 x) with (bend s1 x). unfold bend. rewrite Hbs. by apply Hna.
Qed.

Lemma wf_wf_except st b : wf st -> ~ free_bf st b -> wf_except st b.
Proof.
  intros [Hw Hs Hm Hidx Hp Hna] Hb. unfold wf_except.
  split; [done|]. split; [done|]. split; [|done].
  intros x. rewrite Hm. split; [|tauto]. intros [Hx Hf]. split; [done|]. split; [done|].
  intros ->. done.
Qed.

Lemma wf_except_wf st b : wf_except st b -> ~ free_bf st b -> wf st.
Proof.
  intros (Hw & Hs & Hm & Hidx & Hp & Hna) Hb. split; try done.
  intros x. rewrite Hm. split; [tauto|]. intros [Hx Hf]. split; [done|]. split; [done|].
  intros ->. done.
Qed.

Lemma wf_except_insert st b :
  wf_except st b -> b ∈ blocks st -> (forall h, hdrs st !! b = Some h -> non_fixed_seg (strategy h)) ->
  wf (insert_free_block b BEST_FIT true st).
Proof. intros (Hw & Hs & Hm & Hidx & Hp & Hna) Hb Hnf. by apply wf_insert. Qed.

(** Every block lies below the backing allocator's next address. *)
Lemma block_below st x :
  wf_blocks st -> x ∈ blocks st -> 0 <= x /\ bend st x <= heap_top st.
Proof.
  intros Hw Hx. destruct (wf_hdr _ Hw x Hx) as [h Hh].
  pose proof (wf_in_chunk _ Hw x h Hx Hh) as Hin. unfold in_chunk in Hin.
  destruct (strat_eqb (strategy h) FIXED_SIZE).
  - destruct Hin as (c & Hc & H1 & H2).
    destruct (wf_chunks_below _ Hw c SLAB_CHUNK_SIZE) as [H3 H4]; [|lia].
    unfold all_chunks. apply elem_of_app. right. apply list_elem_of_fmap. eauto.
  - destruct Hin as (c & Hc & H1 & H2).
    destruct (wf_chunks_below _ Hw c POOL_SIZE) as [H3 H4]; [by apply pool_chunk_all|lia].
Qed.

Lemma lookup_init x sz s st y :
  hdrs (init_block x sz s st) !! y =
  if decide (y = x) then Some (mkBlock (wrap (sz - HEADER_SIZE)) true s) else hdrs st !! y.
Proof.
  unfold init_block. simpl. case_decide; subst; [by rewrite lookup_insert_eq|by rewrite lookup_insert_ne].
Qed.

Lemma bsize_init_ne x sz s st y : y <> x -> bsize (init_block x sz s st) y = bsize st y.
Proof. intros H. unfold bsize. rewrite lookup_init, decide_False; done. Qed.

Lemma bsize_init_eq x sz s st : bsize (init_block x sz s st) x = wrap (sz - HEADER_SIZE).
Proof. unfold bsize. rewrite lookup_init, decide_True; done. Qed.

Lemma free_bf_init_ne x sz s st y : y <> x -> free_bf (init_block x sz s st) y <-> free_bf st y.
Proof. intros H. unfold free_bf. rewrite lookup_init, decide_False; done. Qed.

Lemma tagged_init_ne x sz s st y t : y <> x -> tagged (init_block x sz s st) y t <-> tagged st y t.
Proof. intros H. unfold tagged. rewrite lookup_init, decide_False; done. Qed.

(** Writing the header of a new block over bytes that no block covers. *)
Lemma init_wf_except st x sz s :
  wf st -> x ∉ blocks st ->
  (forall y, y ∈ blocks st -> x + sz <= y \/ bend st y <= x) ->
  HEADER_SIZE <= sz <= 2 ^ 40 ->
  (if strat_eqb s FIXED_SIZE
   then exists c, c ∈ slab_chunk_list st /\ c <= x /\ x + sz <= c + SLAB_CHUNK_SIZE
   else exists c, c ∈ memory_chunks st /\ c <= x /\ x + sz <= c + POOL_SIZE) ->
  (s = SEGREGATED -> sz - HEADER_SIZE ∈ SEGREGATED_CLASS_SIZES) ->
  (s = FIXED_SIZE -> sz - HEADER_SIZE ∈ fixed_block_sizes) ->
  wf_except (init_block x sz s st) x.
Proof.
  intros [Hw Hs Hm Hidx Hp Hna] Hx Hdis Hsz Hch Hseg Hfix.
  set (st' := init_block x sz s st).
  assert (Hw40 : wrap (sz - HEADER_SIZE) = sz - HEADER_SIZE).
  { apply wrap_small'. unfold HEADER_SIZE in *. lia. }
  assert (Hbx : bsize st' x = sz - HEADER_SIZE) by (unfold st'; by rewrite bsize_init_eq).
  assert (Hbe : bend st' x = x + sz) by (unfold bend; rewrite Hbx; lia).
  assert (Hbl : blocks st' = {[x]} ∪ blocks st) by done.
  assert (Hne : forall y, y ∈ blocks st -> y <> x) by (intros y Hy ->; done).
  assert (Hby : forall y, y ∈ blocks st -> bsize st' y = bsize st y).
  { intros y Hy. apply bsize_init_ne. by apply Hne. }
  assert (Hfl : forall y, y ∈ free_list st -> y ∈ blocks st) by (intros y Hy; by apply Hm).
  destruct Hw as [Hhdr Hsize Hdj Hin Hnd Hap Hbel Hsl Hsg Hss Hfs Hslab Hcache Hheap].
  split; [|split; [done|split; [|split; [done|split]]]].
  - split; rewrite ?Hbl.
    + intros y Hy. unfold st'. rewrite lookup_init. case_decide; [by eexists|]. apply Hhdr. set_solver.
    + intros y Hy. apply elem_of_union in Hy as [Hy|Hy].
      * apply elem_of_singleton in Hy as ->. rewrite Hbx. unfold HEADER_SIZE in *. lia.
      * rewrite Hby; [|done]. by apply Hsize.
    + intros y z Hy Hz Hyz. apply elem_of_union in Hy as [Hy|Hy], Hz as [Hz|Hz].
      * set_solver.
      * apply elem_of_singleton in Hy as ->. rewrite Hbe. unfold bend. rewrite Hby; [|done].
        destruct (Hdis z Hz); [left; lia|right; unfold bend in *; lia].
      * apply elem_of_singleton in Hz as ->. rewrite Hbe. unfold bend. rewrite Hby; [|done].
        destruct (Hdis y Hy); [right; lia|left; unfold bend in *; lia].
      * unfold bend. rewrite !Hby; [|done|done]. by apply Hdj.
    + intros y h Hy Hh. unfold st' in Hh. rewrite lookup_init in Hh. case_decide as Hyx.
      * subst y. injection Hh as <-. unfold in_chunk. simpl. rewrite Hbe. exact Hch.
      * apply elem_of_union in Hy as [Hy|Hy]; [set_solver|].
        apply (in_chunk_bsize st); [by apply Hby|done|done|]. by apply (Hin y).
    + exact Hnd.
    + exact Hap.
    + exact Hbel.
    + exact Hsl.
    + intros i l y Hi Hy. destruct (Hsg i l y Hi Hy) as (Hyb & h & Hh & H1 & H2).
      split; [set_solver|]. exists h. unfold st'. rewrite lookup_init, decide_False; [done|by apply Hne].
    + intros y h Hy Hh Hst. unfold st' in Hh. rewrite lookup_init in Hh. case_decide as Hyx.
      * injection Hh as <-. simpl in *. rewrite Hw40. by apply Hseg.
      * apply (Hss y); [set_solver|done|done].
    + intros y h Hy Hh Hst. unfold st' in Hh. rewrite lookup_init in Hh. case_decide as Hyx.
      * injection Hh as <-. simpl in *. rewrite Hw40. by apply Hfix.
      * apply (Hfs y); [set_solver|done|done].
    + intros c y Hy. destruct (Hslab c y Hy) as [Hyb Ht]. split; [set_solver|].
      apply tagged_init_ne; [by apply Hne|done].
    + intros c y Hy. destruct (Hcache c y Hy) as [Hyb Ht]. split; [set_solver|].
      apply tagged_init_ne; [by apply Hne|done].
    + exact Hheap.
  - intros y. change (free_list st') with (free_list st). rewrite Hbl, Hm.
    destruct (decide (y = x)) as [->|Hyx].
    + split; [intros [? _]; done|tauto].
    + unfold st'. rewrite free_bf_init_ne; [|done]. set_solver.
  - unfold idx_of. change (size_index st') with (size_index st).
    change (free_list st') with (free_list st). rewrite Hp. apply Permutation_refl'.
    apply map_ext_elem. intros y Hy. rewrite Hby; [done|by apply Hfl].
  - intros y z Hy Hz. change (free_list st') with (free_list st) in Hy, Hz.
    unfold bend. rewrite Hby; [|by apply Hfl]. by apply Hna.
Qed.

Lemma bend_hdrs st st' x : hdrs st' = hdrs st -> bend st' x = bend st x.
Proof. intros H. unfold bend. by rewrite (bsize_hdrs st st'). Qed.

Lemma free_bf_hdrs st st' x : hdrs st' = hdrs st -> free_bf st' x <-> free_bf st x.
Proof. intros H. unfold free_bf. by rewrite H. Qed.

Lemma tagged_hdrs st st' x s : hdrs st' = hdrs st -> tagged st' x s <-> tagged st x s.
Proof. intros H. unfold tagged. by rewrite H. Qed.

Lemma all_chunks_len st c n : (c, n) ∈ all_chunks st -> n = POOL_SIZE \/ n = SLAB_CHUNK_SIZE.
Proof.
  unfold all_chunks. rewrite elem_of_app, !list_elem_of_fmap.
  intros [(y & Hy & _)|(y & Hy & _)]; injection Hy; auto.
Qed.

(** Inserting a block that touches no block of the free list: no merge. *)
Lemma insert_nomerge b st h :
  hdrs st !! b = Some h -> 0 <= bsize st b -> b ∉ free_list st ->
  (forall y, y ∈ free_list st -> bend st b <> y /\ bend st y <> b) ->
  let st' := insert_free_block b BEST_FIT true st in
  hdrs st' = alter (with_free_strat true BEST_FIT) b (hdrs st) /\ blocks st' = blocks st /\
  free_list st' = (walk b (free_list st)).1 ++ b :: (walk b (free_list st)).2 /\
  size_index st' = mm_insert (bsize st b) b (mm_erase b (mm_insert (bsize st b) b (size_index st))).
Proof.
  intros Hh Hpos Hnot Hsep st'. unfold st'. rewrite insert_free_block_unfold. cbv zeta.
  set (s1 := upd_hdr (with_free_strat true BEST_FIT) b st).
  change (free_list s1) with (free_list st).
  set (fl := (walk b (free_list st)).1 ++ b :: (walk b (free_list st)).2).
  set (s2 := add_to_size_index b (set_free_list fl s1)).
  assert (Hbs : forall x, bsize s2 x = bsize st x).
  { intros x. change (bsize s2 x) with (bsize s1 x). by apply bsize_upd_hdr. }
  assert (Hel : forall y, y ∈ fl -> y = b \/ y ∈ free_list st).
  { intros y Hy. pose proof (walk_app b (free_list st)) as Hw. unfold fl in Hy.
    rewrite <- Hw. set_solver. }
  assert (Hadj : forall x y, x ∈ fl -> y ∈ fl -> (x = b \/ y = b) -> adjacent s2 x y = false).
  { intros x y Hx Hy Hxy. unfold adjacent. apply Z.eqb_neq. rewrite Hbs.
    apply Hel in Hx, Hy. fold (bend st x).
    destruct Hxy as [->| ->].
    - destruct Hy as [->|Hy]; [unfold bend, HEADER_SIZE in *; lia|]. by apply Hsep.
    - destruct Hx as [->|Hx]; [unfold bend, HEADER_SIZE in *; lia|]. by apply Hsep. }
  rewrite coalesce_no_merge.
  - split; [reflexivity|]. split; [reflexivity|]. split; [reflexivity|].
    simpl. unfold add_to_size_index, remove_from_size_index. simpl.
    change (bsize (set_size_index _ s2) b) with (bsize s2 b).
    change (bsize (set_free_list fl s1) b) with (bsize s1 b).
    rewrite Hbs. unfold s1. rewrite bsize_upd_hdr; done.
  - unfold is_bf. change (hdrs s2) with (alter (with_free_strat true BEST_FIT) b (hdrs st)).
    rewrite lookup_alter_eq, Hh. reflexivity.
  - intros y Hy. apply andb_false_intro2. change (free_list s2) with fl in Hy.
    apply Hadj; [unfold fl; set_solver|eapply next_of_elem; done|by left].
  - intros y Hy. apply andb_false_intro2. change (free_list s2) with fl in Hy.
    apply Hadj; [eapply prev_of_elem; done|unfold fl; set_solver|by right].
Qed.

(** A region obtained from the backing allocator above every other one. *)
Lemma wf_new_chunk st st' c n :
  wf st -> hdrs st' = hdrs st -> blocks st' = blocks st -> free_list st' = free_list st ->
  size_index st' = size_index st -> segregated_free_lists st' = segregated_free_lists st ->
  (forall s, slab_free (get_slab s st') = slab_free (get_slab s st)) ->
  (forall s, get_cache s st' = get_cache s st) ->
  all_chunks st' ≡ₚ (c, n) :: all_chunks st ->
  (forall x, x ∈ memory_chunks st -> x ∈ memory_chunks st') ->
  (forall x, x ∈ slab_chunk_list st -> x ∈ slab_chunk_list st') ->
  0 <= c -> heap_top st < c -> 0 < n -> heap_top st' = c + n ->
  wf st'.
Proof.
  intros [Hw Hs Hm Hidx Hp Hna] Hh Hb Hfl Hix Hsg Hsl Hca Hall Hmc Hsc Hc0 Hc Hn Ht.
  assert (Hbs : forall x, bsize st' x = bsize st x) by (intros; by apply bsize_hdrs).
  assert (Hbe : forall x, bend st' x = bend st x) by (intros; by apply bend_hdrs).
  assert (Hold : forall c' n', (c', n') ∈ all_chunks st -> c' + n' < c).
  { intros c' n' Hin. destruct (wf_chunks_below _ Hw c' n' Hin).
    destruct (all_chunks_len _ _ _ Hin) as [-> | ->]; unfold POOL_SIZE, SLAB_CHUNK_SIZE in *; lia. }
  assert (Hall' : forall c' n', (c', n') ∈ all_chunks st' <-> (c', n') = (c, n) \/ (c', n') ∈ all_chunks st).
  { intros c' n'. rewrite Hall. set_solver. }
  destruct Hw as [Hhdr Hsize Hdis Hin Hnd Hap Hbel Hsl0 Hseg Hss Hfs Hslab Hcache Hheap].
  split.
  - split; rewrite ?Hb, ?Hh, ?Hsg.
    + done.
    + intros x Hx. rewrite Hbs. by apply Hsize.
    + intros x y Hx Hy Hne. rewrite !Hbe. by apply Hdis.
    + intros x h Hx Hhx. specialize (Hin x h Hx Hhx). unfold in_chunk in *. rewrite Hbe.
      destruct (strat_eqb (strategy h) FIXED_SIZE); destruct Hin as (c' & ? & ? & ?);
        exists c'; auto.
    + rewrite Hall. simpl. constructor; [|done].
      rewrite list_elem_of_fmap. intros ([c' n'] & Hce & Hin'). simpl in Hce. subst c'.
      specialize (Hold _ _ Hin'). destruct (all_chunks_len _ _ _ Hin') as [-> | ->];
        unfold POOL_SIZE, SLAB_CHUNK_SIZE in *; lia.
    + intros c1 n1 c2 n2 H1 H2 Hne. apply Hall' in H1, H2.
      destruct H1 as [[= -> ->]|H1], H2 as [[= -> ->]|H2].
      * done.
      * specialize (Hold _ _ H2). lia.
      * specialize (Hold _ _ H1). lia.
      * by apply Hap.
    + intros c' n' Hin'. apply Hall' in Hin' as [[= -> ->]|Hin']; [lia|].
      specialize (Hold _ _ Hin'). destruct (Hbel _ _ Hin'). lia.
    + done.
    + done.
    + done.
    + done.
    + intros s x Hx. rewrite Hsl in Hx. destruct (Hslab s x Hx) as [? ?].
      split; [done|]. by apply (tagged_hdrs st).
    + intros s x Hx. rewrite Hca in Hx. destruct (Hcache s x Hx) as [? ?].
      split; [done|]. by apply (tagged_hdrs st).
    + lia.
  - by rewrite Hfl.
  - intros x. rewrite Hfl, Hb, (free_bf_hdrs st); [apply Hm|done].
  - by rewrite Hix.
  - rewrite Hix, Hfl, Hp. apply Permutation_refl'. apply map_ext. intros x. by rewrite Hbs.
  - intros x y. rewrite Hfl, Hbe. by apply Hna.
Qed.

Lemma add_new_chunk_unfold st :
  add_new_chunk st =
  let c := heap_top st + MALLOC_HEADER in
  insert_free_block c BEST_FIT true
    (init_block c POOL_SIZE BEST_FIT
       (set_memory_chunks (memory_chunks st ++ [c]) (set_heap_top (c + POOL_SIZE) st))).
Proof. reflexivity. Qed.

(** [add_new_chunk] adds one free block, the whole new chunk, and merges
    nothing. *)
Lemma add_new_chunk_ok st :
  wf st ->
  let c := heap_top st + MALLOC_HEADER in
  let s0 := set_memory_chunks (memory_chunks st ++ [c]) (set_heap_top (c + POOL_SIZE) st) in
  let st' := add_new_chunk st in
  wf st' /\ hdrs st' = <[c := chunk_header]> (hdrs st) /\ blocks st' = {[c]} ∪ blocks st /\
  c ∈ free_list st' /\ free_frame s0 st' /\ (forall x, x ∈ blocks st -> bend st x < c).
Proof.
  intros Hwf c s0 st'. pose proof (wf_heap _ (wf_base _ Hwf)) as Ht.
  assert (Hwf0 : wf s0).
  { apply (wf_new_chunk st s0 c POOL_SIZE); try done.
    1: { unfold s0, all_chunks. simpl. rewrite map_app, <- app_assoc. simpl.
         by rewrite <- Permutation_middle. }
    all: try (intros x Hx; simpl; set_solver).
    all: unfold c, MALLOC_HEADER, POOL_SIZE; lia. }
  assert (Hbelow : forall x, x ∈ blocks st -> bend st x < c).
  { intros x Hx. destruct (block_below st x) as [_ H]; [apply Hwf|done|].
    unfold c, MALLOC_HEADER. lia. }
  assert (Hbl0 : forall x, x ∈ blocks s0 -> x + HEADER_SIZE <= bend s0 x /\ bend s0 x < c).
  { intros x Hx. change (bend s0 x) with (bend st x). split; [|by apply Hbelow].
    pose proof (wf_size _ (wf_base _ Hwf) x Hx). unfold bend. lia. }
  assert (Hnot : c ∉ blocks s0).
  { intros Hx. destruct (Hbl0 c Hx). unfold HEADER_SIZE in *. lia. }
  set (s1 := init_block c POOL_SIZE BEST_FIT s0).
  assert (Hst' : st' = insert_free_block c BEST_FIT true s1) by reflexivity.
  assert (He : wf_except s1 c).
  { apply init_wf_except; [done|done| | |simpl|discriminate|discriminate].
    - intros y Hy. right. destruct (Hbl0 y Hy). lia.
    - assert (2 ^ 20 <= 2 ^ 40) by (vm_compute; done). unfold HEADER_SIZE, POOL_SIZE. lia.
    - exists c. split; [simpl; set_solver|lia]. }
  assert (Hwf' : wf st').
  { apply wf_except_insert; [done|simpl; set_solver|].
    intros h Hh. unfold s1 in Hh. rewrite lookup_init, decide_True in Hh; [|done].
    injection Hh as <-. by left. }
  assert (Hw40 : wrap (POOL_SIZE - HEADER_SIZE) = POOL_SIZE - HEADER_SIZE) by (vm_compute; done).
  destruct (insert_nomerge c s1 (mkBlock (wrap (POOL_SIZE - HEADER_SIZE)) true BEST_FIT))
    as (Hh' & Hb' & Hfl' & _).
  - unfold s1. by rewrite lookup_init, decide_True.
  - unfold s1. rewrite bsize_init_eq, Hw40. unfold POOL_SIZE, HEADER_SIZE. lia.
  - change (free_list s1) with (free_list st). intros Hc.
    destruct (Hbl0 c); [by apply (wf_fl_mem _ Hwf0)|]. unfold HEADER_SIZE in *. lia.
  - intros y Hy. change (free_list s1) with (free_list s0) in Hy.
    apply (wf_fl_mem _ Hwf0) in Hy as [Hy _]. destruct (Hbl0 y Hy).
    assert (Hyc : y <> c) by (intros Hyc; subst y; done).
    unfold s1, bend. rewrite bsize_init_eq, bsize_init_ne, Hw40 by done.
    unfold bend in *. unfold HEADER_SIZE, POOL_SIZE in *. lia.
  - split; [done|]. split.
    + rewrite Hst'. rewrite Hh'. unfold s1. exact (hdrs_init_insert c s0).
    + split; [rewrite Hst'; by rewrite Hb'|]. split; [rewrite Hst'; rewrite Hfl'; set_solver|].
      split; [|done]. rewrite Hst'. eapply free_frame_trans; [|apply insert_frame].
      unfold free_frame; repeat split.
Qed.

Lemma in_chunk_le st st' x s :
  memory_chunks st' = memory_chunks st -> slab_chunk_list st' = slab_chunk_list st ->
  bend st' x <= bend st x -> in_chunk st x s -> in_chunk st' x s.
Proof.
  intros Hm Hs Hb. unfold in_chunk. rewrite Hm, Hs.
  destruct (strat_eqb s FIXED_SIZE); intros (c & ? & ? & ?); exists c; split; [done|lia|done|lia].
Qed.

(** Shrinking a best-fit block that is not in the free list. *)
Lemma wf_shrink st b h n :
  wf st -> b ∈ blocks st -> b ∉ free_list st -> hdrs st !! b = Some h -> strategy h = BEST_FIT ->
  0 <= n <= size h -> wf (upd_hdr (with_size n) b st).
Proof.
  intros [Hw Hs Hm Hidx Hp Hna] Hb Hnf Hh Hst Hn.
  set (st' := upd_hdr (with_size n) b st).
  assert (Hl : forall x, hdrs st' !! x = if decide (b = x) then Some (with_size n h) else hdrs st !! x).
  { intros x. unfold st'. rewrite lookup_upd_hdr. case_decide; subst; [by rewrite Hh|done]. }
  assert (Hbs : forall x, x <> b -> bsize st' x = bsize st x).
  { intros x Hx. unfold bsize at 1. rewrite Hl, decide_False; [done|congruence]. }
  assert (Hbb : bsize st' b = n) by (unfold bsize at 1; rewrite Hl, decide_True; done).
  assert (Hbb0 : bsize st b = size h) by (unfold bsize; by rewrite Hh).
  assert (Hbe : forall x, bend st' x <= bend st x).
  { intros x. unfold bend. destruct (decide (x = b)) as [->|Hx]; [rewrite Hbb, Hbb0; lia|rewrite Hbs; lia]. }
  assert (Hbe' : forall x, x <> b -> bend st' x = bend st x).
  { intros x Hx. unfold bend. by rewrite Hbs. }
  assert (Htag : forall x s, tagged st' x s <-> tagged st x s).
  { intros x s. unfold st'. by apply tagged_upd_keep. }
  assert (Hfree : forall x, free_bf st' x <-> free_bf st x).
  { intros x. unfold st'. by apply free_bf_upd_keep. }
  assert (Hflb : forall x, x ∈ free_list st -> x <> b) by (intros x Hx ->; done).
  destruct Hw as [Hhdr Hsize Hdis Hin Hnd Hap Hbel Hsl Hseg Hss Hfs Hslab Hcache Hheap].
  split.
  - split; change (blocks st') with (blocks st).
    + intros x Hx. rewrite Hl. case_decide; [by eexists|by apply Hhdr].
    + intros x Hx. destruct (decide (x = b)) as [->|Hx']; [lia|]. rewrite Hbs; [by apply Hsize|done].
    + intros x y Hx Hy Hne. destruct (Hdis x y Hx Hy Hne); [left|right]; pose proof (Hbe x); pose proof (Hbe y); lia.
    + intros x h' Hx Hh'. rewrite Hl in Hh'. apply (in_chunk_le st); [done|done|apply Hbe|].
      case_decide; [subst x; injection Hh' as <-; by apply (Hin b h)|by apply (Hin x)].
    + exact Hnd.
    + exact Hap.
    + exact Hbel.
    + exact Hsl.
    + intros i l x Hi Hx. destruct (Hseg i l x Hi Hx) as (Hxb & h' & Hh' & Hst' & Hc).
      split; [done|]. exists h'. rewrite Hl, decide_False; [done|]. intros ->. congruence.
    + intros x h' Hx Hh' Hst'. rewrite Hl in Hh'. case_decide.
      * subst x. injection Hh' as <-. simpl in Hst'. congruence.
      * by apply (Hss x).
    + intros x h' Hx Hh' Hst'. rewrite Hl in Hh'. case_decide.
      * subst x. injection Hh' as <-. simpl in Hst'. congruence.
      * by apply (Hfs x).
    + intros c x Hx. destruct (Hslab c x Hx). split; [done|]. by apply Htag.
    + intros c x Hx. destruct (Hcache c x Hx). split; [done|]. by apply Htag.
    + exact Hheap.
  - done.
  - intros x. change (free_list st') with (free_list st). rewrite Hfree. apply Hm.
  - done.
  - change (size_index st') with (size_index st). change (free_list st') with (free_list st).
    rewrite Hp. apply Permutation_refl'. apply map_ext_elem. intros x Hx. rewrite Hbs; [done|by apply Hflb].
  - intros x y Hx Hy. change (free_list st') with (free_list st) in Hx, Hy.
    rewrite Hbe'; [by apply Hna|by apply Hflb].
Qed.

(** Marking a non-free pool block allocated. *)
Lemma wf_mark_alloc st b h s :
  wf st -> hdrs st !! b = Some h -> is_free h = false -> non_fixed_seg (strategy h) -> non_fixed_seg s ->
  wf (upd_hdr (with_free_strat false s) b st).
Proof.
  intros Hwf Hh Hf Hs1 Hs2. apply wf_upd; [done| |  |done].
  - intros h' Hh'. rewrite Hh in Hh'. injection Hh' as <-. right. done.
  - intros h' Hh'. rewrite Hh in Hh'. injection Hh' as <-. simpl. rewrite Hf. split; intros [? _]; discriminate.
Qed.

(** A block of the free list: a free best-fit block of at most a chunk. *)
Lemma fl_block_facts st b :
  wf st -> b ∈ free_list st ->
  exists h, hdrs st !! b = Some h /\ is_free h = true /\ strategy h = BEST_FIT /\ b ∈ blocks st /\
    bsize st b = size h /\ 0 <= size h <= POOL_SIZE - HEADER_SIZE /\
    exists c, c ∈ memory_chunks st /\ c <= b /\ bend st b <= c + POOL_SIZE.
Proof.
  intros Hwf Hb. apply (wf_fl_mem _ Hwf) in Hb as [Hb Hf].
  destruct (free_bf_chunk st b (wf_base _ Hwf) Hb Hf) as (c & Hc & H1 & H2).
  destruct Hf as (h & Hh & Hfr & Hst). pose proof (wf_size _ (wf_base _ Hwf) b Hb) as Hp.
  assert (Hbs : bsize st b = size h) by (unfold bsize; by rewrite Hh).
  exists h. do 5 (split; [done|]). split; [|eauto]. unfold bend in H2. unfold POOL_SIZE, HEADER_SIZE in *. lia.
Qed.

Lemma upd_init_comm f b r sz s st :
  r <> b -> upd_hdr f b (init_block r sz s st) = init_block r sz s (upd_hdr f b st).
Proof.
  intros Hne. unfold upd_hdr, init_block, set_hdrs, set_blocks. simpl.
  rewrite alter_insert_ne; done.
Qed.

Lemma hdrs_detach_eq b st h :
  hdrs st !! b = Some h -> hdrs (detach_free_block b st) !! b = Some (with_free false h).
Proof. intros Hh. unfold detach_free_block. rewrite lookup_upd_hdr, decide_True; [|done]. simpl. by rewrite Hh. Qed.

Lemma wrap_split size : 0 <= size <= 2 ^ 30 ->
  wrap (wrap (size + HEADER_SIZE) + MIN_SPLIT_PAYLOAD) = size + HEADER_SIZE + MIN_SPLIT_PAYLOAD.
Proof.
  intros H. assert (2 ^ 30 + 64 <= 2 ^ 40) by (vm_compute; done).
  unfold HEADER_SIZE, MIN_SPLIT_PAYLOAD. rewrite (wrap_small' (size + 32)) by lia. apply wrap_small'. lia.
Qed.

Lemma finish_take st b hb s :
  wf st -> hdrs st !! b = Some hb -> is_free hb = false -> non_fixed_seg (strategy hb) -> non_fixed_seg s ->
  let st' := stat_alloc (bsize (upd_hdr (with_free_strat false s) b st) b)
               (upd_hdr (with_free_strat false s) b st) in
  wf st' /\ hdrs st' !! b = Some (mkBlock (size hb) false s) /\
  (forall x, x <> b -> hdrs st' !! x = hdrs st !! x) /\ free_list st' = free_list st.
Proof.
  intros Hwf Hh Hf Hs1 Hs2 st'. split; [apply wf_stat_alloc; by apply (wf_mark_alloc st b hb)|].
  change (hdrs st') with (hdrs (upd_hdr (with_free_strat false s) b st)).
  split; [rewrite lookup_upd_hdr, decide_True, Hh; done|].
  split; [|done]. intros x Hx. rewrite lookup_upd_hdr, decide_False; [done|congruence].
Qed.

(** The part of [allocate_best_fit] after the choice of the block. *)
Lemma best_fit_take_ok st size block :
  wf st -> block ∈ free_list st -> 0 <= size <= bsize st block ->
  let B := bsize st block in
  let res := best_fit_take size block st in
  wf res.1 /\ res.2 = Some (block + HEADER_SIZE) /\
  (size + HEADER_SIZE + MIN_SPLIT_PAYLOAD <= B ->
     hdrs res.1 !! block = Some (mkBlock size false BEST_FIT) /\
     block + HEADER_SIZE + size ∈ free_list res.1 /\
     hdrs res.1 !! (block + HEADER_SIZE + size) = Some (mkBlock (B - size - HEADER_SIZE) true BEST_FIT)) /\
  (B < size + HEADER_SIZE + MIN_SPLIT_PAYLOAD -> hdrs res.1 !! block = Some (mkBlock B false BEST_FIT)).
Proof.
  intros Hwf Hb Hsz B res.
  destruct (fl_block_facts st block Hwf Hb) as (h & Hh & Hfr & Hst & Hbb & HB & Hsz' & c & Hc & Hc1 & Hc2).
  fold B in HB. 
  assert (Hcond : wrap (wrap (size + HEADER_SIZE) + MIN_SPLIT_PAYLOAD) = size + HEADER_SIZE + MIN_SPLIT_PAYLOAD).
  { apply wrap_split. assert (2 ^ 20 <= 2 ^ 30) by (vm_compute; done). unfold POOL_SIZE, HEADER_SIZE, MIN_SPLIT_PAYLOAD in *. lia. }
  set (s1 := detach_free_block block st).
  assert (Hwf1 : wf s1) by (by apply wf_detach).
  assert (Hh1 : hdrs s1 !! block = Some (with_free false h)) by (by apply hdrs_detach_eq).
  assert (HB1 : bsize s1 block = B) by (unfold bsize at 1; rewrite Hh1; simpl; lia).
  assert (Hnf1 : block ∉ free_list s1).
  { intros Hx. apply (wf_fl_mem _ Hwf1) in Hx as [_ (h' & Hh' & Hf' & _)]. rewrite Hh1 in Hh'.
    injection Hh' as <-. discriminate. }
  unfold res, best_fit_take. cbv zeta. fold s1.
  rewrite HB1, Hcond.
  destruct (B >=? size + HEADER_SIZE + MIN_SPLIT_PAYLOAD) eqn:E.
  - apply Z.geb_le in E.
    set (r := block + HEADER_SIZE + size).
    assert (Hrb : r <> block) by (unfold r, HEADER_SIZE; lia).
    rewrite upd_init_comm by done.
    assert (Hw40 : wrap (B - size) = B - size) by (apply wrap_small'; unfold POOL_SIZE, HEADER_SIZE in *; lia).
    rewrite Hw40.
    set (s3 := upd_hdr (with_size size) block s1).
    assert (Hwf3 : wf s3).
    { apply (wf_shrink s1 block (with_free false h)); try done. simpl. lia. }
    assert (Hh3 : hdrs s3 !! block = Some (mkBlock size false BEST_FIT)).
    { unfold s3. rewrite lookup_upd_hdr, decide_True, Hh1; [|done]. unfold with_size, with_free. simpl. by rewrite Hst. }
    assert (Hbs3 : forall x, x <> block -> bsize s3 x = bsize st x).
    { intros x Hx. transitivity (bsize s1 x).
      - unfold s3, bsize at 1. rewrite lookup_upd_hdr, decide_False; [done|congruence].
      - unfold s1, detach_free_block. rewrite bsize_upd_hdr; done. }
    assert (Hbe3 : bend s3 block = r) by (unfold bend, bsize; rewrite Hh3; done).
    assert (Hdis3 : forall y, y ∈ blocks s3 -> r + (B - size) <= y \/ bend s3 y <= r).
    { intros y Hy. destruct (decide (y = block)) as [->|Hyb]; [right; lia|].
      destruct (wf_disjoint _ (wf_base _ Hwf) block y) as [Hd|Hd]; [done|exact Hy|congruence| |].
      - left. unfold bend in Hd. unfold r, B, HEADER_SIZE in *. lia.
      - right. unfold bend in *. rewrite Hbs3; [|done]. unfold r, HEADER_SIZE in *. lia. }
    assert (Hrn : r ∉ blocks s3).
    { intros Hr. destruct (Hdis3 r Hr); [unfold HEADER_SIZE, MIN_SPLIT_PAYLOAD in *; lia|]. pose proof (wf_size _ (wf_base _ Hwf3) r Hr).
      unfold bend, HEADER_SIZE in *. lia. }
    set (s4 := init_block r (B - size) BEST_FIT s3).
    assert (Hex : wf_except s4 r).
    { apply init_wf_except; [done|done|done| |simpl|discriminate|discriminate].
      - assert (2 ^ 20 <= 2 ^ 40) by (vm_compute; done). unfold POOL_SIZE, HEADER_SIZE, MIN_SPLIT_PAYLOAD in *. lia.
      - exists c. split; [done|]. unfold bend in Hc2. unfold r, B, HEADER_SIZE in *. lia. }
    assert (Hw40' : wrap (B - size - HEADER_SIZE) = B - size - HEADER_SIZE).
    { apply wrap_small'. unfold POOL_SIZE, HEADER_SIZE, MIN_SPLIT_PAYLOAD in *. lia. }
    assert (Hh4r : hdrs s4 !! r = Some (mkBlock (B - size - HEADER_SIZE) true BEST_FIT)).
    { unfold s4. by rewrite lookup_init, decide_True, Hw40'. }
    assert (Hwf5 : wf (insert_free_block r BEST_FIT true s4)).
    { apply wf_except_insert; [done|simpl; set_solver|]. intros h' Hh'. rewrite Hh4r in Hh'.
      injection Hh' as <-. by left. }
    destruct (insert_nomerge r s4 _ Hh4r) as (Hh5 & _ & Hfl5 & _).
    + unfold bsize. rewrite Hh4r. simpl. unfold HEADER_SIZE, MIN_SPLIT_PAYLOAD in *. lia.
    + change (free_list s4) with (free_list s1). intros Hr. apply (wf_fl_mem _ Hwf1) in Hr as [Hr _].
      by apply Hrn.
    + intros y Hy. change (free_list s4) with (free_list s1) in Hy.
      assert (Hyb : y ∈ blocks s3) by (apply (wf_fl_mem _ Hwf1) in Hy; tauto).
      assert (Hyr : y <> r) by (intros ->; done).
      unfold s1, detach_free_block in Hy. simpl in Hy.
      apply list_remove_elem in Hy as [Hy Hyk]; [|apply StronglySorted_lt_NoDup, (wf_fl_sorted _ Hwf)].
      assert (Hbe4r : bend s4 r = bend st block).
      { unfold bend, bsize. rewrite Hh4r. simpl. unfold r, B, bsize in *. rewrite Hh in *. lia. }
      assert (Hbe4y : bend s4 y = bend st y).
      { unfold bend. unfold s4. rewrite bsize_init_ne, Hbs3; done. }
      rewrite Hbe4r, Hbe4y. split; [by apply (wf_nonadj _ Hwf)|].
      intros Hyr'. pose proof (wf_size _ (wf_base _ Hwf) y Hyb).
      destruct (wf_disjoint _ (wf_base _ Hwf) block y) as [Hd|Hd]; [done|exact Hyb|congruence| |];
        unfold bend, r, B, HEADER_SIZE in *; lia.
    + assert (Hh5b : hdrs (insert_free_block r BEST_FIT true s4) !! block = Some (mkBlock size false BEST_FIT)).
      { rewrite Hh5, lookup_alter_ne by congruence. unfold s4. by rewrite lookup_init, decide_False. }
      destruct (finish_take _ _ _ BEST_FIT Hwf5 Hh5b) as (Hwf7 & Hh7 & Hh7' & Hfl7); [done|by left|by left|].
      cbn [fst snd]. split; [done|]. split; [done|]. split; [|intros; lia].
      intros _. split; [done|]. split.
      * rewrite Hfl7, Hfl5. set_solver.
      * rewrite Hh7' by done. rewrite Hh5, lookup_alter_eq, Hh4r. done.
  - rewrite Z.geb_leb, Z.leb_gt in E.
    destruct (finish_take _ _ _ BEST_FIT Hwf1 Hh1) as (Hwf7 & Hh7 & _ & _); [done|unfold with_free; simpl; rewrite Hst; by left|by left|].
    cbn [fst snd]. split; [done|]. split; [done|]. split; [intros; lia|].
    intros _. rewrite Hh7. unfold with_free. simpl. by rewrite HB.
Qed.

(** [size_index.lower_bound(size)] finds the smallest free block that fits. *)
Lemma lb_some st size k b :
  wf st -> mm_lower_bound size (size_index st) = Some (k, b) ->
  b ∈ free_list st /\ k = bsize st b /\ size <= k /\
  (forall y, y ∈ free_list st -> size <= bsize st y -> k <= bsize st y).
Proof.
  intros Hwf Hl. apply mm_lower_bound_some in Hl as (Hin & Hk & Hmin).
  pose proof (wf_idx_perm _ Hwf) as Hp.
  apply (idx_elem (bsize st) _ _ _ _ Hp) in Hin as [Hb ->].
  split; [done|]. split; [done|]. split; [done|].
  intros y Hy Hsy. apply (Hmin (wf_idx_sorted _ Hwf) (bsize st y, y)); [|done].
  by apply (idx_elem (bsize st) _ (free_list st)).
Qed.

Lemma lb_none st size :
  wf st -> mm_lower_bound size (size_index st) = None ->
  forall y, y ∈ free_list st -> bsize st y < size.
Proof.
  intros Hwf Hl y Hy. apply (mm_lower_bound_none _ _ Hl (bsize st y, y)).
  by apply (idx_elem (bsize st) _ (free_list st) _ _ (wf_idx_perm _ Hwf)).
Qed.

Lemma wf_allocate_best_fit st size :
  wf st -> 0 <= size -> wf (allocate_best_fit size st).1.
Proof.
  intros Hwf Hs. unfold allocate_best_fit.
  destruct (mm_lower_bound size (size_index st)) as [[k b]|] eqn:E.
  - destruct (lb_some _ _ _ _ Hwf E) as (Hb & -> & Hk & _).
    by destruct (best_fit_take_ok st size b Hwf Hb (conj Hs Hk)).
  - destruct (add_new_chunk_ok st Hwf) as [Hwf1 _].
    destruct (mm_lower_bound size (size_index (add_new_chunk st))) as [[k b]|] eqn:E'; [|done].
    destruct (lb_some _ _ _ _ Hwf1 E') as (Hb & -> & Hk & _).
    by destruct (best_fit_take_ok _ size b Hwf1 Hb (conj Hs Hk)).
Qed.

Lemma pool_take_ok st b :
  wf st -> b ∈ free_list st ->
  wf (pool_take b st).1 /\ (pool_take b st).2 = Some (b + HEADER_SIZE).
Proof.
  intros Hwf Hb. destruct (fl_block_facts st b Hwf Hb) as (h & Hh & Hfr & Hst & _).
  unfold pool_take. cbv zeta.
  destruct (finish_take (detach_free_block b st) b (with_free false h) POOL_BASED) as [Hw _].
  - by apply wf_detach.
  - by apply hdrs_detach_eq.
  - done.
  - unfold with_free. simpl. rewrite Hst. by left.
  - by right.
  - done.
Qed.

Lemma wf_allocate_from_pool st size :
  wf st -> wf (allocate_from_pool size st).1.
Proof.
  intros Hwf. unfold allocate_from_pool.
  destruct (mm_lower_bound size (size_index st)) as [[k b]|] eqn:E.
  - destruct (lb_some _ _ _ _ Hwf E) as (Hb & _). by apply pool_take_ok.
  - destruct (add_new_chunk_ok st Hwf) as [Hwf1 _].
    destruct (mm_lower_bound size (size_index (add_new_chunk st))) as [[k b]|] eqn:E'; [|done].
    destruct (lb_some _ _ _ _ Hwf1 E') as (Hb & _). by apply pool_take_ok.
Qed.

(** Dropping from the directory a best-fit block that is not free. *)
Lemma wf_remove_block st b h :
  wf st -> b ∉ free_list st -> hdrs st !! b = Some h -> strategy h = BEST_FIT ->
  wf (set_blocks (blocks st ∖ {[b]}) st).
Proof.
  intros [Hw Hs Hm Hidx Hp Hna] Hnf Hh Hst.
  set (st' := set_blocks (blocks st ∖ {[b]}) st).
  assert (Hne : forall s x, tagged st x s -> s <> BEST_FIT -> x <> b).
  { intros s x (h' & Hh' & Hs') Hsb ->. congruence. }
  destruct Hw as [Hhdr Hsize Hdis Hin Hnd Hap Hbel Hsl Hseg Hss Hfs Hslab Hcache Hheap].
  split.
  - split; change (blocks st') with (blocks st ∖ {[b]}).
    + intros x Hx. apply Hhdr. set_solver.
    + intros x Hx. apply Hsize. set_solver.
    + intros x y Hx Hy. apply Hdis; set_solver.
    + intros x h' Hx. apply Hin. set_solver.
    + exact Hnd.
    + exact Hap.
    + exact Hbel.
    + exact Hsl.
    + intros i l x Hi Hx. destruct (Hseg i l x Hi Hx) as (Hxb & h' & Hh' & Hs' & Hc).
      split; [|eauto]. apply elem_of_difference. split; [done|].
      apply not_elem_of_singleton. apply (Hne SEGREGATED); [by exists h'|discriminate].
    + intros x h' Hx. apply Hss. set_solver.
    + intros x h' Hx. apply Hfs. set_solver.
    + intros c x Hx. destruct (Hslab c x Hx) as [Hxb Ht]. split; [|done].
      apply elem_of_difference. split; [done|].
      apply not_elem_of_singleton. apply (Hne FIXED_SIZE); [done|discriminate].
    + intros c x Hx. destruct (Hcache c x Hx) as [Hxb Ht]. split; [|done].
      apply elem_of_difference. split; [done|].
      apply not_elem_of_singleton. apply (Hne FIXED_SIZE); [done|discriminate].
    + exact Hheap.
  - done.
  - intros x. change (blocks st') with (blocks st ∖ {[b]}). change (free_list st') with (free_list st). change (free_bf st' x) with (free_bf st x). rewrite Hm.
    destruct (decide (x = b)) as [->|Hxb]; [|set_solver].
    split; [intros Hx; exfalso; apply Hnf; by apply Hm|set_solver].
  - done.
  - done.
  - done.
Qed.

(** Replacing the segregated list [i] by a list of blocks of its class. *)
Lemma wf_set_seg st i l :
  wf st -> (i < SEGREGATED_CLASS_COUNT)%nat ->
  (forall b, b ∈ l -> b ∈ blocks st /\ exists h, hdrs st !! b = Some h /\ strategy h = SEGREGATED /\
                                        SEGREGATED_CLASS_SIZES !! i = Some (size h)) ->
  wf (set_seg_list i l st).
Proof.
  intros [Hw Hs Hm Hidx Hp Hna] Hi Hl.
  destruct Hw as [Hhdr Hsize Hdis Hin Hnd Hap Hbel Hsl Hseg Hss Hfs Hslab Hcache Hheap].
  split; try done. split; try done.
  - simpl. by rewrite length_insert.
  - intros j l' b Hj Hb. simpl in Hj. destruct (decide (i = j)) as [->|Hij].
    + rewrite list_lookup_insert_eq in Hj; [|lia]. injection Hj as <-. by apply Hl.
    + rewrite list_lookup_insert_ne in Hj; [|done]. by apply (Hseg j l').
Qed.

Lemma class_size_range i cs :
  SEGREGATED_CLASS_SIZES !! i = Some cs -> 32 <= cs <= 4096 /\ cs ∈ SEGREGATED_CLASS_SIZES.
Proof.
  intros H. assert (Hin : cs ∈ SEGREGATED_CLASS_SIZES) by (eapply list_elem_of_lookup_2; eauto).
  split; [|done]. unfold SEGREGATED_CLASS_SIZES in Hin.
  repeat (apply elem_of_cons in Hin as [->|Hin]; [lia|]). by apply elem_of_nil in Hin.
Qed.

Lemma hdr_not_free_bf st x h : hdrs st !! x = Some h -> strategy h <> BEST_FIT -> ~ free_bf st x.
Proof. intros Hh Hs (h' & Hh' & _ & Hs'). congruence. Qed.

(** The partition loop of [replenish_segregated_class]: blocks of the class
    are laid out from [cursor] on, inside the chunk [c]. *)
Lemma carve_ok fuel cs i c :
  SEGREGATED_CLASS_SIZES !! i = Some cs ->
  forall cursor total head s,
  wf s -> c ∈ memory_chunks s -> c <= cursor -> 0 <= total -> cursor + total = c + POOL_SIZE ->
  (forall y, y ∈ blocks s -> bend s y <= cursor) ->
  (forall x, x ∈ head -> x ∈ blocks s /\ hdrs s !! x = Some (mkBlock cs true SEGREGATED)) ->
  match carve fuel cs cursor total head s with
  | (cursor', total', head', s') =>
      wf s' /\ c <= cursor' /\ 0 <= total' /\ cursor' + total' = c + POOL_SIZE /\
      (forall y, y ∈ blocks s' -> bend s' y <= cursor') /\
      (forall x, x ∈ head' -> x ∈ blocks s' /\ hdrs s' !! x = Some (mkBlock cs true SEGREGATED)) /\
      memory_chunks s' = memory_chunks s /\ segregated_free_lists s' = segregated_free_lists s
  end.
Proof.
  intros Hcs. destruct (class_size_range _ _ Hcs) as [Hr Hin].
  assert (Hw : wrap (cs + HEADER_SIZE) = cs + HEADER_SIZE) by (apply wrap_small'; unfold HEADER_SIZE; lia).
  induction fuel as [|fuel IH]; intros cursor total head s Hwf Hc Hc1 Ht Hsum Hbl Hhd; simpl.
  { do 7 (split; [auto|]); auto. }
  rewrite Hw. destruct (total >=? cs + HEADER_SIZE) eqn:E; [|do 7 (split; [auto|]); auto].
  apply Z.geb_le in E.
  assert (Hnot : cursor ∉ blocks s).
  { intros Hx. pose proof (Hbl _ Hx). pose proof (wf_size _ (wf_base _ Hwf) _ Hx).
    unfold bend, HEADER_SIZE in *. lia. }
  set (s' := init_block cursor (cs + HEADER_SIZE) SEGREGATED s).
  assert (Hh' : hdrs s' !! cursor = Some (mkBlock cs true SEGREGATED)).
  { unfold s'. rewrite lookup_init, decide_True; [|done]. do 2 f_equal. replace (cs + HEADER_SIZE - HEADER_SIZE) with cs by lia. apply wrap_small'. lia. }
  assert (Hwf' : wf s').
  { apply (wf_except_wf _ cursor); [apply init_wf_except|].
    - done.
    - done.
    - intros y Hy. right. by apply Hbl.
    - assert (2 ^ 13 <= 2 ^ 40) by (vm_compute; done). unfold HEADER_SIZE. lia.
    - simpl. exists c. split; [done|lia].
    - intros _. replace (cs + HEADER_SIZE - HEADER_SIZE) with cs by lia. done.
    - discriminate.
    - apply (hdr_not_free_bf _ _ _ Hh'). discriminate. }
  rewrite wrap_small'.
  2:{ assert (2 ^ 20 <= 2 ^ 40) by (vm_compute; done). unfold POOL_SIZE, HEADER_SIZE in *. lia. }
  pose proof (IH (cursor + (cs + HEADER_SIZE)) (total - (cs + HEADER_SIZE)) (cursor :: head) s') as IH'.
  destruct (carve fuel cs (cursor + (cs + HEADER_SIZE)) (total - (cs + HEADER_SIZE)) (cursor :: head) s')
    as [[[cu to] he] sf].
  destruct IH' as (H1 & H2 & H3 & H4 & H5 & H6 & H7 & H8).
  - done.
  - done.
  - unfold HEADER_SIZE in *; lia.
  - unfold HEADER_SIZE in *; lia.
  - unfold HEADER_SIZE in *; lia.
  - intros y Hy. apply elem_of_union in Hy as [Hy|Hy].
    + apply elem_of_singleton in Hy as ->. unfold bend, bsize. rewrite Hh'. simpl. lia.
    + assert (y <> cursor) by (intros ->; done). unfold s', bend. rewrite bsize_init_ne by done.
      pose proof (Hbl y Hy). unfold bend, HEADER_SIZE in *. lia.
  - intros x Hx. apply elem_of_cons in Hx as [->|Hx]; [split; [simpl; set_solver|done]|].
    destruct (Hhd x Hx) as [Hxb Hxh]. assert (x <> cursor) by (intros ->; done).
    split; [simpl; set_solver|]. unfold s'. by rewrite lookup_init, decide_False.
  - do 7 (split; [auto|]); auto.
Qed.

Lemma class_lookup i : (i < SEGREGATED_CLASS_COUNT)%nat ->
  SEGREGATED_CLASS_SIZES !! i = Some (nth i SEGREGATED_CLASS_SIZES 0).
Proof. unfold SEGREGATED_CLASS_COUNT. intros H. do 8 (destruct i as [|i]; [reflexivity|]). lia. Qed.

Lemma seg_list_mem st i b :
  wf st -> b ∈ seg_list st i ->
  b ∈ blocks st /\ exists h, hdrs st !! b = Some h /\ strategy h = SEGREGATED /\
                             SEGREGATED_CLASS_SIZES !! i = Some (size h).
Proof.
  intros Hwf Hb. unfold seg_list in Hb.
  destruct (segregated_free_lists st !! i) as [l|] eqn:E; [|by apply elem_of_nil in Hb].
  by apply (wf_seg _ (wf_base _ Hwf) i l).
Qed.

Lemma last_snoc_Z (l : list Z) x : last (l ++ [x]) = Some x.
Proof. apply last_snoc. Qed.

Lemma hdrs_set_blocks v p : hdrs (set_blocks v p) = hdrs p.
Proof. reflexivity. Qed.

Lemma blocks_set_blocks v p : blocks (set_blocks v p) = v.
Proof. reflexivity. Qed.

Lemma memory_chunks_set_blocks v p : memory_chunks (set_blocks v p) = memory_chunks p.
Proof. reflexivity. Qed.

Lemma blocks_detach b p : blocks (detach_free_block b p) = blocks p.
Proof. reflexivity. Qed.

Lemma memory_chunks_detach b p : memory_chunks (detach_free_block b p) = memory_chunks p.
Proof. reflexivity. Qed.

Lemma wf_replenish st i : wf st -> wf (replenish_segregated_class i st).
Proof.
  intros Hwf. unfold replenish_segregated_class.
  destruct (SEGREGATED_CLASS_COUNT <=? i)%nat eqn:Ei; [done|]. apply Nat.leb_gt in Ei.
  destruct (add_new_chunk_ok st Hwf) as (Hwf1 & Hh1 & Hb1 & Hc1 & Hfr1 & Hbel1).
  set (c := heap_top st + MALLOC_HEADER) in *.
  set (s1 := add_new_chunk st) in *.
  assert (Hmc1 : memory_chunks s1 = memory_chunks st ++ [c]) by (unfold free_frame in Hfr1; destruct_and!; done).
  rewrite Hmc1, last_snoc_Z. change (default 0 (Some c)) with c. cbv zeta.
  set (s2 := detach_free_block c s1).
  assert (Hwf2 : wf s2) by (by apply wf_detach).
  assert (Hh2 : hdrs s2 !! c = Some (with_free false chunk_header)).
  { apply hdrs_detach_eq. rewrite Hh1. by rewrite lookup_insert_eq. }
  assert (Hnf2 : c ∉ free_list s2).
  { intros Hx. apply (wf_fl_mem _ Hwf2) in Hx as [_ (h' & Hh' & Hf' & _)]. rewrite Hh2 in Hh'. injection Hh' as <-. discriminate. }
  set (s3 := set_blocks (blocks s2 ∖ {[c]}) s2).
  assert (Hwf3 : wf s3) by (by apply (wf_remove_block s2 c (with_free false chunk_header))).
  assert (Hh3 : hdrs s3 = hdrs s2) by (unfold s3; apply hdrs_set_blocks).
  assert (Hb3 : blocks s3 = blocks s1 ∖ {[c]}) by (unfold s3, s2; rewrite blocks_set_blocks; f_equal; apply blocks_detach).
  assert (Hbs3 : bsize s3 c = POOL_SIZE - HEADER_SIZE) by (unfold bsize; rewrite Hh3, Hh2; reflexivity).
  rewrite Hbs3. change (POOL_SIZE - HEADER_SIZE >? SIZE_MAX - HEADER_SIZE) with false. cbv iota.
  change (wrap (POOL_SIZE - HEADER_SIZE + HEADER_SIZE)) with POOL_SIZE.
  pose proof (class_lookup i Ei) as Hcs.
  set (cs := nth i SEGREGATED_CLASS_SIZES 0) in *.
  set (fuel := S (Z.to_nat (POOL_SIZE / (cs + HEADER_SIZE)))).
  assert (Hblk3 : forall y, y ∈ blocks s3 -> bend s3 y <= c).
  { intros y Hy. rewrite Hb3 in Hy. rewrite Hb1 in Hy.
    assert (Hy' : y ∈ blocks st /\ y <> c) by set_solver. destruct Hy' as [Hy' Hyc].
    transitivity (bend st y); [|pose proof (Hbel1 y Hy'); lia].
    unfold bend, bsize. rewrite Hh3.
    unfold s2, detach_free_block. rewrite lookup_upd_hdr, decide_False by congruence.
    simpl. rewrite Hh1, lookup_insert_ne by congruence. lia. }
  pose proof (carve_ok fuel cs i c Hcs c POOL_SIZE [] s3) as Hcv.
  destruct (carve fuel cs c POOL_SIZE [] s3) as [[[cu to] he] s4].
  destruct Hcv as (Hwf4 & Hcu & Hto & Hsum & Hbl4 & Hhe & Hmc4 & Hsg4);
    [done|unfold s3, s2; rewrite memory_chunks_set_blocks, memory_chunks_detach, Hmc1; set_solver|lia|unfold POOL_SIZE; lia|lia|done|set_solver|].
  set (s5 := match he with [] => s4 | _ => set_seg_list i (he ++ seg_list s4 i) s4 end).
  assert (Hs5 : wf s5 /\ hdrs s5 = hdrs s4 /\ blocks s5 = blocks s4 /\ memory_chunks s5 = memory_chunks s4).
  { unfold s5. destruct he as [|x he]; [done|]. split; [|done].
    apply wf_set_seg; [done|done|]. intros b Hb. apply elem_of_app in Hb as [Hb|Hb].
    - destruct (Hhe b Hb) as [Hbb Hbh]. split; [done|]. eexists. split; [exact Hbh|]. by split.
    - by apply seg_list_mem. }
  destruct Hs5 as (Hwf5 & Hh5 & Hb5 & Hmc5).
  destruct (to >? HEADER_SIZE) eqn:Et; [|done]. apply Z.gtb_lt in Et.
  assert (Hnot : cu ∉ blocks s5).
  { rewrite Hb5. intros Hx. pose proof (Hbl4 _ Hx). pose proof (wf_size _ (wf_base _ Hwf4) _ Hx).
    unfold bend, HEADER_SIZE in *. lia. }
  apply wf_except_insert.
  - apply init_wf_except; [done|done| | |simpl|discriminate|discriminate].
    + intros y Hy. right. rewrite (bend_hdrs s4 s5) by done. rewrite Hb5 in Hy. by apply Hbl4.
    + assert (2 ^ 20 <= 2 ^ 40) by (vm_compute; done). unfold POOL_SIZE, HEADER_SIZE in *. lia.
    + exists c. split; [|lia]. rewrite Hmc5, Hmc4. simpl. rewrite Hmc1. set_solver.
  - simpl. set_solver.
  - intros h. rewrite lookup_init, decide_True by done. intros [= <-]. by left.
Qed.

Lemma select_class_from_le i classes size :
  (select_class_from i classes size <= i + length classes)%nat.
Proof.
  revert i. induction classes as [|c cs IH]; intros i; simpl; [lia|].
  destruct (size <=? c); [lia|]. specialize (IH (S i)). lia.
Qed.

Lemma select_class_lt size :
  select_segregated_class size <> SEGREGATED_CLASS_COUNT ->
  (select_segregated_class size < SEGREGATED_CLASS_COUNT)%nat.
Proof.
  intros H. pose proof (select_class_from_le 0 SEGREGATED_CLASS_SIZES size).
  unfold select_segregated_class, SEGREGATED_CLASS_COUNT in *. simpl in *. lia.
Qed.

(** Handing out the head of a segregated list. *)
Lemma wf_seg_pop st i b rest :
  wf st -> (i < SEGREGATED_CLASS_COUNT)%nat -> seg_list st i = b :: rest ->
  let st1 := set_seg_list i rest st in
  let st2 := upd_hdr (with_free_strat false SEGREGATED) b st1 in
  wf (stat_alloc (bsize st2 b) st2).
Proof.
  intros Hwf Hi Hl st1 st2. apply wf_stat_alloc.
  destruct (seg_list_mem st i b Hwf) as (Hb & h & Hh & Hs & Hc); [rewrite Hl; set_solver|].
  assert (Hwf1 : wf st1).
  { apply wf_set_seg; [done|done|]. intros x Hx. apply (seg_list_mem st i x Hwf). rewrite Hl. set_solver. }
  apply wf_upd; [done| | |done].
  - intros h' Hh'. change (hdrs st1) with (hdrs st) in Hh'. rewrite Hh in Hh'. injection Hh' as <-.
    left. simpl. by rewrite Hs.
  - intros h' Hh'. change (hdrs st1) with (hdrs st) in Hh'. rewrite Hh in Hh'. injection Hh' as <-.
    simpl. rewrite Hs. split; intros [_ ?]; discriminate.
Qed.

Lemma wf_allocate_segregated st size :
  wf st -> 0 <= size -> wf (allocate_segregated size st).1.
Proof.
  intros Hwf Hs. unfold allocate_segregated.
  destruct (select_segregated_class size =? SEGREGATED_CLASS_COUNT)%nat eqn:E;
    [by apply wf_allocate_best_fit|].
  apply Nat.eqb_neq, select_class_lt in E.
  set (st1 := match seg_list st (select_segregated_class size) with
              | [] => replenish_segregated_class (select_segregated_class size) st
              | _ => st end).
  assert (Hwf1 : wf st1) by (unfold st1; case_match; [by apply wf_replenish|done]).
  destruct (seg_list st1 (select_segregated_class size)) as [|b rest] eqn:El;
    [by apply wf_allocate_best_fit|].
  by apply wf_seg_pop.
Qed.



(** Changing the side lists (slab free lists, magazines, segregated lists)
    to lists of blocks of the right kind. *)
Lemma wf_lists st st' :
  wf st -> hdrs st' = hdrs st -> blocks st' = blocks st -> heap_top st' = heap_top st ->
  memory_chunks st' = memory_chunks st -> slab_chunk_list st' = slab_chunk_list st ->
  free_list st' = free_list st -> size_index st' = size_index st ->
  length (segregated_free_lists st') = SEGREGATED_CLASS_COUNT ->
  (forall i l b, segregated_free_lists st' !! i = Some l -> b ∈ l ->
     b ∈ blocks st /\ exists h, hdrs st !! b = Some h /\ strategy h = SEGREGATED /\
                               SEGREGATED_CLASS_SIZES !! i = Some (size h)) ->
  (forall c b, b ∈ slab_free (get_slab c st') -> b ∈ blocks st /\ tagged st b FIXED_SIZE) ->
  (forall c p, p ∈ get_cache c st' ->
     (p - HEADER_SIZE) ∈ blocks st /\ tagged st (p - HEADER_SIZE) FIXED_SIZE) ->
  wf st'.
Proof.
  intros [Hw Hs Hm Hidx Hp Hna] Hh Hb Ht Hmc Hsc Hfl Hsi Hsl Hsg Hslab Hcache.
  assert (Hbs : forall x, bsize st' x = bsize st x) by (intros; by apply bsize_hdrs).
  assert (Hbe : forall x, bend st' x = bend st x) by (intros; by apply bend_hdrs).
  assert (Hall : all_chunks st' = all_chunks st) by (unfold all_chunks; by rewrite Hmc, Hsc).
  destruct Hw as [Hhdr Hsize Hdis Hin Hnd Hap Hbel Hsl0 Hseg Hss Hfs Hslab0 Hcache0 Hheap].
  split.
  - split; rewrite ?Hb, ?Hh, ?Hall, ?Ht.
    + done.
    + intros x Hx. rewrite Hbs. by apply Hsize.
    + intros x y Hx Hy Hne. rewrite !Hbe. by apply Hdis.
    + intros x h Hx Hhx. apply (in_chunk_bsize st); [apply Hbs|done|done|]. by apply (Hin x).
    + done.
    + done.
    + done.
    + done.
    + intros i l b Hi Hl. by apply (Hsg i l b).
    + done.
    + done.
    + intros c b Hx. destruct (Hslab c b Hx). split; [done|]. by apply (tagged_hdrs st).
    + intros c p Hx. destruct (Hcache c p Hx). split; [done|]. by apply (tagged_hdrs st).
    + done.
  - by rewrite Hfl.
  - intros x. rewrite Hfl, Hb, (free_bf_hdrs st); [apply Hm|done].
  - by rewrite Hsi.
  - rewrite Hsi, Hfl, Hp. apply Permutation_refl'. apply map_ext. intros x. by rewrite Hbs.
  - intros x y. rewrite Hfl, Hbe. by apply Hna.
Qed.

Lemma get_slab_set_slab c c' s st :
  get_slab c' (set_slab c s st) = if decide (c = c') then s else get_slab c' st.
Proof. destruct c, c'; reflexivity. Qed.

Lemma get_cache_set_cache c c' l st :
  get_cache c' (set_cache c l st) = if decide (c = c') then l else get_cache c' st.
Proof. destruct c, c'; reflexivity. Qed.

Lemma slab_chunk_list_set_slab c s st :
  slab_chunks s = slab_chunks (get_slab c st) -> slab_chunk_list (set_slab c s st) = slab_chunk_list st.
Proof. destruct c; unfold slab_chunk_list; simpl; intros ->; reflexivity. Qed.

Lemma wf_set_slab_free c l st :
  wf st -> (forall b, b ∈ l -> b ∈ blocks st /\ tagged st b FIXED_SIZE) -> wf (set_slab_free c l st).
Proof.
  intros Hwf Hl.
  assert (Hsg : segregated_free_lists (set_slab_free c l st) = segregated_free_lists st) by (destruct c; reflexivity).
  apply (wf_lists st); try (destruct c; reflexivity); try done; rewrite ?Hsg.
  - apply (wf_seg_len _ (wf_base _ Hwf)).
  - apply (wf_seg _ (wf_base _ Hwf)).
  - intros c' b. unfold set_slab_free. rewrite get_slab_set_slab. case_decide; simpl; [apply Hl|].
    apply (wf_slab _ (wf_base _ Hwf)).
  - intros c' p. replace (get_cache c' (set_slab_free c l st)) with (get_cache c' st) by (destruct c; reflexivity).
    apply (wf_cache _ (wf_base _ Hwf)).
Qed.

Lemma wf_set_cache c l st :
  wf st -> (forall p, p ∈ l -> (p - HEADER_SIZE) ∈ blocks st /\ tagged st (p - HEADER_SIZE) FIXED_SIZE) ->
  wf (set_cache c l st).
Proof.
  intros Hwf Hl.
  assert (Hsg : segregated_free_lists (set_cache c l st) = segregated_free_lists st) by (destruct c; reflexivity).
  apply (wf_lists st); try (destruct c; reflexivity); try done; rewrite ?Hsg.
  - apply (wf_seg_len _ (wf_base _ Hwf)).
  - apply (wf_seg _ (wf_base _ Hwf)).
  - intros c' b. replace (get_slab c' (set_cache c l st)) with (get_slab c' st) by (destruct c; reflexivity).
    apply (wf_slab _ (wf_base _ Hwf)).
  - intros c' p. rewrite get_cache_set_cache. case_decide; [apply Hl|].
    apply (wf_cache _ (wf_base _ Hwf)).
Qed.

Lemma init_set_slab p sz s c X st :
  init_block p sz s (set_slab c X st) = set_slab c X (init_block p sz s st).
Proof. destruct c; reflexivity. Qed.

Lemma slab_fill_set_slab n ch str c X : forall i fr s,
  slab_fill n ch str i fr (set_slab c X s) =
  ((slab_fill n ch str i fr s).1, set_slab c X (slab_fill n ch str i fr s).2).
Proof.
  induction n as [|n IH]; intros i fr s; simpl; [done|].
  rewrite init_set_slab. apply IH.
Qed.

Lemma slab_add_new_chunk_unfold c st :
  slab_add_new_chunk c st =
  let ch := heap_top st + MALLOC_HEADER in
  let str := slab_block_size c + HEADER_SIZE in
  let sl := get_slab c st in
  let sv := set_slab c (mkSlab (slab_chunks sl ++ [ch]) (slab_free sl))
              (set_heap_top (ch + SLAB_CHUNK_SIZE) st) in
  let r := slab_fill (Z.to_nat (SLAB_CHUNK_SIZE / str)) ch str 0 (slab_free sl) sv in
  set_slab_free c r.1 r.2.
Proof.
  cbv zeta. rewrite slab_fill_set_slab. unfold slab_add_new_chunk, obtain_chunk.
  replace (get_slab c (set_heap_top (heap_top st + MALLOC_HEADER + SLAB_CHUNK_SIZE) st)) with (get_slab c st)
    by (destruct c; reflexivity).
  destruct (slab_fill _ _ _ _ _ (set_heap_top _ st)) as [fr s']. simpl.
  destruct c; reflexivity.
Qed.

Lemma slab_chunk_list_init p sz s st : slab_chunk_list (init_block p sz s st) = slab_chunk_list st.
Proof. reflexivity. Qed.

(** The loop of the slab chunk refill lays out blocks of [str] bytes from
    [ch + i * str] on. *)
Lemma slab_fill_ok n ch str : forall i fr t,
  wf t -> ch ∈ slab_chunk_list t -> HEADER_SIZE <= str <= SLAB_CHUNK_SIZE ->
  str - HEADER_SIZE ∈ fixed_block_sizes -> 0 <= i ->
  (i + Z.of_nat n) * str <= SLAB_CHUNK_SIZE ->
  (forall y, y ∈ blocks t -> bend t y <= ch + i * str) ->
  (forall b, b ∈ fr -> b ∈ blocks t /\ tagged t b FIXED_SIZE) ->
  let r := slab_fill n ch str i fr t in
  wf r.2 /\ (forall b, b ∈ r.1 -> b ∈ blocks r.2 /\ tagged r.2 b FIXED_SIZE).
Proof.
  induction n as [|n IH]; intros i fr t Hwf Hch Hstr Hfix Hi Hn Hbl Hfr; [done|].
  cbn [slab_fill]. cbv zeta.
  set (p := ch + i * str). set (t' := init_block p str FIXED_SIZE t).
  assert (Hsz : forall y, y ∈ blocks t -> y + HEADER_SIZE <= bend t y).
  { intros y Hy. pose proof (wf_size _ (wf_base _ Hwf) y Hy). unfold bend. lia. }
  assert (Hnot : p ∉ blocks t).
  { intros Hp. pose proof (Hbl p Hp). pose proof (Hsz p Hp). unfold p, HEADER_SIZE in *. lia. }
  assert (Hw40 : wrap (str - HEADER_SIZE) = str - HEADER_SIZE).
  { apply wrap_small'. assert (2 ^ 16 <= 2 ^ 40) by (vm_compute; done).
    unfold SLAB_CHUNK_SIZE, HEADER_SIZE in *. lia. }
  assert (Hhp : hdrs t' !! p = Some (mkBlock (str - HEADER_SIZE) true FIXED_SIZE)).
  { unfold t'. rewrite lookup_init, decide_True by done. by rewrite Hw40. }
  assert (Hwf' : wf t').
  { apply (wf_except_wf _ p); [apply init_wf_except|].
    - done.
    - done.
    - intros y Hy. right. by apply Hbl.
    - assert (2 ^ 16 <= 2 ^ 40) by (vm_compute; done). unfold SLAB_CHUNK_SIZE in *. lia.
    - simpl. exists ch. split; [done|]. split; [unfold p, HEADER_SIZE in *; nia|].
      unfold p, HEADER_SIZE in *. rewrite Nat2Z.inj_succ in Hn. nia.
    - discriminate.
    - intros _. done.
    - by apply (hdr_not_free_bf _ _ _ Hhp). }
  apply IH; [done|done|done|done|lia| | |].
  - rewrite Nat2Z.inj_succ in Hn. lia.
  - intros y Hy. change (blocks t') with ({[p]} ∪ blocks t) in Hy.
    apply elem_of_union in Hy as [Hy|Hy].
    + apply elem_of_singleton in Hy as ->. unfold bend, t'. rewrite bsize_init_eq, Hw40.
      unfold p. lia.
    + assert (y <> p) by (intros ->; done).
      unfold bend, t'. rewrite bsize_init_ne by done. pose proof (Hbl y Hy). unfold bend, HEADER_SIZE in *. nia.
  - intros b Hb. apply elem_of_cons in Hb as [->|Hb].
    + split; [unfold t'; simpl; set_solver|]. by exists (mkBlock (str - HEADER_SIZE) true FIXED_SIZE).
    + destruct (Hfr b Hb) as [Hb1 Hb2]. split; [unfold t'; simpl; set_solver|].
      unfold t'. apply tagged_init_ne; [intros ->; done|done].
Qed.

Lemma slab_block_size_fixed c : slab_block_size c ∈ fixed_block_sizes.
Proof. destruct c; simpl; set_solver. Qed.

(** [FixedSizeAllocator<B>::add_new_chunk] keeps the invariant. *)
Lemma wf_slab_add_new_chunk c st : wf st -> wf (slab_add_new_chunk c st).
Proof.
  intros Hwf. rewrite slab_add_new_chunk_unfold. cbv zeta.
  set (ch := heap_top st + MALLOC_HEADER). set (str := slab_block_size c + HEADER_SIZE).
  set (sl := get_slab c st).
  set (sv := set_slab c (mkSlab (slab_chunks sl ++ [ch]) (slab_free sl)) (set_heap_top (ch + SLAB_CHUNK_SIZE) st)).
  pose proof (wf_heap _ (wf_base _ Hwf)) as Ht.
  assert (Hstr : str - HEADER_SIZE ∈ fixed_block_sizes).
  { unfold str. replace (slab_block_size c + HEADER_SIZE - HEADER_SIZE) with (slab_block_size c) by lia.
    apply slab_block_size_fixed. }
  assert (Hstr' : 32 <= str <= 288).
  { unfold str, HEADER_SIZE. destruct c; simpl; lia. }
  assert (Hscl : slab_chunk_list sv ≡ₚ ch :: slab_chunk_list st).
  { unfold sv, sl, slab_chunk_list. destruct c; simpl; solve_Permutation. }
  assert (Hsv : wf sv).
  { apply (wf_new_chunk st sv ch SLAB_CHUNK_SIZE); try (destruct c; reflexivity); try done.
    - intros s. unfold sv. rewrite get_slab_set_slab. case_decide; [subst; done|]. by destruct c.
    - unfold all_chunks. replace (memory_chunks sv) with (memory_chunks st) by (by destruct c).
      rewrite Hscl. simpl. by rewrite <- Permutation_middle.
    - intros x Hx. by destruct c.
    - intros x Hx. rewrite Hscl. set_solver.
    - unfold ch, MALLOC_HEADER. lia.
    - unfold ch, MALLOC_HEADER. lia. }
  destruct (slab_fill_ok (Z.to_nat (SLAB_CHUNK_SIZE / str)) ch str 0 (slab_free sl) sv) as [Hw1 Hf1].
  - done.
  - rewrite Hscl. set_solver.
  - unfold SLAB_CHUNK_SIZE, HEADER_SIZE in *. lia.
  - done.
  - lia.
  - rewrite Z2Nat.id by (apply Z.div_pos; unfold SLAB_CHUNK_SIZE; lia).
    rewrite Z.add_0_l, Z.mul_comm. apply Z.mul_div_le. lia.
  - intros y Hy. replace (blocks sv) with (blocks st) in Hy by (by destruct c).
    destruct (block_below st y) as [_ H]; [apply Hwf|done|].
    replace (bend sv y) with (bend st y) by (apply bend_hdrs; by destruct c).
    unfold ch, MALLOC_HEADER. lia.
  - intros b Hb. destruct (wf_slab _ (wf_base _ Hsv) c b) as [H1 H2]; [|done].
    unfold sv. rewrite get_slab_set_slab, decide_True by done. done.
  - by apply wf_set_slab_free.
Qed.

Lemma hdrs_set_slab_free c l st : hdrs (set_slab_free c l st) = hdrs st.
Proof. by destruct c. Qed.

Lemma blocks_set_slab_free c l st : blocks (set_slab_free c l st) = blocks st.
Proof. by destruct c. Qed.

Lemma blocks_set_cache c l st : blocks (set_cache c l st) = blocks st.
Proof. by destruct c. Qed.

(** Header updates of a slab block that keep it a slab block. *)
Lemma wf_upd_fixed g b st :
  wf st -> tagged st b FIXED_SIZE -> (forall h, size (g h) = size h) ->
  (forall h, strategy h = FIXED_SIZE -> strategy (g h) = FIXED_SIZE) -> wf (upd_hdr g b st).
Proof.
  intros Hwf (h0 & Hh0 & Hs0) Hsz Hs. apply wf_upd; [done| | |done].
  - intros h Hh. rewrite Hh0 in Hh. injection Hh as <-. left. rewrite Hs0. by apply Hs.
  - intros h Hh. rewrite Hh0 in Hh. injection Hh as <-. rewrite (Hs h0 Hs0), Hs0.
    split; intros [_ ?]; discriminate.
Qed.

Lemma tagged_upd_fixed g b st x :
  (forall h, strategy h = FIXED_SIZE -> strategy (g h) = FIXED_SIZE) ->
  tagged st x FIXED_SIZE -> tagged (upd_hdr g b st) x FIXED_SIZE.
Proof.
  intros Hs (h & Hh & Hst). unfold tagged. rewrite lookup_upd_hdr. case_decide; [|eauto].
  subst. rewrite Hh. exists (g h). split; [done|]. by apply Hs.
Qed.

Lemma slab_pop_ok c st b rest :
  wf st -> slab_free (get_slab c st) = b :: rest ->
  wf (set_slab_free c rest st) /\ b ∈ blocks st /\ tagged st b FIXED_SIZE.
Proof.
  intros Hwf Hl. pose proof (wf_slab _ (wf_base _ Hwf) c) as Hs. rewrite Hl in Hs.
  split; [|apply Hs; set_solver]. apply wf_set_slab_free; [done|]. intros x Hx. apply Hs. set_solver.
Qed.

Lemma wf_slab_allocate c st : wf st -> wf (slab_allocate c st).1.
Proof.
  intros Hwf. unfold slab_allocate.
  set (st1 := match slab_free (get_slab c st) with [] => slab_add_new_chunk c st | _ => st end).
  assert (Hwf1 : wf st1) by (unfold st1; case_match; [by apply wf_slab_add_new_chunk|done]).
  destruct (slab_free (get_slab c st1)) as [|b rest] eqn:E; [done|]. simpl.
  destruct (slab_pop_ok c st1 b rest Hwf1 E) as (Hw2 & Hb2 & Ht2).
  apply wf_stat_alloc, wf_upd_fixed; [done| |done|done].
  by apply (tagged_hdrs st1); [apply hdrs_set_slab_free|].
Qed.

Lemma slab_allocate_raw_some c st st' ptr :
  wf st -> slab_allocate_raw c st = (st', Some ptr) ->
  wf st' /\ (ptr - HEADER_SIZE) ∈ blocks st' /\ tagged st' (ptr - HEADER_SIZE) FIXED_SIZE.
Proof.
  intros Hwf. unfold slab_allocate_raw. destruct (slab_free (get_slab c st)) as [|b rest] eqn:E; [done|].
  intros [= <- <-]. destruct (slab_pop_ok c st b rest Hwf E) as (Hw & Hb & Ht).
  replace (b + HEADER_SIZE - HEADER_SIZE) with b by lia.
  split; [done|]. split; [by rewrite blocks_set_slab_free|].
  by apply (tagged_hdrs st); [apply hdrs_set_slab_free|].
Qed.

Lemma slab_allocate_raw_none c st st' : slab_allocate_raw c st = (st', None) -> st' = st.
Proof. unfold slab_allocate_raw. by case_match; intros [= <-]. Qed.

Lemma wf_cache_push c st ptr :
  wf st -> (ptr - HEADER_SIZE) ∈ blocks st -> tagged st (ptr - HEADER_SIZE) FIXED_SIZE ->
  wf (set_cache c (ptr :: get_cache c st) st).
Proof.
  intros Hwf Hb Ht. apply wf_set_cache; [done|]. intros p Hp.
  apply elem_of_cons in Hp as [->|Hp]; [done|]. by apply (wf_cache _ (wf_base _ Hwf) c).
Qed.

Lemma wf_refill_loop k c : forall st, wf st -> wf (refill_loop k c st).
Proof.
  induction k as [|k IH]; intros st Hwf; simpl; [done|].
  destruct (_ <? _)%nat; [|done].
  destruct (slab_allocate_raw c st) as [s1 [ptr|]] eqn:E; [|by rewrite (slab_allocate_raw_none _ _ _ E)].
  destruct (slab_allocate_raw_some c st s1 ptr Hwf E) as (Hw1 & Hb1 & Ht1).
  apply IH. change (get_cache c (upd_hdr (with_free true) (ptr - HEADER_SIZE) s1))
    with (get_cache c s1).
  assert (Hg : forall h, strategy h = FIXED_SIZE -> strategy (with_free true h) = FIXED_SIZE) by done.
  apply (wf_cache_push c (upd_hdr (with_free true) (ptr - HEADER_SIZE) s1) ptr).
  - by apply wf_upd_fixed.
  - done.
  - by apply tagged_upd_fixed.
Qed.

Lemma wf_cache_pop c st ptr rest :
  wf st -> get_cache c st = ptr :: rest ->
  let s1 := upd_hdr (with_free_strat false FIXED_SIZE) (ptr - HEADER_SIZE) (set_cache c rest st) in
  wf (stat_alloc (bsize s1 (ptr - HEADER_SIZE)) s1).
Proof.
  intros Hwf Hl s1. pose proof (wf_cache _ (wf_base _ Hwf) c) as Hc. rewrite Hl in Hc.
  destruct (Hc ptr) as [Hb Ht]; [set_solver|].
  apply wf_stat_alloc. apply wf_upd_fixed; [| |done|done].
  - apply wf_set_cache; [done|]. intros p Hp. apply Hc. set_solver.
  - by apply (tagged_hdrs st); [apply hdrs_set_cache|].
Qed.

Lemma wf_acquire_from_cache c st : wf st -> wf (acquire_from_cache c st).1.
Proof.
  intros Hwf. unfold acquire_from_cache.
  destruct (get_cache c st) as [|ptr rest] eqn:E1.
  - assert (Hw1 : wf (refill_cache c st)) by (by apply wf_refill_loop).
    destruct (get_cache c (refill_cache c st)) as [|ptr rest] eqn:E2.
    + pose proof (wf_slab_allocate c _ Hw1) as Hw2.
      destruct (slab_allocate c (refill_cache c st)) as [s2 r]. exact Hw2.
    + cbv iota beta zeta. rewrite E2. by apply wf_cache_pop.
  - cbv iota beta zeta. rewrite E1. by apply wf_cache_pop.
Qed.

Lemma wf_fixed_path a st : wf st -> wf (fixed_path a st).1.
Proof.
  intros Hwf. unfold fixed_path. destruct (fixed_slab a); [by apply wf_acquire_from_cache|done].
Qed.

Lemma wf_slab_deallocate c ptr st :
  wf st -> (ptr - HEADER_SIZE) ∈ blocks st -> tagged st (ptr - HEADER_SIZE) FIXED_SIZE ->
  wf (slab_deallocate c ptr st).
Proof.
  intros Hwf Hb Ht. unfold slab_deallocate. destruct (ptr =? 0); [done|].
  set (s1 := upd_hdr (with_free true) (ptr - HEADER_SIZE) st).
  assert (Hg : forall h, strategy h = FIXED_SIZE -> strategy (with_free true h) = FIXED_SIZE) by done.
  assert (Hw1 : wf s1) by (by apply wf_upd_fixed).
  apply wf_stat_dealloc, wf_set_slab_free; [done|]. intros b Hb'.
  apply elem_of_cons in Hb' as [->|Hb']; [split; [done|by apply tagged_upd_fixed]|].
  by apply (wf_slab _ (wf_base _ Hw1) c).
Qed.

Lemma wf_release_to_cache c ptr st :
  wf st -> (ptr - HEADER_SIZE) ∈ blocks st -> tagged st (ptr - HEADER_SIZE) FIXED_SIZE ->
  wf (release_to_cache c ptr st).1.
Proof.
  intros Hwf Hb Ht. unfold release_to_cache. destruct (_ <? _)%nat; simpl; [|by apply wf_slab_deallocate].
  assert (Hg : forall h, strategy h = FIXED_SIZE -> strategy (with_free true h) = FIXED_SIZE) by done.
  apply wf_stat_dealloc.
  change (get_cache c (upd_hdr (with_free true) (ptr - HEADER_SIZE) st)) with (get_cache c st).
  change (get_cache c st) with (get_cache c (upd_hdr (with_free true) (ptr - HEADER_SIZE) st)).
  apply wf_cache_push; [by apply wf_upd_fixed|done|by apply tagged_upd_fixed].
Qed.

Lemma release_to_cache_handled c ptr st : (release_to_cache c ptr st).2 = true.
Proof. unfold release_to_cache. by case_match. Qed.

Lemma wf_release_fixed c ptr st :
  wf st -> (ptr - HEADER_SIZE) ∈ blocks st -> tagged st (ptr - HEADER_SIZE) FIXED_SIZE ->
  wf (release_fixed c ptr st).
Proof.
  intros Hwf Hb Ht. pose proof (wf_release_to_cache c ptr st Hwf Hb Ht) as Hw.
  pose proof (release_to_cache_handled c ptr st) as Hh.
  unfold release_fixed. destruct (release_to_cache c ptr st) as [s' []]; simpl in *; [done|discriminate].
Qed.

(** A size of the class table selects its own class. *)
Lemma select_class_exact sz :
  sz ∈ SEGREGATED_CLASS_SIZES -> SEGREGATED_CLASS_SIZES !! select_segregated_class sz = Some sz.
Proof.
  intros H. unfold SEGREGATED_CLASS_SIZES in H.
  repeat (apply elem_of_cons in H as [->|H]; [reflexivity|]). by apply elem_of_nil in H.
Qed.

Lemma wf_release_segregated block st h :
  wf st -> block ∈ blocks st -> hdrs st !! block = Some h -> strategy h = SEGREGATED ->
  wf (release_segregated block st).
Proof.
  intros Hwf Hb Hh Hs. pose proof (wf_seg_size _ (wf_base _ Hwf) block h Hb Hh Hs) as Hc.
  pose proof (select_class_exact _ Hc) as Hi. pose proof (select_class_member _ Hc) as Hlt.
  unfold release_segregated.
  assert (Hbs : bsize st block = size h) by (unfold bsize; by rewrite Hh). rewrite Hbs.
  set (i := select_segregated_class (size h)) in *.
  replace ((i <? SEGREGATED_CLASS_COUNT)%nat) with true by (symmetry; by apply Nat.ltb_lt).
  set (s1 := upd_hdr (with_free true) block st).
  set (s2 := upd_hdr (with_free_strat true SEGREGATED) block s1).
  assert (Hh1 : hdrs s1 !! block = Some (with_free true h)) by (unfold s1; by rewrite lookup_upd_hdr, decide_True, Hh).
  assert (Hh2 : hdrs s2 !! block = Some (mkBlock (size h) true SEGREGATED)).
  { unfold s2. by rewrite lookup_upd_hdr, decide_True, Hh1. }
  assert (Hw1 : wf s1).
  { apply wf_upd; [done| |  |done].
    - intros h' Hh'. rewrite Hh in Hh'. injection Hh' as <-. by left.
    - intros h' Hh'. rewrite Hh in Hh'. injection Hh' as <-. simpl. rewrite Hs.
      split; intros [_ ?]; discriminate. }
  assert (Hw2 : wf s2).
  { apply wf_upd; [done| |  |done].
    - intros h' Hh'. rewrite Hh1 in Hh'. injection Hh' as <-. left. simpl. done.
    - intros h' Hh'. rewrite Hh1 in Hh'. injection Hh' as <-. simpl. rewrite Hs.
      split; intros [_ ?]; discriminate. }
  apply wf_stat_dealloc, wf_set_seg; [done|done|].
  intros b Hb'. apply elem_of_cons in Hb' as [->|Hb'].
  - split; [done|]. eexists. split; [exact Hh2|]. done.
  - by apply seg_list_mem.
Qed.

Lemma wf_deallocate_block block st h :
  wf st -> block ∈ blocks st -> hdrs st !! block = Some h -> is_free h = false ->
  non_fixed_seg (strategy h) -> wf (deallocate_block block st).
Proof.
  intros Hwf Hb Hh Hf Hs. unfold deallocate_block. apply wf_stat_dealloc, wf_except_insert.
  - apply wf_wf_except; [done|]. intros (h' & Hh' & Hf' & _). congruence.
  - done.
  - intros h' Hh'. congruence.
Qed.

Lemma scope_frame_live st st' p : scope_frame st st' -> live st p -> live st' p.
Proof. unfold scope_frame, live. intros H. destruct_and!. by rewrite H, H0. Qed.

Lemma wf_deallocate ptr st : wf st -> ptr = 0 \/ live st ptr -> wf (deallocate ptr st).
Proof.
  intros Hwf Hp. unfold deallocate. destruct (ptr =? 0) eqn:E0; [done|].
  apply Z.eqb_neq in E0. destruct Hp as [Hp|Hp]; [done|].
  set (s1 := if thread_safe st && (0 <? active_scope_count st) then unregister_scope ptr st else st).
  assert (Hfr : scope_frame st s1).
  { unfold s1. case_match; [apply unregister_frame|unfold scope_frame; repeat split]. }
  assert (Hw1 : wf s1) by (by apply (wf_scope_frame st)).
  destruct (scope_frame_live st s1 ptr Hfr Hp) as (Hb & h & Hh & Hf).
  rewrite Hh. pose proof (wf_fixed_size _ (wf_base _ Hw1) _ h Hb Hh) as Hfs.
  assert (Ht : forall s, strategy h = s -> tagged s1 (ptr - HEADER_SIZE) s) by (intros s Hs; by exists h).
  destruct (strategy h) eqn:Hs.
  - apply (wf_deallocate_block _ _ h); [done|done|done|done|rewrite Hs; by left].
  - specialize (Hfs eq_refl). unfold fixed_block_sizes in Hfs.
    destruct (size h <=? 32); [by apply wf_release_fixed; auto|].
    destruct (size h <=? 128); [by apply wf_release_fixed; auto|].
    destruct (size h <=? 256) eqn:E; [by apply wf_release_fixed; auto|].
    exfalso. apply Z.leb_gt in E.
    repeat (apply elem_of_cons in Hfs as [Hfs|Hfs]; [lia|]). by apply elem_of_nil in Hfs.
  - apply (wf_deallocate_block _ _ h); [done|done|done|done|rewrite Hs; by right].
  - by apply (wf_release_segregated _ _ h).
Qed.

Lemma map_fst_pair (l : list Z) (n : Z) : map fst (map (fun c => (c, n)) l) = l.
Proof. induction l as [|x l IH]; simpl; congruence. Qed.

(** The pool chunks are apart from each other and from the slab chunks. *)
Lemma chunks_sep st :
  wf_blocks st ->
  NoDup (memory_chunks st) /\
  (forall x y, x ∈ memory_chunks st -> y ∈ memory_chunks st -> x <> y ->
     x + POOL_SIZE < y \/ y + POOL_SIZE < x) /\
  (forall x y, x ∈ memory_chunks st -> y ∈ slab_chunk_list st -> x <> y).
Proof.
  intros Hw. pose proof (wf_chunks_nodup _ Hw) as Hnd.
  unfold all_chunks in Hnd. rewrite map_app, !map_fst_pair in Hnd.
  apply NoDup_app in Hnd as (Hnd1 & Hd & _). split; [done|]. split.
  - intros x y Hx Hy Hne. apply (wf_chunks_apart _ Hw); [by apply pool_chunk_all|by apply pool_chunk_all|done].
  - intros x y Hx Hy ->. by apply (Hd y).
Qed.

(** A slab block lies outside every pool chunk. *)
Lemma fixed_not_pool st x c :
  wf_blocks st -> x ∈ blocks st -> tagged st x FIXED_SIZE -> c ∈ memory_chunks st ->
  c + POOL_SIZE < x \/ bend st x < c.
Proof.
  intros Hw Hx (h & Hh & Hs) Hc. pose proof (wf_in_chunk _ Hw x h Hx Hh) as Hin.
  unfold in_chunk in Hin. rewrite Hs in Hin. cbv [strat_eqb] in Hin. rewrite bool_decide_true in Hin by done.
  destruct Hin as (c' & Hc' & H1 & H2).
  destruct (chunks_sep st Hw) as (_ & _ & Hd).
  destruct (wf_chunks_apart _ Hw c POOL_SIZE c' SLAB_CHUNK_SIZE) as [Ha|Ha].
  - by apply pool_chunk_all.
  - unfold all_chunks. apply elem_of_app. right. apply list_elem_of_fmap. eauto.
  - by apply Hd.
  - left. lia.
  - right. lia.
Qed.

Lemma keys_sorted (l : list (Z * Z)) k : (forall e, e ∈ l -> e.1 = k) -> StronglySorted keyle l.
Proof.
  induction l as [|e l IH]; intros H; constructor.
  - apply IH. intros e' He'. apply H. set_solver.
  - apply Forall_forall. intros e' He'. unfold keyle.
    assert (e'.1 = k) by (apply H; set_solver).
    assert (e.1 = k) by (apply H; set_solver). lia.
Qed.

Lemma is_fixed_tagged st y : is_fixed st y = true <-> tagged st y FIXED_SIZE.
Proof.
  unfold is_fixed, tagged, strat_eqb. destruct (hdrs st !! y) as [h|]; split.
  - intros H. apply bool_decide_eq_true in H. eauto.
  - intros (h' & [= <-] & H). by apply bool_decide_eq_true.
  - discriminate.
  - intros (? & ? & _). discriminate.
Qed.

Lemma wf_reset st : wf st -> wf (reset st).
Proof.
  intros Hwf. pose proof (wf_base _ Hwf) as Hw.
  destruct (chunks_sep st Hw) as (Hnd & Hsep & Hps).
  unfold reset.
  set (s0 := set_blocks _ (set_size_index [] (set_free_list [] st))).
  assert (Hs0b : forall y, y ∈ blocks s0 <-> y ∈ blocks st /\ tagged st y FIXED_SIZE).
  { intros y. unfold s0. cbn [blocks set_blocks]. rewrite elem_of_filter, is_fixed_tagged. tauto. }
  assert (Hs0h : hdrs s0 = hdrs st) by reflexivity.
  assert (Hs0m : memory_chunks s0 = memory_chunks st) by reflexivity.
  assert (Hs0fr : free_frame st s0) by (unfold s0; frame_tac).
  rewrite Hs0m.
  destruct (reset_fold (memory_chunks st) [] s0) as (H1 & H2 & H3 & H4 & H5 & H6 & H7);
    [constructor|done|set_solver|done|done|done|].
  rewrite app_nil_l in H2, H3, H4.
  set (F := foldl reset_step s0 (memory_chunks st)) in *. clearbody F s0.
  pose proof (free_frame_trans _ _ _ Hs0fr H5) as HF. clear H5 Hs0fr.
  set (R := set_thread_cache _ _).
  unfold free_frame in HF. destruct HF as (HFt & HFm & _ & _ & HFs & HFmd & HFl & _).
  assert (HRh : hdrs R = hdrs F) by reflexivity.
  assert (HRb : blocks R = blocks F) by reflexivity.
  assert (HRfl : free_list R = free_list F) by reflexivity.
  assert (HRi : size_index R = size_index F) by reflexivity.
  assert (HRt : heap_top R = heap_top st) by (rewrite <- HFt; reflexivity).
  assert (HRm : memory_chunks R = memory_chunks st) by (rewrite <- HFm; reflexivity).
  assert (HRsl : forall c, get_slab c R = get_slab c st) by (intros []; simpl; congruence).
  assert (HRsc : slab_chunk_list R = slab_chunk_list st).
  { unfold slab_chunk_list. change (small_allocator R) with (get_slab Small R).
    change (medium_allocator R) with (get_slab Medium R). change (large_allocator R) with (get_slab Large R).
    rewrite !HRsl. reflexivity. }
  assert (HRc : forall c, get_cache c R = []) by (intros []; reflexivity).
  assert (HRs : segregated_free_lists R = replicate SEGREGATED_CLASS_COUNT []) by reflexivity.
  clearbody R.
  assert (Hw40 : wrap (POOL_SIZE - HEADER_SIZE) = POOL_SIZE - HEADER_SIZE) by (vm_compute; done).
  assert (Hhc : forall x, x ∈ memory_chunks st -> hdrs R !! x = Some chunk_header) by (intros; rewrite HRh; auto).
  assert (Hho : forall y, y ∉ memory_chunks st -> hdrs R !! y = hdrs st !! y) by (intros; rewrite HRh, H6, Hs0h; auto).
  assert (Hbc : forall x, x ∈ memory_chunks st -> bsize R x = POOL_SIZE - HEADER_SIZE).
  { intros x Hx. unfold bsize. by rewrite Hhc. }
  assert (Hbo : forall y, y ∉ memory_chunks st -> bsize R y = bsize st y).
  { intros y Hy. unfold bsize. by rewrite Hho. }
  assert (Hfix : forall y c, y ∈ blocks st -> tagged st y FIXED_SIZE -> c ∈ memory_chunks st ->
                   c + POOL_SIZE < y \/ bend st y < c) by (intros; by apply fixed_not_pool).
  assert (Hfixn : forall y, y ∈ blocks st -> tagged st y FIXED_SIZE -> y ∉ memory_chunks st).
  { intros y Hy Ht Hc. destruct (Hfix y y Hy Ht Hc) as [?|?]; [unfold POOL_SIZE in *; lia|].
    pose proof (wf_size _ Hw y Hy). unfold bend, HEADER_SIZE in *. lia. }
  assert (Hbl : forall y, y ∈ blocks R <-> y ∈ memory_chunks st \/ (y ∈ blocks st /\ tagged st y FIXED_SIZE)).
  { intros y. rewrite HRb, H7, elem_of_union, elem_of_list_to_set, Hs0b. done. }
  assert (Hbe : forall y, y ∈ blocks st -> tagged st y FIXED_SIZE -> bend R y = bend st y).
  { intros y Hy Ht. unfold bend. rewrite Hbo; [done|by apply Hfixn]. }
  assert (Hbec : forall x, x ∈ memory_chunks st -> bend R x = x + POOL_SIZE).
  { intros x Hx. unfold bend. rewrite Hbc by done. lia. }
  assert (Htg : forall y, y ∈ blocks st -> tagged st y FIXED_SIZE -> tagged R y FIXED_SIZE).
  { intros y Hy Ht. unfold tagged. rewrite Hho; [done|by apply Hfixn]. }
  assert (Hall : all_chunks R = all_chunks st) by (unfold all_chunks; by rewrite HRm, HRsc).
  destruct Hw as [Hhdr Hsize Hdis Hin Hnd0 Hap Hbel Hsl0 Hseg Hss Hfs Hslab Hcache Hheap].
  split.
  - split; rewrite ?Hall, ?HRt.
    + intros x Hx. apply Hbl in Hx as [Hx|[Hx Ht]]; [rewrite Hhc; [by eexists|done]|].
      rewrite Hho; [by apply Hhdr|by apply Hfixn].
    + intros x Hx. apply Hbl in Hx as [Hx|[Hx Ht]]; [rewrite Hbc; [|done]; unfold POOL_SIZE, HEADER_SIZE; lia|].
      rewrite Hbo; [by apply Hsize|by apply Hfixn].
    + intros x y Hx Hy Hne. apply Hbl in Hx as [Hx|[Hx Htx]], Hy as [Hy|[Hy Hty]].
      * rewrite !Hbec by done. destruct (Hsep x y Hx Hy Hne); unfold POOL_SIZE in *; lia.
      * rewrite (Hbec x), (Hbe y) by done. destruct (Hfix y x Hy Hty Hx); [left; lia|right; lia].
      * rewrite (Hbec y), (Hbe x) by done. destruct (Hfix x y Hx Htx Hy); [right; lia|left; lia].
      * rewrite !Hbe by done. by apply Hdis.
    + intros x h Hx Hh. apply Hbl in Hx as [Hx|[Hx Ht]].
      * rewrite Hhc in Hh by done. injection Hh as <-. unfold in_chunk. simpl.
        rewrite HRm, Hbec by done. exists x. split; [done|lia].
      * rewrite Hho in Hh by (by apply Hfixn). apply (in_chunk_bsize st); [|done|done|by apply (Hin x)].
        apply Hbo. by apply Hfixn.
    + done.
    + done.
    + done.
    + rewrite HRs. apply length_replicate.
    + intros i l b Hi Hb. rewrite HRs in Hi. apply lookup_replicate in Hi as [-> _]. set_solver.
    + intros x h Hx Hh Hs. exfalso. apply Hbl in Hx as [Hx|[Hx (h' & Hh' & Ht)]].
      * rewrite Hhc in Hh by done. injection Hh as <-. discriminate.
      * rewrite Hho in Hh by (apply Hfixn; [done|by exists h']). congruence.
    + intros x h Hx Hh Hs. apply Hbl in Hx as [Hx|[Hx Ht]].
      * rewrite Hhc in Hh by done. injection Hh as <-. discriminate.
      * rewrite Hho in Hh by (by apply Hfixn). by apply (Hfs x).
    + intros c b Hb. rewrite HRsl in Hb. destruct (Hslab c b Hb) as [Hb1 Hb2].
      split; [apply Hbl; by right|by apply Htg].
    + intros c p Hp. rewrite HRc in Hp. set_solver.
    + done.
  - by rewrite HRfl.
  - intros x. rewrite HRfl, H2. split.
    + intros Hx. split; [apply Hbl; by left|]. exists chunk_header. by rewrite Hhc.
    + intros [Hx (h & Hh & Hf & Hs)]. apply Hbl in Hx as [Hx|[Hx (h' & Hh' & Ht)]]; [done|].
      rewrite Hho in Hh by (apply Hfixn; [done|by exists h']). congruence.
  - rewrite HRi. apply (keys_sorted _ (POOL_SIZE - HEADER_SIZE)). intros e He.
    rewrite H4 in He. apply list_elem_of_fmap in He as (x & -> & _). done.
  - rewrite HRi, H4, HRfl. etrans; [|apply Permutation_map; symmetry; exact H2].
    apply Permutation_refl'. apply map_ext_elem. intros x Hx. by rewrite Hbc.
  - intros x y Hx Hy. rewrite HRfl, H2 in Hx, Hy. rewrite Hbec by done.
    destruct (decide (x = y)) as [->|Hne]; [unfold POOL_SIZE; lia|]. destruct (Hsep x y Hx Hy Hne); unfold POOL_SIZE in *; lia.
Qed.

Lemma begin_scope_frame st : scope_frame st (begin_scope st).
Proof. unfold begin_scope. frame_tac. Qed.

Lemma register_frame p st : scope_frame st (register_in_scope p st).
Proof. unfold register_in_scope. case_match; frame_tac. Qed.

Lemma fixed_register_frame p st : scope_frame st (fixed_register p st).
Proof. unfold fixed_register. case_match; [apply register_frame|frame_tac]. Qed.

Lemma end_scope_pop_frame st scoped st' :
  end_scope_pop st = Some (scoped, st') -> scope_frame st st'.
Proof. unfold end_scope_pop. case_match; [|done]. intros [= <- <-]. frame_tac. Qed.

Lemma wf_general_path eff a st : wf st -> 0 <= a -> wf (general_path eff a st).1.
Proof.
  intros Hwf Ha. unfold general_path.
  assert (Hg : forall r, wf r.1 -> wf (let '(st, result) := r in
                                       match result with
                                       | Some p => (register_in_scope p st, Some p)
                                       | None => (st, None)
                                       end).1).
  { intros [s1 [p|]] Hw; simpl in *; [|done]. by apply (wf_scope_frame s1); [apply register_frame|]. }
  apply Hg. destruct eff; [by apply wf_allocate_best_fit|by apply wf_allocate_best_fit
                          |by apply wf_allocate_from_pool|by apply wf_allocate_segregated].
Qed.

Lemma wf_allocate size s st : wf st -> wf (allocate size s st).1.
Proof.
  intros Hwf. unfold allocate. pose proof (align_size_nonneg size) as Ha.
  set (a := align_size size) in *. set (eff := effective_strategy a s).
  destruct (strat_eqb eff FIXED_SIZE).
  - pose proof (wf_fixed_path a st Hwf) as Hw1.
    destruct (fixed_path a st) as [s1 [p|]]; simpl in *.
    + by apply (wf_scope_frame s1); [apply fixed_register_frame|].
    + by apply wf_general_path.
  - by apply wf_general_path.
Qed.

Lemma wf_frees ps : forall st, wf st -> frees_ok ps st -> wf (foldl (fun st p => deallocate p st) st ps).
Proof.
  induction ps as [|p ps IH]; intros st Hwf Hok; simpl; [done|].
  destruct Hok as [Hp Hok]. apply IH; [by apply wf_deallocate|done].
Qed.

Lemma wf_end_scope st : wf st -> end_scope_ok st -> wf (end_scope st).
Proof.
  intros Hwf Hok. unfold end_scope_ok, end_scope in *.
  destruct (end_scope_pop st) as [[scoped st']|] eqn:E.
  - apply wf_frees; [|done]. by apply (wf_scope_frame st); [apply (end_scope_pop_frame _ scoped)|].
  - case_match; [|done]. by apply (wf_scope_frame st); [frame_tac|].
Qed.

Lemma wf_begin_scope st : wf st -> wf (begin_scope st).
Proof. apply wf_scope_frame, begin_scope_frame. Qed.

Lemma wf_empty ts base : 0 <= base ->
  wf (mkPool ∅ ∅ base [] [] ts 0 (mkSlab [] []) (mkSlab [] []) (mkSlab [] [])
             [] ∅ [] (replicate SEGREGATED_CLASS_COUNT []) (mkCache [] [] [])
             (mkStats 0 0 0)).
Proof.
  intros Hb. split; [split| | | | |]; cbn; intros.
  all: repeat match goal with c : SlabId |- _ => destruct c end; cbn in *.
  all: try match goal with H : _ !! _ = Some ?l, H' : _ ∈ ?l |- _ =>
                             apply list_elem_of_lookup_2 in H;
                             repeat (apply elem_of_cons in H as [->|H]; [set_solver|]) end.
  all: try solve [done | constructor | set_solver].
Qed.

Lemma wf_new_pool ts base : 0 <= base -> wf (new_pool ts base).
Proof.
  intros Hb. unfold new_pool.
  apply add_new_chunk_ok, wf_slab_add_new_chunk, wf_slab_add_new_chunk, wf_slab_add_new_chunk.
  by apply wf_empty.
Qed.

Lemma wf_step st st' : wf st -> step st st' -> wf st'.
Proof.
  intros Hwf Hs. destruct Hs.
  - by apply wf_allocate.
  - by apply wf_deallocate.
  - by apply wf_reset.
  - by apply wf_begin_scope.
  - by apply wf_end_scope.
Qed.

(** Every reachable state satisfies the invariant. *)
Lemma reachable_wf st : reachable st -> wf st.
Proof.
  induction 1 as [ts base Hb|st st' _ IH Hs]; [by apply wf_new_pool|by apply (wf_step st)].
Qed.



Lemma free_in_index st x : wf st -> x ∈ free_list st -> (bsize st x, x) ∈ size_index st.
Proof.
  intros Hw Hx. rewrite (wf_idx_perm _ Hw). apply list_elem_of_fmap. eauto.
Qed.

Lemma bf_take_facts st0 size k b :
  wf st0 -> 0 <= size -> mm_lower_bound size (size_index st0) = Some (k, b) ->
  let res := best_fit_take size b st0 in
  res.2 = Some (b + HEADER_SIZE) /\
  b ∈ free_list st0 /\ size <= bsize st0 b /\
  (forall y, y ∈ free_list st0 -> size <= bsize st0 y -> bsize st0 b <= bsize st0 y) /\
  (size + HEADER_SIZE + MIN_SPLIT_PAYLOAD <= bsize st0 b ->
     hdrs res.1 !! b = Some (mkBlock size false BEST_FIT) /\
     b + HEADER_SIZE + size ∈ free_list res.1 /\
     (bsize res.1 (b + HEADER_SIZE + size), b + HEADER_SIZE + size) ∈ size_index res.1 /\
     hdrs res.1 !! (b + HEADER_SIZE + size) =
       Some (mkBlock (bsize st0 b - size - HEADER_SIZE) true BEST_FIT)) /\
  (bsize st0 b < size + HEADER_SIZE + MIN_SPLIT_PAYLOAD ->
     hdrs res.1 !! b = Some (mkBlock (bsize st0 b) false BEST_FIT)).
Proof.
  intros Hw Hs E res. destruct (lb_some _ _ _ _ Hw E) as (Hb & -> & Hle & Hmin).
  destruct (best_fit_take_ok st0 size b Hw Hb (conj Hs Hle)) as (Hw' & Hr & Hsp & Hns).
  split; [done|]. split; [done|]. split; [done|]. split; [intros y Hy Hy'; by apply Hmin|].
  split; [|done]. intros Hc. destruct (Hsp Hc) as (H1 & H2 & H3).
  split; [done|]. split; [done|]. split; [|done]. by apply free_in_index.
Qed.

Lemma seg_list_set_eq i l st :
  (i < length (segregated_free_lists st))%nat -> seg_list (set_seg_list i l st) i = l.
Proof. intros Hi. unfold seg_list, set_seg_list. cbn [segregated_free_lists set_segregated_free_lists]. rewrite list_lookup_insert, decide_True; done. Qed.

Lemma release_segregated_push block st h :
  wf st -> block ∈ blocks st -> hdrs st !! block = Some h -> strategy h = SEGREGATED ->
  exists i, SEGREGATED_CLASS_SIZES !! i = Some (size h) /\
    seg_list (release_segregated block st) i = block :: seg_list st i.
Proof.
  intros Hwf Hb Hh Hs. pose proof (wf_seg_size _ (wf_base _ Hwf) block h Hb Hh Hs) as Hc.
  pose proof (select_class_exact _ Hc) as Hi. pose proof (select_class_member _ Hc) as Hlt.
  exists (select_segregated_class (size h)). split; [done|].
  unfold release_segregated.
  assert (Hbs : bsize st block = size h) by (unfold bsize; by rewrite Hh). rewrite Hbs.
  set (i := select_segregated_class (size h)) in *.
  replace ((i <? SEGREGATED_CLASS_COUNT)%nat) with true by (symmetry; by apply Nat.ltb_lt).
  unfold stat_dealloc. cbn [seg_list set_stats segregated_free_lists].
  change (seg_list (set_stats ?s ?t) i) with (seg_list t i).
  rewrite seg_list_set_eq; [done|]. simpl. by rewrite (wf_seg_len _ (wf_base _ Hwf)).
Qed.

(** C3: [allocate_best_fit] takes the free block of smallest size that fits
    (after acquiring one chunk if none fits, returning null if still none);
    it splits exactly when the block has room for [size], a header and 32
    more bytes, shrinking the block to [size] and inserting the remainder in
    the free list and the size index; otherwise the size is left alone. *)
Theorem allocate_best_fit_selects (st : MemoryPool) (size : Z) (Hwf : wf st) (Hsize : 0 <= size) :
  best_fit_outcome size st (allocate_best_fit size st).
Proof.
  unfold best_fit_outcome, allocate_best_fit.
  destruct (mm_lower_bound size (size_index st)) as [[k b]|] eqn:E.
  - destruct (bf_take_facts st size k b Hwf Hsize E) as (Hr & Hf).
    split; [by rewrite Hr|]. intros p Hp. rewrite Hr in Hp. injection Hp as <-.
    replace (b + HEADER_SIZE - HEADER_SIZE) with b by lia. exists st. split; [by left|done].
  - pose proof (lb_none st size Hwf E) as Hn.
    destruct (add_new_chunk_ok st Hwf) as [Hw1 _].
    destruct (mm_lower_bound size (size_index (add_new_chunk st))) as [[k b]|] eqn:E1.
    + destruct (bf_take_facts _ size k b Hw1 Hsize E1) as (Hr & Hf).
      split; [by rewrite Hr|]. intros p Hp. rewrite Hr in Hp. injection Hp as <-.
      replace (b + HEADER_SIZE - HEADER_SIZE) with b by lia.
      exists (add_new_chunk st). split; [by right|done].
    + split; [|done]. intros _. split; [done|]. by apply lb_none.
Qed.

Lemma allocate_best_fit_selects_witness :
  wf (new_pool true 4096) /\ 0 <= 64 /\
  best_fit_outcome 64 (new_pool true 4096) (allocate_best_fit 64 (new_pool true 4096)).
Proof.
  assert (Hw : wf (new_pool true 4096)) by (apply wf_new_pool; lia).
  split; [exact Hw|]. split; [lia|]. apply allocate_best_fit_selects; [exact Hw|lia].
Defined.





(** C1: a request of [SIZE_MAX] bytes makes [align_size] wrap around to 0;
    [allocate] then serves it from the 32-byte slab and returns a payload
    whose [usable_size] is 32, far below the request. *)
Theorem allocate_size_max_usable_small :
  let st := new_pool true 4096 in
  (allocate SIZE_MAX BEST_FIT st).2 = Some 65584 /\
  usable_size (allocate SIZE_MAX BEST_FIT st).1 65584 = 32 /\
  usable_size (allocate SIZE_MAX BEST_FIT st).1 65584 < SIZE_MAX.
Proof. vm_compute. split; [reflexivity|split; [reflexivity|exact eq_refl]]. Qed.

(** C7: for [SIZE_MAX], [size + ALIGNMENT - 1] exceeds the 64-bit range and
    [align_size] yields 0; [allocate] does not return null but a payload of
    the small slab. *)
Theorem allocate_size_overflow_not_null :
  SIZE_MAX + ALIGNMENT - 1 > SIZE_MAX /\ align_size SIZE_MAX = 0 /\
  (allocate SIZE_MAX BEST_FIT (new_pool true 4096)).2 <> None.
Proof. vm_compute. split; [reflexivity|split; [reflexivity|discriminate]]. Qed.

(** C5: in an exclusive pool ([thread_safe = false]) with an open scope,
    [deallocate] of a scope-tracked payload leaves it in its cohort: the
    following [end_scope] pops the payload again, and calling [deallocate] on
    it then frees a block that is already free. *)
Theorem end_scope_double_free :
  let st1 := begin_scope (new_pool false 4096) in
  let st2 := (allocate 1000 BEST_FIT st1).1 in
  (allocate 1000 BEST_FIT st1).2 = Some 200800 /\
  scope_lookup st2 !! 200800 = Some (0%nat, 0%nat) /\
  match end_scope_pop (deallocate 200800 st2) with
  | Some (scoped, st') =>
      scoped = [200800] /\
      option_map is_free (hdrs st' !! (200800 - HEADER_SIZE)) = Some true
  | None => False
  end /\
  ~ end_scope_ok (deallocate 200800 st2).
Proof.
  split; [vm_compute; reflexivity|]. split; [vm_compute; reflexivity|].
  split; [vm_compute; split; reflexivity|].
  unfold end_scope_ok. vm_compute. intros [[H|(_ & h & Hh & Hf)] _]; [discriminate|].
  injection Hh as <-. discriminate.
Qed.

(** C6: in an exclusive pool with an open scope, a 24-byte request is
    served by the small slab's cache path, and the payload is neither
    appended to the top cohort nor entered in the lookup table. *)
Theorem fixed_allocation_not_scoped :
  let st1 := begin_scope (new_pool false 4096) in
  scope_stack st1 = [[]] /\
  (allocate 24 BEST_FIT st1).2 = Some 65584 /\
  scope_stack (allocate 24 BEST_FIT st1).1 = [[]] /\
  scope_lookup (allocate 24 BEST_FIT st1).1 !! 65584 = None.
Proof. vm_compute. repeat split; reflexivity. Qed.


Lemma deallocate_bytes_saturate_witness :
  let st := (allocate 24 BEST_FIT (new_pool true 4096)).1 in
  65584 <> 0 /\ hdrs st !! (65584 - HEADER_SIZE) = Some (mkBlock 32 false FIXED_SIZE) /\
  (strategy (mkBlock 32 false FIXED_SIZE) = SEGREGATED -> size (mkBlock 32 false FIXED_SIZE) ∈ SEGREGATED_CLASS_SIZES) /\
  bytes_allocated (stats (deallocate 65584 st)) =
    (if bytes_allocated (stats st) >=? size (mkBlock 32 false FIXED_SIZE)
     then bytes_allocated (stats st) - size (mkBlock 32 false FIXED_SIZE) else 0).
Proof.
  intros st.
  assert (Hh : hdrs st !! (65584 - HEADER_SIZE) = Some (mkBlock 32 false FIXED_SIZE)) by (vm_compute; reflexivity).
  assert (Hs : strategy (mkBlock 32 false FIXED_SIZE) = SEGREGATED ->
               size (mkBlock 32 false FIXED_SIZE) ∈ SEGREGATED_CLASS_SIZES) by discriminate.
  split; [lia|]. split; [exact Hh|]. split; [exact Hs|].
  apply deallocate_bytes_saturate; [lia|exact Hh|exact Hs].
Defined.

Lemma select_class_from_spec classes : forall i size,
  let k := select_class_from i classes size in
  (i <= k <= i + length classes)%nat /\
  (forall j c, (j < k - i)%nat -> classes !! j = Some c -> c < size) /\
  (forall c, classes !! (k - i)%nat = Some c -> size <= c).
Proof.
  induction classes as [|c cs IH]; intros i size k; subst k; simpl.
  - split; [lia|]. split; [intros j c Hj; lia|]. intros c Hc. rewrite Nat.sub_diag in Hc. done.
  - destruct (size <=? c) eqn:E.
    + apply Z.leb_le in E. split; [lia|]. split; [intros j c' Hj; lia|].
      rewrite Nat.sub_diag. intros c' [= <-]. done.
    + apply Z.leb_gt in E. destruct (IH (S i) size) as (H1 & H2 & H3).
      set (k := select_class_from (S i) cs size) in *.
      split; [lia|]. split.
      * intros [|j] c' Hj Hc; [injection Hc as <-; done|]. apply (H2 j); [lia|].
        simpl in Hc. done.
      * intros c' Hc. apply H3. replace (k - S i)%nat with (Init.Nat.pred (k - i)) by lia.
        destruct (k - i)%nat as [|n] eqn:Ekn; [lia|]. exact Hc.
Qed.

(** [select_segregated_class] returns the index of the first class at least
    as large as the size, or [SEGREGATED_CLASS_COUNT] when the size exceeds
    every class. *)
Theorem select_segregated_class_first (size : Z) :
  let i := select_segregated_class size in
  (i <= SEGREGATED_CLASS_COUNT)%nat /\
  (forall j c, (j < i)%nat -> SEGREGATED_CLASS_SIZES !! j = Some c -> c < size) /\
  (forall c, SEGREGATED_CLASS_SIZES !! i = Some c -> size <= c) /\
  (i = SEGREGATED_CLASS_COUNT <-> 4096 < size).
Proof.
  intros i. destruct (select_class_from_spec SEGREGATED_CLASS_SIZES 0 size) as (H1 & H2 & H3).
  fold (select_segregated_class size) in H1, H2, H3. fold i in H1, H2, H3.
  rewrite Nat.sub_0_r in H2, H3. simpl in H1.
  split; [unfold SEGREGATED_CLASS_COUNT; lia|]. split; [done|]. split; [done|].
  split.
  - intros ->. apply (H2 7%nat); [unfold SEGREGATED_CLASS_COUNT; lia|done].
  - intros Hs. destruct (decide (i = 8%nat)) as [->|Hne]; [done|].
    exfalso. destruct (lookup_lt_is_Some_2 SEGREGATED_CLASS_SIZES i) as [c Hc]; [simpl; lia|].
    specialize (H3 c Hc).
    assert (c <= 4096).
    { apply list_elem_of_lookup_2 in Hc. unfold SEGREGATED_CLASS_SIZES in Hc.
      repeat (apply elem_of_cons in Hc as [->|Hc]; [lia|]). by apply elem_of_nil in Hc. }
    lia.
Qed.

(** [align_size] wraps around for the 15 largest sizes: the rounded size is 0. *)
Theorem align_size_overflow (size : Z) (Hs : SIZE_MAX - 15 < size <= SIZE_MAX) :
  align_size size = 0.
Proof.
  rewrite align_size_eq. unfold wrap, SIZE_MAX in *.
  rewrite <- (Z.mod_unique (size + 15) (2 ^ 64) 1 (size + 15 - 2 ^ 64)) by lia.
  rewrite Z.div_small by lia. done.
Qed.

Lemma align_size_overflow_witness : SIZE_MAX - 15 < SIZE_MAX <= SIZE_MAX /\ align_size SIZE_MAX = 0.
Proof.
  assert (H : SIZE_MAX - 15 < SIZE_MAX <= SIZE_MAX) by (unfold SIZE_MAX; lia).
  split; [exact H|]. exact (align_size_overflow SIZE_MAX H).
Defined.







(** [reset] acquires and releases no memory and leaves the fixed-size
    allocators alone: the chunks, the backing allocator's next address and
    the three slabs are unchanged, and every slab block stays a block with
    its header. *)
Theorem reset_keeps_slabs (st : MemoryPool) (Hwf : wf st) :
  heap_top (reset st) = heap_top st /\ memory_chunks (reset st) = memory_chunks st /\
  (forall c, get_slab c (reset st) = get_slab c st) /\
  (forall x, x ∈ blocks st -> tagged st x FIXED_SIZE ->
     x ∈ blocks (reset st) /\ hdrs (reset st) !! x = hdrs st !! x).
Proof.
  pose proof (wf_base _ Hwf) as Hw.
  destruct (chunks_sep st Hw) as (Hnd & Hsep & Hps).
  unfold reset.
  set (s0 := set_blocks _ (set_size_index [] (set_free_list [] st))).
  assert (Hs0b : forall y, y ∈ blocks s0 <-> y ∈ blocks st /\ tagged st y FIXED_SIZE).
  { intros y. unfold s0. cbn [blocks set_blocks]. rewrite elem_of_filter, is_fixed_tagged. tauto. }
  assert (Hs0h : hdrs s0 = hdrs st) by reflexivity.
  assert (Hs0m : memory_chunks s0 = memory_chunks st) by reflexivity.
  assert (Hs0fr : free_frame st s0) by (unfold s0; frame_tac).
  rewrite Hs0m.
  destruct (reset_fold (memory_chunks st) [] s0) as (H1 & H2 & H3 & H4 & H5 & H6 & H7);
    [constructor|done|set_solver|done|done|done|].
  set (F := foldl reset_step s0 (memory_chunks st)) in *. clearbody F s0.
  pose proof (free_frame_trans _ _ _ Hs0fr H5) as HF. clear H5 Hs0fr.
  unfold free_frame in HF. destruct HF as (HFt & HFm & _ & _ & HFs & HFmd & HFl & _).
  cbn [heap_top memory_chunks small_allocator medium_allocator large_allocator hdrs blocks
       set_thread_cache set_active_scope_count set_segregated_free_lists set_scope_lookup set_scope_stack].
  split; [done|]. split; [done|]. split; [intros []; simpl; congruence|].
  intros x Hx Ht.
  assert (Hxn : x ∉ memory_chunks st).
  { intros Hc. destruct (fixed_not_pool st x x Hw Hx Ht Hc) as [?|?]; [unfold POOL_SIZE in *; lia|].
    pose proof (wf_size _ Hw x Hx). unfold bend, HEADER_SIZE in *. lia. }
  split; [rewrite H7; apply elem_of_union; right; by apply Hs0b|].
  rewrite H6 by done. by rewrite Hs0h.
Qed.

Lemma reset_keeps_slabs_witness :
  wf (new_pool true 4096) /\
  heap_top (reset (new_pool true 4096)) = heap_top (new_pool true 4096) /\
  memory_chunks (reset (new_pool true 4096)) = memory_chunks (new_pool true 4096) /\
  (forall c, get_slab c (reset (new_pool true 4096)) = get_slab c (new_pool true 4096)) /\
  (forall x, x ∈ blocks (new_pool true 4096) -> tagged (new_pool true 4096) x FIXED_SIZE ->
     x ∈ blocks (reset (new_pool true 4096)) /\
     hdrs (reset (new_pool true 4096)) !! x = hdrs (new_pool true 4096) !! x).
Proof.
  assert (Hw : wf (new_pool true 4096)) by (apply wf_new_pool; lia).
  split; [exact Hw|]. exact (reset_keeps_slabs _ Hw).
Defined.



Create Rewrite HintDb scope_view.

Lemma view_upd_hdr f b st : scope_view (upd_hdr f b st) = scope_view st.
Proof. reflexivity. Qed.
Lemma view_init_block p n s st : scope_view (init_block p n s st) = scope_view st.
Proof. reflexivity. Qed.
Lemma view_stat_alloc n st : scope_view (stat_alloc n st) = scope_view st.
Proof. reflexivity. Qed.
Lemma view_stat_dealloc n st : scope_view (stat_dealloc n st) = scope_view st.
Proof. reflexivity. Qed.
Lemma view_set_seg_list i l st : scope_view (set_seg_list i l st) = scope_view st.
Proof. reflexivity. Qed.
Lemma view_set_blocks v st : scope_view (set_blocks v st) = scope_view st.
Proof. reflexivity. Qed.
Lemma view_set_slab c s st : scope_view (set_slab c s st) = scope_view st.
Proof. by destruct c. Qed.
Lemma view_set_slab_free c l st : scope_view (set_slab_free c l st) = scope_view st.
Proof. by destruct c. Qed.
Lemma view_set_cache c l st : scope_view (set_cache c l st) = scope_view st.
Proof. by destruct c. Qed.
Lemma view_free_frame st st' : free_frame st st' -> scope_view st' = scope_view st.
Proof. unfold free_frame, scope_view. intros H. destruct_and!. congruence. Qed.
Lemma view_insert b s ac st : scope_view (insert_free_block b s ac st) = scope_view st.
Proof. apply view_free_frame, insert_frame. Qed.
Lemma view_detach b st : scope_view (detach_free_block b st) = scope_view st.
Proof. reflexivity. Qed.

#[local] Hint Rewrite view_upd_hdr view_init_block view_stat_alloc view_stat_dealloc
  view_set_seg_list view_set_blocks view_set_slab view_set_slab_free view_set_cache
  view_insert view_detach : scope_view.

Lemma view_add_new_chunk st : scope_view (add_new_chunk st) = scope_view st.
Proof. unfold add_new_chunk, obtain_chunk. cbn zeta. autorewrite with scope_view. reflexivity. Qed.
#[local] Hint Rewrite view_add_new_chunk : scope_view.

Lemma view_best_fit_take s b st : scope_view (best_fit_take s b st).1 = scope_view st.
Proof.
  unfold best_fit_take. cbn zeta. case_match; cbn [fst]; autorewrite with scope_view; reflexivity.
Qed.
#[local] Hint Rewrite view_best_fit_take : scope_view.

Lemma view_allocate_best_fit s st : scope_view (allocate_best_fit s st).1 = scope_view st.
Proof.
  unfold allocate_best_fit. cbn zeta.
  destruct (mm_lower_bound _ _) as [[]|]; autorewrite with scope_view; [reflexivity|].
  destruct (mm_lower_bound _ _) as [[]|]; cbn [fst]; autorewrite with scope_view; reflexivity.
Qed.
#[local] Hint Rewrite view_allocate_best_fit : scope_view.

Lemma view_pool_take b st : scope_view (pool_take b st).1 = scope_view st.
Proof. unfold pool_take. cbn zeta; cbn [fst]. autorewrite with scope_view. reflexivity. Qed.
#[local] Hint Rewrite view_pool_take : scope_view.

Lemma view_allocate_from_pool s st : scope_view (allocate_from_pool s st).1 = scope_view st.
Proof.
  unfold allocate_from_pool. cbn zeta.
  destruct (mm_lower_bound _ _) as [[]|]; autorewrite with scope_view; [reflexivity|].
  destruct (mm_lower_bound _ _) as [[]|]; cbn [fst]; autorewrite with scope_view; reflexivity.
Qed.
#[local] Hint Rewrite view_allocate_from_pool : scope_view.

Lemma view_carve fuel cs cur tot hd st : scope_view (carve fuel cs cur tot hd st).2 = scope_view st.
Proof.
  revert cur tot hd st. induction fuel as [|fuel IH]; intros cur tot hd st; [reflexivity|].
  cbn [carve]. case_match; [|reflexivity]. rewrite IH. reflexivity.
Qed.

Lemma view_replenish i st : scope_view (replenish_segregated_class i st) = scope_view st.
Proof.
  unfold replenish_segregated_class. cbn zeta.
  case_match; [reflexivity|]. case_match; [autorewrite with scope_view; reflexivity|].
  match goal with |- context [carve ?f ?cs ?c ?t ?h ?s] =>
    pose proof (view_carve f cs c t h s) as Hc; destruct (carve f cs c t h s) as [[[cur tot] hd] st'] end.
  cbn [snd] in Hc. autorewrite with scope_view in Hc.
  assert (Hh : scope_view (match hd with [] => st' | _ :: _ => set_seg_list i (hd ++ seg_list st' i) st' end)
               = scope_view st') by (destruct hd; reflexivity).
  revert Hh. generalize (match hd with [] => st' | _ :: _ => set_seg_list i (hd ++ seg_list st' i) st' end).
  intros st'' Hh. case_match; autorewrite with scope_view; congruence.
Qed.
#[local] Hint Rewrite view_replenish : scope_view.

Lemma view_allocate_segregated s st : scope_view (allocate_segregated s st).1 = scope_view st.
Proof.
  unfold allocate_segregated. cbn zeta.
  case_match; [autorewrite with scope_view; reflexivity|].
  assert (Hh : scope_view (match seg_list st (select_segregated_class s) with
                           | [] => replenish_segregated_class (select_segregated_class s) st
                           | _ :: _ => st end) = scope_view st)
    by (case_match; autorewrite with scope_view; reflexivity).
  revert Hh. generalize (match seg_list st (select_segregated_class s) with
                           | [] => replenish_segregated_class (select_segregated_class s) st
                           | _ :: _ => st end). intros st' Hh.
  case_match; cbn [fst]; autorewrite with scope_view; exact Hh.
Qed.
#[local] Hint Rewrite view_allocate_segregated : scope_view.

Lemma view_slab_fill n ch sd i fr st : scope_view (slab_fill n ch sd i fr st).2 = scope_view st.
Proof.
  revert i fr st. induction n as [|n IH]; intros i fr st; [reflexivity|].
  cbn [slab_fill]. rewrite IH. reflexivity.
Qed.

Lemma view_slab_add_new_chunk c st : scope_view (slab_add_new_chunk c st) = scope_view st.
Proof.
  unfold slab_add_new_chunk, obtain_chunk. cbn zeta.
  match goal with |- context [slab_fill ?n ?ch ?sd ?i ?fr ?s] =>
    pose proof (view_slab_fill n ch sd i fr s) as Hf; destruct (slab_fill n ch sd i fr s) as [fr' st'] end.
  cbn [snd] in Hf. autorewrite with scope_view. rewrite Hf. reflexivity.
Qed.
#[local] Hint Rewrite view_slab_add_new_chunk : scope_view.

Lemma view_slab_allocate c st : scope_view (slab_allocate c st).1 = scope_view st.
Proof.
  unfold slab_allocate. cbn zeta.
  assert (Hh : scope_view (match slab_free (get_slab c st) with
                           | [] => slab_add_new_chunk c st | _ :: _ => st end) = scope_view st)
    by (case_match; autorewrite with scope_view; reflexivity).
  revert Hh. generalize (match slab_free (get_slab c st) with
                           | [] => slab_add_new_chunk c st | _ :: _ => st end). intros st' Hh.
  case_match; cbn [fst]; autorewrite with scope_view; exact Hh.
Qed.
#[local] Hint Rewrite view_slab_allocate : scope_view.

Lemma view_slab_deallocate c p st : scope_view (slab_deallocate c p st) = scope_view st.
Proof. unfold slab_deallocate. case_match; [reflexivity|]. cbn zeta. autorewrite with scope_view. reflexivity. Qed.
#[local] Hint Rewrite view_slab_deallocate : scope_view.

Lemma view_refill_loop k c st : scope_view (refill_loop k c st) = scope_view st.
Proof.
  revert st. induction k as [|k IH]; intros st; [reflexivity|].
  cbn [refill_loop]. case_match; [|reflexivity].
  unfold slab_allocate_raw. destruct (slab_free (get_slab c st)); [reflexivity|].
  rewrite IH. autorewrite with scope_view. reflexivity.
Qed.

Lemma view_acquire_from_cache c st : scope_view (acquire_from_cache c st).1 = scope_view st.
Proof.
  unfold acquire_from_cache, refill_cache.
  assert (Hh : forall st' early,
     (st', early) = match get_cache c st with
       | [] => match get_cache c (refill_loop (refill_batch c) c st) with
               | [] => let '(st0, r) := slab_allocate c (refill_loop (refill_batch c) c st) in (st0, Some r)
               | _ :: _ => (refill_loop (refill_batch c) c st, None) end
       | _ :: _ => (st, None) end -> scope_view st' = scope_view st).
  { intros st' early E. destruct (get_cache c st); [|congruence].
    destruct (get_cache c (refill_loop _ c st)).
    - pose proof (view_slab_allocate c (refill_loop (refill_batch c) c st)) as Hs.
      destruct (slab_allocate c _) as [st0 r]. inversion E; subst. cbn [fst] in Hs.
      rewrite Hs. apply view_refill_loop.
    - inversion E; subst. apply view_refill_loop. }
  destruct (match get_cache c st with | [] => _ | _ :: _ => _ end) as [st' early] eqn:E.
  specialize (Hh st' early eq_refl).
  destruct early as [r|]; [exact Hh|].
  destruct (get_cache c st'); cbn [fst]; autorewrite with scope_view; exact Hh.
Qed.
#[local] Hint Rewrite view_acquire_from_cache : scope_view.

Lemma view_fixed_path a st : scope_view (fixed_path a st).1 = scope_view st.
Proof. unfold fixed_path. case_match; autorewrite with scope_view; reflexivity. Qed.

Lemma view_general_alloc eff a st :
  scope_view (match eff with
              | BEST_FIT => allocate_best_fit a st
              | POOL_BASED => allocate_from_pool a st
              | SEGREGATED => allocate_segregated a st
              | FIXED_SIZE => allocate_best_fit a st
              end).1 = scope_view st.
Proof. destruct eff; autorewrite with scope_view; reflexivity. Qed.

Lemma view_release_to_cache c p st : scope_view (release_to_cache c p st).1 = scope_view st.
Proof. unfold release_to_cache. case_match; cbn zeta; cbn [fst]; autorewrite with scope_view; reflexivity. Qed.

Lemma view_release_fixed c p st : scope_view (release_fixed c p st) = scope_view st.
Proof.
  unfold release_fixed. pose proof (view_release_to_cache c p st) as Hr.
  destruct (release_to_cache c p st) as [st' []]; cbn [fst] in Hr; autorewrite with scope_view; exact Hr.
Qed.

Lemma view_deallocate_block b st : scope_view (deallocate_block b st) = scope_view st.
Proof. unfold deallocate_block. cbn zeta. autorewrite with scope_view. reflexivity. Qed.

Lemma view_release_segregated b st : scope_view (release_segregated b st) = scope_view st.
Proof. unfold release_segregated. cbn zeta. case_match; autorewrite with scope_view; reflexivity. Qed.

(** The part of [deallocate] after the scope bookkeeping. *)
Lemma view_dealloc_tail p st :
  scope_view (match hdrs st !! (p - HEADER_SIZE) with
    | Some h =>
        match strategy h with
        | FIXED_SIZE =>
            if size h <=? 32 then release_fixed Small p st
            else if size h <=? 128 then release_fixed Medium p st
            else if size h <=? 256 then release_fixed Large p st
            else deallocate_block (p - HEADER_SIZE) st
        | SEGREGATED => release_segregated (p - HEADER_SIZE) st
        | _ => deallocate_block (p - HEADER_SIZE) st
        end
    | None => st
    end) = scope_view st.
Proof.
  repeat case_match; rewrite ?view_release_fixed, ?view_deallocate_block, ?view_release_segregated; reflexivity.
Qed.

(** A block in use at [b], with header [h], survives the free-list
    operations on other blocks. *)
Section InUse.
Variables (b : Z) (h : MemoryBlock).
Hypothesis Hnf : is_free h = false.

Lemma inuse_upd g y s : y <> b -> b ∈ blocks s /\ hdrs s !! b = Some h ->
  b ∈ blocks (upd_hdr g y s) /\ hdrs (upd_hdr g y s) !! b = Some h.
Proof. intros Hy [Hb Hh]. split; [exact Hb|]. rewrite lookup_upd_hdr, decide_False; done. Qed.

Lemma inuse_minus y s : y <> b -> b ∈ blocks s /\ hdrs s !! b = Some h ->
  b ∈ blocks (set_blocks (blocks s ∖ {[y]}) s) /\ hdrs (set_blocks (blocks s ∖ {[y]}) s) !! b = Some h.
Proof. intros Hy [Hb Hh]. cbn. split; [set_solver|exact Hh]. Qed.

Lemma inuse_fl l s : b ∈ blocks s /\ hdrs s !! b = Some h ->
  b ∈ blocks (set_free_list l s) /\ hdrs (set_free_list l s) !! b = Some h.
Proof. done. Qed.

Lemma inuse_rm y s : b ∈ blocks s /\ hdrs s !! b = Some h ->
  b ∈ blocks (remove_from_size_index y s) /\ hdrs (remove_from_size_index y s) !! b = Some h.
Proof. done. Qed.

Lemma inuse_add y s : b ∈ blocks s /\ hdrs s !! b = Some h ->
  b ∈ blocks (add_to_size_index y s) /\ hdrs (add_to_size_index y s) !! b = Some h.
Proof. done. Qed.

Lemma inuse_fbf y s : b ∈ blocks s /\ hdrs s !! b = Some h -> free_bf_b s y = true -> y <> b.
Proof. intros [_ Hh] Hf ->. unfold free_bf_b in Hf. rewrite Hh, Hnf in Hf. discriminate. Qed.

Lemma inuse_coalesce x s : x <> b -> b ∈ blocks s /\ hdrs s !! b = Some h ->
  b ∈ blocks (coalesce_neighbors x s) /\ hdrs (coalesce_neighbors x s) !! b = Some h.
Proof.
  intros Hx Hs. unfold coalesce_neighbors. destruct (negb (is_bf s x)); [exact Hs|]. cbv zeta.
  assert (H1 := inuse_rm x s Hs).
  set (s1 := remove_from_size_index x s) in *.
  set (F := fun s2 =>
    let '(current, st) :=
      match prev_of x (free_list s2) with
      | Some prv =>
          if free_bf_b s2 prv && adjacent s2 prv x then
            let st := remove_from_size_index prv s2 in
            let st := upd_hdr (fun h => with_size (wrap (size h + wrap (bsize st x + HEADER_SIZE))) h) prv st in
            let st := set_free_list (list_remove x (free_list st)) st in
            (prv, set_blocks (blocks st ∖ {[x]}) st)
          else (x, s2)
      | None => (x, s2)
      end in
    add_to_size_index current st).
  assert (Hprev : forall s2, b ∈ blocks s2 /\ hdrs s2 !! b = Some h ->
    b ∈ blocks (F s2) /\ hdrs (F s2) !! b = Some h).
  { intros s2 H2. subst F. cbv beta.
    destruct (prev_of x (free_list s2)) as [prv|]; [|by apply inuse_add].
    destruct (free_bf_b s2 prv && adjacent s2 prv x) eqn:E; [|by apply inuse_add].
    apply andb_prop in E as [E _]. pose proof (inuse_fbf prv s2 H2 E) as Hn. cbv zeta.
    apply inuse_add, inuse_minus; [exact Hx|]. apply inuse_fl, inuse_upd; [exact Hn|]. by apply inuse_rm. }
  change (b ∈ blocks (F (match next_of x (free_list s1) with
    | Some nxt =>
        if free_bf_b s1 nxt && adjacent s1 x nxt then
          let st := remove_from_size_index nxt s1 in
          let st := upd_hdr (fun h => with_size (wrap (size h + wrap (bsize st nxt + HEADER_SIZE))) h) x st in
          let st := set_free_list (list_remove nxt (free_list st)) st in
          set_blocks (blocks st ∖ {[nxt]}) st
        else s1
    | None => s1
    end)) /\ hdrs (F (match next_of x (free_list s1) with
    | Some nxt =>
        if free_bf_b s1 nxt && adjacent s1 x nxt then
          let st := remove_from_size_index nxt s1 in
          let st := upd_hdr (fun h => with_size (wrap (size h + wrap (bsize st nxt + HEADER_SIZE))) h) x st in
          let st := set_free_list (list_remove nxt (free_list st)) st in
          set_blocks (blocks st ∖ {[nxt]}) st
        else s1
    | None => s1
    end)) !! b = Some h).
  destruct (next_of x (free_list s1)) as [nxt|]; [|exact (Hprev s1 H1)].
  destruct (free_bf_b s1 nxt && adjacent s1 x nxt) eqn:E; [|exact (Hprev s1 H1)].
  apply andb_prop in E as [E _]. pose proof (inuse_fbf nxt s1 H1 E) as Hn.
  apply Hprev. apply inuse_minus; [exact Hn|]. apply inuse_fl, inuse_upd; [exact Hx|]. by apply inuse_rm.
Qed.

Lemma inuse_insert x s ac st : x <> b -> b ∈ blocks st /\ hdrs st !! b = Some h ->
  b ∈ blocks (insert_free_block x s ac st) /\ hdrs (insert_free_block x s ac st) !! b = Some h.
Proof.
  intros Hx Hs. unfold insert_free_block.
  assert (H1 := inuse_upd (with_free_strat true s) x st Hx Hs).
  destruct (walk _ _) as [bf af]. cbv zeta.
  assert (H2 := inuse_add x _ (inuse_fl (bf ++ x :: af) _ H1)).
  case_match; [by apply inuse_coalesce|exact H2].
Qed.

End InUse.

Lemma live_finish st n g b :
  b ∈ blocks st -> is_Some (hdrs st !! b) -> (forall h, is_free (g h) = false) ->
  live (stat_alloc n (upd_hdr g b st)) (b + HEADER_SIZE).
Proof.
  intros Hb [h Hh] Hg. unfold live. replace (b + HEADER_SIZE - HEADER_SIZE) with b by lia.
  split; [exact Hb|]. exists (g h). split; [|apply Hg].
  cbn [hdrs stat_alloc set_stats]. rewrite lookup_upd_hdr, decide_True by done. by rewrite Hh.
Qed.

Lemma best_fit_take_live st size b :
  wf st -> b ∈ free_list st -> 0 <= size ->
  (best_fit_take size b st).2 = Some (b + HEADER_SIZE) /\ live (best_fit_take size b st).1 (b + HEADER_SIZE).
Proof.
  intros Hwf Hfl Hs. destruct (fl_block_facts st b Hwf Hfl) as (h & Hh & _ & _ & Hb & _).
  split; [reflexivity|]. unfold best_fit_take. cbv zeta. cbn [fst].
  set (s1 := detach_free_block b st).
  assert (H1 : b ∈ blocks s1 /\ hdrs s1 !! b = Some (with_free false h))
    by (split; [subst s1; by rewrite blocks_detach|by apply hdrs_detach_eq]).
  assert (H2 : b ∈ blocks (if bsize s1 b >=? wrap (wrap (size + HEADER_SIZE) + MIN_SPLIT_PAYLOAD) then
      insert_free_block (b + HEADER_SIZE + size) BEST_FIT true
        (upd_hdr (with_size size) b
           (init_block (b + HEADER_SIZE + size) (wrap (bsize s1 b - size)) BEST_FIT s1))
    else s1) /\ is_Some (hdrs (if bsize s1 b >=? wrap (wrap (size + HEADER_SIZE) + MIN_SPLIT_PAYLOAD) then
      insert_free_block (b + HEADER_SIZE + size) BEST_FIT true
        (upd_hdr (with_size size) b
           (init_block (b + HEADER_SIZE + size) (wrap (bsize s1 b - size)) BEST_FIT s1))
    else s1) !! b)).
  { case_match; [|destruct H1 as [H1a H1b]; split; [exact H1a|by rewrite H1b]].
    assert (Hne : b + HEADER_SIZE + size <> b) by (unfold HEADER_SIZE; lia).
    destruct (inuse_insert b (with_size size (with_free false h)) ltac:(reflexivity)
                (b + HEADER_SIZE + size) BEST_FIT true
                (upd_hdr (with_size size) b
                  (init_block (b + HEADER_SIZE + size) (wrap (bsize s1 b - size)) BEST_FIT s1)) Hne)
      as [Ha Hb'].
    - destruct H1 as [H1a H1b]. split.
      + cbn [blocks upd_hdr init_block set_hdrs set_blocks]. set_solver.
      + rewrite lookup_upd_hdr, decide_True by done. cbn [hdrs init_block set_hdrs set_blocks].
        rewrite lookup_insert_ne by congruence. by rewrite H1b.
    - split; [exact Ha|by rewrite Hb']. }
  destruct H2 as [H2a H2b]. apply live_finish; [exact H2a|exact H2b|reflexivity].
Qed.

Lemma pool_take_live st b :
  wf st -> b ∈ free_list st ->
  (pool_take b st).2 = Some (b + HEADER_SIZE) /\ live (pool_take b st).1 (b + HEADER_SIZE).
Proof.
  intros Hwf Hfl. destruct (fl_block_facts st b Hwf Hfl) as (h & Hh & _ & _ & Hb & _).
  split; [reflexivity|]. unfold pool_take. cbv zeta. cbn [fst].
  apply live_finish; [by rewrite blocks_detach|by rewrite (hdrs_detach_eq b st h Hh)|reflexivity].
Qed.

Lemma allocate_best_fit_live st size p :
  wf st -> 0 <= size -> (allocate_best_fit size st).2 = Some p -> live (allocate_best_fit size st).1 p.
Proof.
  intros Hwf Hs. unfold allocate_best_fit.
  destruct (mm_lower_bound size (size_index st)) as [[k b]|] eqn:E.
  - destruct (lb_some _ _ _ _ Hwf E) as (Hb & _).
    destruct (best_fit_take_live st size b Hwf Hb Hs) as [-> Hl]. by intros [= <-].
  - destruct (add_new_chunk_ok st Hwf) as [Hwf1 _].
    destruct (mm_lower_bound size (size_index (add_new_chunk st))) as [[k b]|] eqn:E'; [|discriminate].
    destruct (lb_some _ _ _ _ Hwf1 E') as (Hb & _).
    destruct (best_fit_take_live _ size b Hwf1 Hb Hs) as [-> Hl]. by intros [= <-].
Qed.

Lemma allocate_from_pool_live st size p :
  wf st -> (allocate_from_pool size st).2 = Some p -> live (allocate_from_pool size st).1 p.
Proof.
  intros Hwf. unfold allocate_from_pool.
  destruct (mm_lower_bound size (size_index st)) as [[k b]|] eqn:E.
  - destruct (lb_some _ _ _ _ Hwf E) as (Hb & _).
    destruct (pool_take_live st b Hwf Hb) as [-> Hl]. by intros [= <-].
  - destruct (add_new_chunk_ok st Hwf) as [Hwf1 _].
    destruct (mm_lower_bound size (size_index (add_new_chunk st))) as [[k b]|] eqn:E'; [|discriminate].
    destruct (lb_some _ _ _ _ Hwf1 E') as (Hb & _).
    destruct (pool_take_live _ b Hwf1 Hb) as [-> Hl]. by intros [= <-].
Qed.

Lemma allocate_segregated_live st size p :
  wf st -> 0 <= size -> (allocate_segregated size st).2 = Some p -> live (allocate_segregated size st).1 p.
Proof.
  intros Hwf Hs. unfold allocate_segregated. cbv zeta.
  case_match; [by apply allocate_best_fit_live|].
  assert (Hw1 : wf (match seg_list st (select_segregated_class size) with
                    | [] => replenish_segregated_class (select_segregated_class size) st
                    | _ :: _ => st end)) by (case_match; [by apply wf_replenish|exact Hwf]).
  revert Hw1. generalize (match seg_list st (select_segregated_class size) with
                    | [] => replenish_segregated_class (select_segregated_class size) st
                    | _ :: _ => st end). intros st1 Hw1.
  destruct (seg_list st1 (select_segregated_class size)) as [|b rest] eqn:El;
    [by apply allocate_best_fit_live|].
  destruct (seg_list_mem st1 _ b Hw1 ltac:(rewrite El; left)) as (Hb & h & Hh & _).
  cbn [fst snd]. intros [= <-].
  apply live_finish; [exact Hb|cbn; by rewrite Hh|reflexivity].
Qed.

Lemma slab_allocate_live c st p :
  wf st -> (slab_allocate c st).2 = Some p -> live (slab_allocate c st).1 p.
Proof.
  intros Hwf. unfold slab_allocate. cbv zeta.
  assert (Hw1 : wf (match slab_free (get_slab c st) with
                    | [] => slab_add_new_chunk c st | _ :: _ => st end))
    by (case_match; [by apply wf_slab_add_new_chunk|exact Hwf]).
  revert Hw1. generalize (match slab_free (get_slab c st) with
                    | [] => slab_add_new_chunk c st | _ :: _ => st end). intros st1 Hw1.
  destruct (slab_free (get_slab c st1)) as [|b rest] eqn:El; [discriminate|].
  destruct (slab_pop_ok c st1 b rest Hw1 El) as (_ & Hb & h & Hh & _).
  cbn [fst snd]. intros [= <-].
  apply live_finish; [by rewrite blocks_set_slab_free|rewrite hdrs_set_slab_free, Hh; done|reflexivity].
Qed.

Lemma acquire_from_cache_live c st p :
  wf st -> (acquire_from_cache c st).2 = Some p -> live (acquire_from_cache c st).1 p.
Proof.
  intros Hwf. unfold acquire_from_cache, refill_cache.
  assert (Hh : forall st1 early,
     (st1, early) = match get_cache c st with
       | [] => match get_cache c (refill_loop (refill_batch c) c st) with
               | [] => let '(st0, r) := slab_allocate c (refill_loop (refill_batch c) c st) in (st0, Some r)
               | _ :: _ => (refill_loop (refill_batch c) c st, None) end
       | _ :: _ => (st, None) end ->
     wf st1 /\ forall r, early = Some (Some r) -> live st1 r).
  { intros st1 early E. pose proof (wf_refill_loop (refill_batch c) c st Hwf) as Hr.
    destruct (get_cache c st); [|inversion E; subst; split; [exact Hwf|discriminate]].
    destruct (get_cache c (refill_loop _ c st)).
    - pose proof (slab_allocate_live c (refill_loop (refill_batch c) c st) ) as Hs.
      pose proof (wf_slab_allocate c (refill_loop (refill_batch c) c st) Hr) as Hw.
      destruct (slab_allocate c _) as [st0 r]. inversion E; subst. cbn [fst snd] in Hs, Hw.
      split; [exact Hw|]. intros r' [= ->]. by apply Hs.
    - inversion E; subst. split; [exact Hr|discriminate]. }
  destruct (match get_cache c st with | [] => _ | _ :: _ => _ end) as [st1 early] eqn:E.
  destruct (Hh st1 early eq_refl) as [Hw1 Hl].
  destruct early as [r|].
  - cbn [fst snd]. intros ->. by apply Hl.
  - destruct (get_cache c st1) as [|ptr rest] eqn:Ec; cbn [fst snd]; [discriminate|].
    intros [= <-].
    pose proof (wf_cache _ (wf_base _ Hw1) c ptr ltac:(rewrite Ec; left)) as [Hb [h [Hh' _]]].
    pose proof (live_finish (set_cache c rest st1)
      (bsize (upd_hdr (with_free_strat false FIXED_SIZE) (ptr - HEADER_SIZE) (set_cache c rest st1))
             (ptr - HEADER_SIZE)) (with_free_strat false FIXED_SIZE) (ptr - HEADER_SIZE)) as HL.
    rewrite Z.sub_add in HL. apply HL; [by rewrite blocks_set_cache|rewrite hdrs_set_cache, Hh'; done|reflexivity].
Qed.

(** What [allocate] returns is a payload the client may pass to
    [deallocate]: the block behind it is a block of the pool, in use. *)
Theorem allocate_result_live (size : Z) (s : AllocationStrategy) (st : MemoryPool) (p : Z)
    (Hwf : wf st) (Hp : (allocate size s st).2 = Some p) :
  live (allocate size s st).1 p.
Proof.
  revert Hp. unfold allocate. cbv zeta.
  pose proof (align_size_nonneg size) as Ha.
  assert (Hg : forall st1, wf st1 ->
     (general_path (effective_strategy (align_size size) s) (align_size size) st1).2 = Some p ->
     live (general_path (effective_strategy (align_size size) s) (align_size size) st1).1 p).
  { intros st1 Hw1. unfold general_path.
    assert (Hl : (match effective_strategy (align_size size) s with
              | BEST_FIT => allocate_best_fit (align_size size) st1
              | POOL_BASED => allocate_from_pool (align_size size) st1
              | SEGREGATED => allocate_segregated (align_size size) st1
              | FIXED_SIZE => allocate_best_fit (align_size size) st1
              end).2 = Some p ->
              live (match effective_strategy (align_size size) s with
              | BEST_FIT => allocate_best_fit (align_size size) st1
              | POOL_BASED => allocate_from_pool (align_size size) st1
              | SEGREGATED => allocate_segregated (align_size size) st1
              | FIXED_SIZE => allocate_best_fit (align_size size) st1
              end).1 p)
      by (destruct (effective_strategy _ _); auto using allocate_best_fit_live,
            allocate_from_pool_live, allocate_segregated_live).
    destruct (match effective_strategy (align_size size) s with BEST_FIT => _ | POOL_BASED => _
              | SEGREGATED => _ | FIXED_SIZE => _ end) as [st2 [q|]]; cbn [fst snd] in Hl |- *;
      [|discriminate].
    intros [= ->]. apply (scope_frame_live st2); [apply register_frame|by apply Hl]. }
  destruct (strat_eqb _ FIXED_SIZE); [|exact (Hg st Hwf)].
  assert (Hf : wf (fixed_path (align_size size) st).1 /\
               ((fixed_path (align_size size) st).2 = Some p -> live (fixed_path (align_size size) st).1 p)).
  { unfold fixed_path. case_match; [split; [by apply wf_acquire_from_cache|by apply acquire_from_cache_live]|].
    split; [exact Hwf|discriminate]. }
  destruct (fixed_path (align_size size) st) as [st1 [q|]]; cbn [fst snd] in Hf |- *; destruct Hf as [Hw1 Hl].
  - intros [= ->]. apply (scope_frame_live st1); [apply fixed_register_frame|by apply Hl].
  - exact (Hg st1 Hw1).
Qed.

Lemma allocate_result_live_witness :
  wf (new_pool false 0) /\ (allocate 100 POOL_BASED (new_pool false 0)).2 = Some 196704 /\
  live (allocate 100 POOL_BASED (new_pool false 0)).1 196704.
Proof.
  assert (Hw : wf (new_pool false 0)) by (apply wf_new_pool; lia).
  assert (Hp : (allocate 100 POOL_BASED (new_pool false 0)).2 = Some 196704) by (vm_compute; reflexivity).
  split; [exact Hw|]. split; [exact Hp|]. exact (allocate_result_live 100 POOL_BASED _ 196704 Hw Hp).
Defined.

(** [end_scope] undoes [begin_scope]: opening an empty scope and closing it
    again gives back the pool, as long as the scope counter does not wrap. *)
Theorem end_scope_begin_scope (st : MemoryPool) (Hc : 0 <= active_scope_count st < SIZE_MAX) :
  end_scope (begin_scope st) = st.
Proof.
  unfold end_scope, end_scope_pop, begin_scope. cbn [scope_stack set_active_scope_count set_scope_stack].
  rewrite last_snoc. cbn [foldl scope_lookup set_scope_lookup set_scope_stack set_active_scope_count
    scope_stack active_scope_count].
  rewrite removelast_last.
  assert (Hw : wrap (wrap (active_scope_count st + 1) - 1) = active_scope_count st).
  { unfold wrap, SIZE_MAX in *. rewrite Z.mod_small with (a := active_scope_count st + 1) by lia.
    rewrite Z.mod_small; lia. }
  rewrite Hw. destruct st; reflexivity.
Qed.

Lemma register_in_scope_top p st pre top :
  scope_stack st = pre ++ [top] ->
  scope_stack (register_in_scope p st) = pre ++ [top ++ [p]] /\
  scope_lookup (register_in_scope p st) = <[p := (length pre, length top)]> (scope_lookup st).
Proof.
  intros Hs. unfold register_in_scope. rewrite Hs, last_snoc. cbn.
  rewrite length_app. cbn. replace (length pre + 1 - 1)%nat with (length pre) by lia.
  split; [|reflexivity].
  rewrite insert_app_r_alt by lia. rewrite Nat.sub_diag. reflexivity.
Qed.

(** A payload [allocate] returns is appended to the innermost open scope and
    indexed by its scope and position there; the fixed-size path registers
    it only in thread-safe mode with a scope open. *)
Theorem allocate_registers_in_scope (size : Z) (s : AllocationStrategy) (st : MemoryPool)
    (pre : list (list Z)) (top : list Z) (p : Z)
    (Hmode : (thread_safe st && (0 <? active_scope_count st)) = true \/
             effective_strategy (align_size size) s <> FIXED_SIZE)
    (Hs : scope_stack st = pre ++ [top])
    (Hp : (allocate size s st).2 = Some p) :
  scope_stack (allocate size s st).1 = pre ++ [top ++ [p]] /\
  scope_lookup (allocate size s st).1 = <[p := (length pre, length top)]> (scope_lookup st).
Proof.
  unfold allocate in *. cbn zeta in *.
  assert (Hg : forall st', scope_view st' = scope_view st ->
     (general_path (effective_strategy (align_size size) s) (align_size size) st').2 = Some p ->
     scope_stack (general_path (effective_strategy (align_size size) s) (align_size size) st').1
       = pre ++ [top ++ [p]] /\
     scope_lookup (general_path (effective_strategy (align_size size) s) (align_size size) st').1
       = <[p := (length pre, length top)]> (scope_lookup st)).
  { intros st' Hv Hr. unfold general_path in *.
    pose proof (view_general_alloc (effective_strategy (align_size size) s) (align_size size) st') as Ha.
    destruct (match effective_strategy (align_size size) s with
              | BEST_FIT => _ | POOL_BASED => _ | SEGREGATED => _ | FIXED_SIZE => _ end) as [st0 [r|]].
    2: discriminate.
    cbn [fst snd] in *. inversion Hr; subst r. rewrite Hv in Ha.
    unfold scope_view in Ha. injection Ha as _ _ Hss Hsl.
    rewrite <- Hsl. apply register_in_scope_top. congruence. }
  destruct (strat_eqb _ FIXED_SIZE) eqn:Ef.
  - pose proof (view_fixed_path (align_size size) st) as Hv.
    destruct (fixed_path (align_size size) st) as [st' [q|]].
    + cbn [fst snd] in *. inversion Hp; subst q.
      destruct Hmode as [Hm|Hm].
      2: { exfalso. apply Hm. unfold strat_eqb in Ef. by apply bool_decide_eq_true in Ef. }
      unfold fixed_register. unfold scope_view in Hv. injection Hv as Hts Hc Hss Hsl.
      rewrite Hts, Hc, Hm. rewrite <- Hsl. apply register_in_scope_top. congruence.
    + cbn [fst snd] in *. exact (Hg st' Hv Hp).
  - exact (Hg st eq_refl Hp).
Qed.

Lemma allocate_registers_in_scope_witness :
  ((thread_safe (begin_scope (new_pool true 4096)) &&
     (0 <? active_scope_count (begin_scope (new_pool true 4096)))) = true \/
   effective_strategy (align_size 24) BEST_FIT <> FIXED_SIZE) /\
  scope_stack (begin_scope (new_pool true 4096)) = [] ++ [[]] /\
  (allocate 24 BEST_FIT (begin_scope (new_pool true 4096))).2 = Some 65584 /\
  scope_stack (allocate 24 BEST_FIT (begin_scope (new_pool true 4096))).1 = [] ++ [[] ++ [65584]] /\
  scope_lookup (allocate 24 BEST_FIT (begin_scope (new_pool true 4096))).1 =
    <[65584 := (length (@nil (list Z)), length (@nil Z))]> (scope_lookup (begin_scope (new_pool true 4096))).
Proof.
  assert (Hm : (thread_safe (begin_scope (new_pool true 4096)) &&
     (0 <? active_scope_count (begin_scope (new_pool true 4096)))) = true \/
   effective_strategy (align_size 24) BEST_FIT <> FIXED_SIZE) by (left; vm_compute; reflexivity).
  assert (Hs : scope_stack (begin_scope (new_pool true 4096)) = [] ++ [[]]) by (vm_compute; reflexivity).
  assert (Hp : (allocate 24 BEST_FIT (begin_scope (new_pool true 4096))).2 = Some 65584)
    by (vm_compute; reflexivity).
  split; [exact Hm|]. split; [exact Hs|]. split; [exact Hp|].
  exact (allocate_registers_in_scope 24 BEST_FIT _ [] [] 65584 Hm Hs Hp).
Defined.

Lemma insert_Permutation (l : list Z) i x y :
  l !! i = Some x -> <[i := y]> l ≡ₚ y :: delete i l.
Proof.
  intros Hi. pose proof (lookup_lt_Some _ _ _ Hi).
  rewrite insert_take_drop, delete_take_drop by done.
  by rewrite Permutation_middle.
Qed.

Lemma unregister_scope_spec (st : MemoryPool) (p : Z) (si pos : nat) (scope : list Z)
    (Hs : scope_stack st !! si = Some scope) (Hp : scope !! pos = Some p) (Hnd : NoDup scope)
    (Hcons : forall q i, scope !! i = Some q -> scope_lookup st !! q = Some (si, i)) :
  exists scope', scope_stack (unregister_scope p st) = <[si := scope']> (scope_stack st) /\
    scope ≡ₚ p :: scope' /\
    scope_lookup (unregister_scope p st) !! p = None /\
    (forall q i, scope' !! i = Some q -> scope_lookup (unregister_scope p st) !! q = Some (si, i)) /\
    (forall q, q ∉ scope -> scope_lookup (unregister_scope p st) !! q = scope_lookup st !! q).
Proof.
  pose proof (lookup_lt_Some _ _ _ Hp) as Hlt.
  destruct (exists_last (l := scope) ltac:(intros ->; cbn in Hlt; lia)) as [pre [tail Hsc]].
  subst scope. rewrite length_app in Hlt. cbn in Hlt.
  assert (Htail : (pre ++ [tail]) !! length pre = Some tail) by (rewrite lookup_app_r, Nat.sub_diag by lia; reflexivity).
  unfold unregister_scope. rewrite (Hcons p pos Hp), Hs.
  assert (Hb : (pos <? length (pre ++ [tail]))%nat = true) by (apply Nat.ltb_lt; rewrite length_app; cbn; lia).
  rewrite Hb, last_snoc. cbn [default from_option id].
  destruct (Z.eqb_spec tail p) as [->|Hne].
  - assert (pos = length pre) as -> by exact (NoDup_lookup _ _ _ _ Hnd Hp Htail).
    rewrite (list_insert_id _ _ _ Htail), removelast_last.
    exists pre. cbn. split; [reflexivity|]. split; [by rewrite Permutation_app_comm|].
    split; [apply lookup_delete_eq|]. split.
    + intros q i Hq. assert (Hq' : (pre ++ [p]) !! i = Some q) by (rewrite lookup_app_l; [done|eapply lookup_lt_Some; eauto]).
      rewrite lookup_delete_ne; [by apply Hcons|].
      intros ->. pose proof (NoDup_lookup _ _ _ _ Hnd Hq' Htail). subst i.
      apply lookup_lt_Some in Hq. lia.
    + intros q Hq. rewrite lookup_delete_ne; [done|]. intros ->. apply Hq. set_solver.
  - assert (Hpos : (pos < length pre)%nat).
    { destruct (decide (pos = length pre)) as [->|]; [|lia]. congruence. }
    assert (Hpre : pre !! pos = Some p) by (rewrite lookup_app_l in Hp; done).
    rewrite insert_app_l, removelast_last by done.
    exists (<[pos := tail]> pre). cbn. split; [reflexivity|].
    split.
    { rewrite Permutation_app_comm. cbn.
      transitivity (tail :: p :: delete pos pre); [constructor; exact (delete_Permutation _ _ _ Hpre)|].
      transitivity (p :: tail :: delete pos pre); [constructor|].
      constructor. symmetry. exact (insert_Permutation _ _ _ tail Hpre). }
    assert (Hlk : forall q, q <> p -> q <> tail ->
      delete p (partial_alter (fun o => Some (match o with Some (si0, _) => (si0, pos) | None => (0%nat, pos) end))
        tail (scope_lookup st)) !! q = scope_lookup st !! q).
    { intros q Hqp Hqt. rewrite lookup_delete_ne by congruence.
      rewrite lookup_partial_alter, decide_False by congruence. reflexivity. }
    split; [apply lookup_delete_eq|]. split.
    + intros q i Hq. destruct (decide (i = pos)) as [->|Hi].
      * rewrite list_lookup_insert_eq in Hq by done. injection Hq as <-.
        rewrite lookup_delete_ne by congruence. rewrite lookup_partial_alter, decide_True by done.
        rewrite (Hcons tail (length pre) Htail). reflexivity.
      * rewrite list_lookup_insert_ne in Hq by done.
        assert (Hq' : (pre ++ [tail]) !! i = Some q) by (rewrite lookup_app_l; [done|eapply lookup_lt_Some; eauto]).
        rewrite Hlk; [by apply Hcons| |].
        -- intros ->. apply Hi. exact (NoDup_lookup _ _ _ _ Hnd Hq' Hp).
        -- intros ->. pose proof (NoDup_lookup _ _ _ _ Hnd Hq' Htail). subst i.
           apply lookup_lt_Some in Hq. lia.
    + intros q Hq. apply Hlk.
      * intros ->. apply Hq. eapply list_elem_of_lookup_2; eauto.
      * intros ->. apply Hq. set_solver.
Qed.

Lemma view_deallocate p st : p <> 0 ->
  scope_view (deallocate p st) =
  scope_view (if thread_safe st && (0 <? active_scope_count st) then unregister_scope p st else st).
Proof.
  intros Hp. unfold deallocate. rewrite (proj2 (Z.eqb_neq p 0) Hp). cbn zeta.
  apply view_dealloc_tail.
Qed.

(** In thread-safe mode with a scope open, [deallocate] removes a tracked
    payload from its scope (the last entry moves into its slot), drops its
    index entry, keeps the index of the rest of the scope consistent and
    leaves the index of the other payloads alone. *)
Theorem deallocate_unregisters (st : MemoryPool) (p : Z) (si pos : nat) (scope : list Z)
    (Hts : thread_safe st = true) (Hc : 0 < active_scope_count st) (Hp0 : p <> 0)
    (Hs : scope_stack st !! si = Some scope) (Hp : scope !! pos = Some p) (Hnd : NoDup scope)
    (Hcons : forall q i, scope !! i = Some q -> scope_lookup st !! q = Some (si, i)) :
  exists scope', scope_stack (deallocate p st) = <[si := scope']> (scope_stack st) /\
    scope ≡ₚ p :: scope' /\
    scope_lookup (deallocate p st) !! p = None /\
    (forall q i, scope' !! i = Some q -> scope_lookup (deallocate p st) !! q = Some (si, i)) /\
    (forall q, q ∉ scope -> scope_lookup (deallocate p st) !! q = scope_lookup st !! q).
Proof.
  pose proof (view_deallocate p st Hp0) as Hv.
  rewrite Hts, (proj2 (Z.ltb_lt 0 _) Hc) in Hv. cbn [andb] in Hv.
  unfold scope_view in Hv. injection Hv as _ _ Hss Hsl.
  rewrite Hss, Hsl. exact (unregister_scope_spec st p si pos scope Hs Hp Hnd Hcons).
Qed.


Lemma deallocate_unregisters_witness :
  let st := (allocate 1000 BEST_FIT (begin_scope (new_pool true 4096))).1 in
  thread_safe st = true /\ 0 < active_scope_count st /\ 200800 <> 0 /\
  scope_stack st !! 0%nat = Some [200800] /\ [200800] !! 0%nat = Some 200800 /\ NoDup [200800] /\
  (forall q i, [200800] !! i = Some q -> scope_lookup st !! q = Some (0%nat, i)) /\
  exists scope', scope_stack (deallocate 200800 st) = <[0%nat := scope']> (scope_stack st) /\
    [200800] ≡ₚ 200800 :: scope' /\
    scope_lookup (deallocate 200800 st) !! 200800 = None /\
    (forall q i, scope' !! i = Some q -> scope_lookup (deallocate 200800 st) !! q = Some (0%nat, i)) /\
    (forall q, q ∉ [200800] -> scope_lookup (deallocate 200800 st) !! q = scope_lookup st !! q).
Proof.
  intros st.
  assert (Hts : thread_safe st = true) by (vm_compute; reflexivity).
  assert (Hc : 0 < active_scope_count st) by (vm_compute; reflexivity).
  assert (Hp0 : 200800 <> 0) by lia.
  assert (Hs : scope_stack st !! 0%nat = Some [200800]) by (vm_compute; reflexivity).
  assert (Hp : [200800] !! 0%nat = Some 200800) by reflexivity.
  assert (Hnd : NoDup [200800]) by apply NoDup_singleton.
  assert (Hcons : forall q i, [200800] !! i = Some q -> scope_lookup st !! q = Some (0%nat, i)).
  { intros q [|i] Hq; cbn in Hq; [|discriminate]. injection Hq as <-. vm_compute. reflexivity. }
  do 7 (split; [assumption|]).
  exact (deallocate_unregisters st 200800 0 0 [200800] Hts Hc Hp0 Hs Hp Hnd Hcons).
Defined.

Lemma end_scope_begin_scope_witness :
  0 <= active_scope_count (new_pool true 4096) < SIZE_MAX /\
  end_scope (begin_scope (new_pool true 4096)) = new_pool true 4096.
Proof.
  assert (Hc : 0 <= active_scope_count (new_pool true 4096) < SIZE_MAX).
  { assert (H0 : active_scope_count (new_pool true 4096) = 0) by (vm_compute; reflexivity).
    rewrite H0. unfold SIZE_MAX. lia. }
  split; [exact Hc|]. exact (end_scope_begin_scope _ Hc).
Defined.

Lemma view_deallocate_untracked p st :
  scope_lookup st !! p = None -> scope_view (deallocate p st) = scope_view st.
Proof.
  intros Hl. destruct (Z.eq_dec p 0) as [->|Hp]; [reflexivity|].
  rewrite (view_deallocate p st Hp). destruct (_ && _); [|reflexivity].
  unfold unregister_scope. rewrite Hl. reflexivity.
Qed.

Lemma foldl_delete_lookup (l : list Z) (m : gmap Z (nat * nat)) q :
  foldl (fun m p => delete p m) m l !! q = if decide (q ∈ l) then None else m !! q.
Proof.
  revert m. induction l as [|x l IH]; intros m; cbn [foldl].
  - rewrite decide_False by set_solver. reflexivity.
  - rewrite IH. destruct (decide (q = x)) as [->|Hne].
    + rewrite lookup_delete_eq. repeat case_decide; set_solver.
    + rewrite lookup_delete_ne by congruence. repeat case_decide; set_solver.
Qed.

Lemma view_deallocate_all (l : list Z) st :
  (forall p, p ∈ l -> scope_lookup st !! p = None) ->
  scope_view (foldl (fun st p => deallocate p st) st l) = scope_view st.
Proof.
  revert st. induction l as [|p l IH]; intros st Hl; [reflexivity|].
  cbn [foldl]. assert (Hv : scope_view (deallocate p st) = scope_view st)
    by (apply view_deallocate_untracked, Hl; set_solver).
  rewrite IH; [exact Hv|]. intros q Hq.
  unfold scope_view in Hv. injection Hv as _ _ _ Hsl. rewrite Hsl. apply Hl. set_solver.
Qed.

(** [end_scope] pops the innermost scope, forgets the index entries of its
    payloads, decrements the scope counter and keeps the thread-safety flag. *)
Theorem end_scope_pops (st : MemoryPool) (top : list Z) (Hl : last (scope_stack st) = Some top) :
  scope_stack (end_scope st) = removelast (scope_stack st) /\
  scope_lookup (end_scope st) = foldl (fun m p => delete p m) (scope_lookup st) top /\
  active_scope_count (end_scope st) = wrap (active_scope_count st - 1) /\
  thread_safe (end_scope st) = thread_safe st.
Proof.
  unfold end_scope, end_scope_pop. rewrite Hl.
  match goal with |- context [foldl _ ?s0 top] => set (st1 := s0) end.
  assert (Hv : scope_view (foldl (fun st p => deallocate p st) st1 top) = scope_view st1).
  { apply view_deallocate_all. intros p Hp. subst st1. cbn.
    rewrite foldl_delete_lookup, decide_True by done. reflexivity. }
  unfold scope_view in Hv. injection Hv as Hts Hc Hss Hsl.
  rewrite Hts, Hc, Hss, Hsl. subst st1. cbn. repeat split; reflexivity.
Qed.

Lemma end_scope_pops_witness :
  let st := (allocate 1000 BEST_FIT (begin_scope (new_pool true 4096))).1 in
  last (scope_stack st) = Some [200800] /\
  scope_stack (end_scope st) = removelast (scope_stack st) /\
  scope_lookup (end_scope st) = foldl (fun m p => delete p m) (scope_lookup st) [200800] /\
  active_scope_count (end_scope st) = wrap (active_scope_count st - 1) /\
  thread_safe (end_scope st) = thread_safe st.
Proof.
  intros st.
  assert (Hl : last (scope_stack st) = Some [200800]) by (vm_compute; reflexivity).
  split; [exact Hl|]. exact (end_scope_pops st [200800] Hl).
Defined.

Lemma pool_take_facts st b :
  wf st -> b ∈ free_list st ->
  (pool_take b st).2 = Some (b + HEADER_SIZE) /\
  hdrs (pool_take b st).1 !! b = Some (mkBlock (bsize st b) false POOL_BASED) /\
  free_list (pool_take b st).1 = list_remove b (free_list st).
Proof.
  intros Hwf Hb. destruct (fl_block_facts st b Hwf Hb) as (h & Hh & _ & _ & _ & Hbs & _).
  split; [reflexivity|]. split; [|reflexivity].
  unfold pool_take. cbv zeta. cbn [fst hdrs stat_alloc set_stats].
  rewrite lookup_upd_hdr, decide_True by done. rewrite (hdrs_detach_eq b st h Hh).
  cbn. rewrite Hbs. reflexivity.
Qed.

(** [allocate_from_pool] never splits: it returns null only when no free
    block fits before and after one new chunk, and otherwise hands out a
    smallest fitting free block whole, tagged [POOL_BASED], and removes it
    from the free list. *)
Theorem allocate_from_pool_whole_block (size : Z) (st : MemoryPool) (Hwf : wf st) :
  ((allocate_from_pool size st).2 = None ->
     (forall y, y ∈ free_list st -> bsize st y < size) /\
     (forall y, y ∈ free_list (add_new_chunk st) -> bsize (add_new_chunk st) y < size)) /\
  (forall p, (allocate_from_pool size st).2 = Some p ->
     let b := p - HEADER_SIZE in
     exists st0,
       (st0 = st \/ ((forall y, y ∈ free_list st -> bsize st y < size) /\ st0 = add_new_chunk st)) /\
       b ∈ free_list st0 /\ size <= bsize st0 b /\
       (forall y, y ∈ free_list st0 -> size <= bsize st0 y -> bsize st0 b <= bsize st0 y) /\
       hdrs (allocate_from_pool size st).1 !! b = Some (mkBlock (bsize st0 b) false POOL_BASED) /\
       free_list (allocate_from_pool size st).1 = list_remove b (free_list st0)).
Proof.
  unfold allocate_from_pool.
  assert (Htake : forall s0 k b, wf s0 -> mm_lower_bound size (size_index s0) = Some (k, b) ->
     (pool_take b s0).2 = Some (b + HEADER_SIZE) /\
     b ∈ free_list s0 /\ size <= bsize s0 b /\
     (forall y, y ∈ free_list s0 -> size <= bsize s0 y -> bsize s0 b <= bsize s0 y) /\
     hdrs (pool_take b s0).1 !! b = Some (mkBlock (bsize s0 b) false POOL_BASED) /\
     free_list (pool_take b s0).1 = list_remove b (free_list s0)).
  { intros s0 k b Hw E. destruct (lb_some _ _ _ _ Hw E) as (Hb & -> & Hk & Hmin).
    destruct (pool_take_facts s0 b Hw Hb) as (H1 & H2 & H3). by repeat split. }
  destruct (mm_lower_bound size (size_index st)) as [[k b]|] eqn:E.
  - destruct (Htake st k b Hwf E) as (Hr & Hf).
    split; [by rewrite Hr|]. intros p Hp. rewrite Hr in Hp. injection Hp as <-.
    replace (b + HEADER_SIZE - HEADER_SIZE) with b by lia. exists st. split; [by left|done].
  - pose proof (lb_none st size Hwf E) as Hn.
    destruct (add_new_chunk_ok st Hwf) as [Hw1 _].
    destruct (mm_lower_bound size (size_index (add_new_chunk st))) as [[k b]|] eqn:E1.
    + destruct (Htake _ k b Hw1 E1) as (Hr & Hf).
      split; [by rewrite Hr|]. intros p Hp. rewrite Hr in Hp. injection Hp as <-.
      replace (b + HEADER_SIZE - HEADER_SIZE) with b by lia.
      exists (add_new_chunk st). split; [by right|done].
    + split; [|done]. intros _. split; [done|]. by apply lb_none.
Qed.

Lemma allocate_from_pool_whole_block_witness :
  wf (new_pool true 4096) /\
  ((allocate_from_pool 100 (new_pool true 4096)).2 = None ->
     (forall y, y ∈ free_list (new_pool true 4096) -> bsize (new_pool true 4096) y < 100) /\
     (forall y, y ∈ free_list (add_new_chunk (new_pool true 4096)) ->
        bsize (add_new_chunk (new_pool true 4096)) y < 100)) /\
  (forall p, (allocate_from_pool 100 (new_pool true 4096)).2 = Some p ->
     let b := p - HEADER_SIZE in
     exists st0,
       (st0 = new_pool true 4096 \/ ((forall y, y ∈ free_list (new_pool true 4096) ->
          bsize (new_pool true 4096) y < 100) /\ st0 = add_new_chunk (new_pool true 4096))) /\
       b ∈ free_list st0 /\ 100 <= bsize st0 b /\
       (forall y, y ∈ free_list st0 -> 100 <= bsize st0 y -> bsize st0 b <= bsize st0 y) /\
       hdrs (allocate_from_pool 100 (new_pool true 4096)).1 !! b = Some (mkBlock (bsize st0 b) false POOL_BASED) /\
       free_list (allocate_from_pool 100 (new_pool true 4096)).1 = list_remove b (free_list st0)).
Proof.
  assert (Hw : wf (new_pool true 4096)) by (apply wf_new_pool; lia).
  split; [exact Hw|]. exact (allocate_from_pool_whole_block 100 _ Hw).
Defined.

(** [allocate_segregated] pops the head of the size class the size selects:
    it returns that block's payload, leaves the rest of the class list and
    the other class lists as they were, and marks the block in use with the
    class size. *)
Theorem allocate_segregated_pops_head (sz : Z) (st : MemoryPool) (b : Z) (rest : list Z)
    (Hwf : wf st)
    (Hc : (select_segregated_class sz < SEGREGATED_CLASS_COUNT)%nat)
    (Hl : seg_list st (select_segregated_class sz) = b :: rest) :
  (allocate_segregated sz st).2 = Some (b + HEADER_SIZE) /\
  seg_list (allocate_segregated sz st).1 (select_segregated_class sz) = rest /\
  (forall j, j <> select_segregated_class sz ->
     seg_list (allocate_segregated sz st).1 j = seg_list st j) /\
  exists cs, SEGREGATED_CLASS_SIZES !! select_segregated_class sz = Some cs /\ sz <= cs /\
    hdrs (allocate_segregated sz st).1 !! b = Some (mkBlock cs false SEGREGATED).
Proof.
  set (i := select_segregated_class sz) in *.
  destruct (seg_list_mem st i b Hwf ltac:(rewrite Hl; left)) as (_ & h & Hh & Hst & Hcs).
  destruct (select_class_from_spec SEGREGATED_CLASS_SIZES 0 sz) as (_ & _ & H3).
  fold (select_segregated_class sz) in H3. fold i in H3. rewrite Nat.sub_0_r in H3.
  pose proof (wf_seg_len _ (wf_base _ Hwf)) as Hlen.
  unfold allocate_segregated. fold i.
  rewrite (proj2 (Nat.eqb_neq i SEGREGATED_CLASS_COUNT)) by lia.
  rewrite Hl. cbv zeta. rewrite Hl.
  split; [reflexivity|].
  assert (Hseg : forall j, seg_list (stat_alloc (bsize (upd_hdr (with_free_strat false SEGREGATED) b
                   (set_seg_list i rest st)) b) (upd_hdr (with_free_strat false SEGREGATED) b
                   (set_seg_list i rest st))) j = if decide (j = i) then rest else seg_list st j).
  { intros j. unfold seg_list, set_seg_list. cbn [fst stat_alloc set_stats upd_hdr set_hdrs
      segregated_free_lists set_segregated_free_lists].
    destruct (decide (j = i)) as [->|Hne].
    - rewrite list_lookup_insert_eq; [reflexivity|]. rewrite Hlen. exact Hc.
    - rewrite list_lookup_insert_ne by congruence. reflexivity. }
  cbn [fst]. split; [rewrite Hseg, decide_True; done|].
  split; [intros j Hj; rewrite Hseg, decide_False; done|].
  exists (size h). split; [exact Hcs|]. split; [exact (H3 _ Hcs)|].
  cbn [hdrs stat_alloc set_stats]. rewrite lookup_upd_hdr, decide_True by done.
  cbn [hdrs set_seg_list set_segregated_free_lists]. rewrite Hh. reflexivity.
Qed.

Lemma allocate_segregated_pops_head_witness :
  let st := (allocate 3000 SEGREGATED (new_pool true 4096)).1 in
  wf st /\ (select_segregated_class 3000 < SEGREGATED_CLASS_COUNT)%nat /\
  seg_list st (select_segregated_class 3000) = 2289616 :: tail (seg_list st 7) /\
  (allocate_segregated 3000 st).2 = Some (2289616 + HEADER_SIZE) /\
  seg_list (allocate_segregated 3000 st).1 (select_segregated_class 3000) = tail (seg_list st 7) /\
  (forall j, j <> select_segregated_class 3000 ->
     seg_list (allocate_segregated 3000 st).1 j = seg_list st j) /\
  exists cs, SEGREGATED_CLASS_SIZES !! select_segregated_class 3000 = Some cs /\ 3000 <= cs /\
    hdrs (allocate_segregated 3000 st).1 !! 2289616 = Some (mkBlock cs false SEGREGATED).
Proof.
  intros st.
  assert (Hw : wf st).
  { apply reachable_wf. apply (reachable_step (new_pool true 4096)).
    - apply reachable_new. lia.
    - apply step_allocate. unfold SIZE_MAX. lia. }
  assert (Hc : (select_segregated_class 3000 < SEGREGATED_CLASS_COUNT)%nat) by (vm_compute; lia).
  assert (Hl : seg_list st (select_segregated_class 3000) = 2289616 :: tail (seg_list st 7))
    by (vm_compute; reflexivity).
  split; [exact Hw|]. split; [exact Hc|]. split; [exact Hl|].
  exact (allocate_segregated_pops_head 3000 st 2289616 (tail (seg_list st 7)) Hw Hc Hl).
Defined.



Create Rewrite HintDb stats_keep.

Lemma stats_upd_hdr f b st : stats (upd_hdr f b st) = stats st.
Proof. reflexivity. Qed.
Lemma stats_init_block p n s st : stats (init_block p n s st) = stats st.
Proof. reflexivity. Qed.
Lemma stats_set_seg_list i l st : stats (set_seg_list i l st) = stats st.
Proof. reflexivity. Qed.
Lemma stats_set_blocks v st : stats (set_blocks v st) = stats st.
Proof. reflexivity. Qed.
Lemma stats_set_slab_free c l st : stats (set_slab_free c l st) = stats st.
Proof. by destruct c. Qed.
Lemma stats_insert b s ac st : stats (insert_free_block b s ac st) = stats st.
Proof. pose proof (insert_frame b s ac st) as H. unfold free_frame in H. destruct_and!. done. Qed.
Lemma stats_detach b st : stats (detach_free_block b st) = stats st.
Proof. reflexivity. Qed.

#[local] Hint Rewrite stats_upd_hdr stats_init_block stats_set_seg_list stats_set_blocks
  stats_set_slab stats_set_slab_free stats_set_cache stats_insert stats_detach : stats_keep.

Lemma stats_add_new_chunk st : stats (add_new_chunk st) = stats st.
Proof. unfold add_new_chunk, obtain_chunk. cbn zeta. autorewrite with stats_keep. reflexivity. Qed.
#[local] Hint Rewrite stats_add_new_chunk : stats_keep.

Lemma stats_carve fuel cs cur tot hd st : stats (carve fuel cs cur tot hd st).2 = stats st.
Proof.
  revert cur tot hd st. induction fuel as [|fuel IH]; intros cur tot hd st; [reflexivity|].
  cbn [carve]. case_match; [|reflexivity]. rewrite IH. reflexivity.
Qed.

Lemma stats_replenish i st : stats (replenish_segregated_class i st) = stats st.
Proof.
  unfold replenish_segregated_class. cbn zeta.
  case_match; [reflexivity|]. case_match; [autorewrite with stats_keep; reflexivity|].
  match goal with |- context [carve ?f ?cs ?c ?t ?h ?s] =>
    pose proof (stats_carve f cs c t h s) as Hc; destruct (carve f cs c t h s) as [[[cur tot] hd] st'] end.
  cbn [snd] in Hc. autorewrite with stats_keep in Hc.
  assert (Hh : stats (match hd with [] => st' | _ :: _ => set_seg_list i (hd ++ seg_list st' i) st' end)
               = stats st') by (destruct hd; reflexivity).
  revert Hh. generalize (match hd with [] => st' | _ :: _ => set_seg_list i (hd ++ seg_list st' i) st' end).
  intros st'' Hh. case_match; autorewrite with stats_keep; congruence.
Qed.
#[local] Hint Rewrite stats_replenish : stats_keep.

Lemma stats_slab_fill n ch sd i fr st : stats (slab_fill n ch sd i fr st).2 = stats st.
Proof.
  revert i fr st. induction n as [|n IH]; intros i fr st; [reflexivity|].
  cbn [slab_fill]. rewrite IH. reflexivity.
Qed.

Lemma stats_slab_add_new_chunk c st : stats (slab_add_new_chunk c st) = stats st.
Proof.
  unfold slab_add_new_chunk, obtain_chunk. cbn zeta.
  match goal with |- context [slab_fill ?n ?ch ?sd ?i ?fr ?s] =>
    pose proof (stats_slab_fill n ch sd i fr s) as Hf; destruct (slab_fill n ch sd i fr s) as [fr' st'] end.
  cbn [snd] in Hf. autorewrite with stats_keep. rewrite Hf. reflexivity.
Qed.
#[local] Hint Rewrite stats_slab_add_new_chunk : stats_keep.

Lemma stats_refill_loop k c st : stats (refill_loop k c st) = stats st.
Proof.
  revert st. induction k as [|k IH]; intros st; [reflexivity|].
  cbn [refill_loop]. case_match; [|reflexivity].
  unfold slab_allocate_raw. destruct (slab_free (get_slab c st)); [reflexivity|].
  rewrite IH. autorewrite with stats_keep. reflexivity.
Qed.
#[local] Hint Rewrite stats_refill_loop : stats_keep.

(** The last two steps of every allocating function: mark the block, then
    count it. *)
Lemma alloc_stats_finish st st' g b :
  stats st' = stats st ->
  alloc_stats st (stat_alloc (bsize (upd_hdr g b st') b) (upd_hdr g b st'), Some (b + HEADER_SIZE)).
Proof.
  intros Hs. unfold alloc_stats. cbn [fst snd stat_alloc set_stats stats].
  replace (b + HEADER_SIZE - HEADER_SIZE) with b by lia.
  rewrite stats_upd_hdr, Hs. reflexivity.
Qed.

Lemma alloc_stats_frame st st' res :
  stats st' = stats st -> alloc_stats st' res -> alloc_stats st res.
Proof. unfold alloc_stats. intros Hs. rewrite Hs. done. Qed.

Lemma alloc_stats_best_fit_take s b st : alloc_stats st (best_fit_take s b st).
Proof.
  unfold best_fit_take. cbv zeta. apply alloc_stats_finish.
  case_match; autorewrite with stats_keep; reflexivity.
Qed.

Lemma alloc_stats_pool_take b st : alloc_stats st (pool_take b st).
Proof. unfold pool_take. cbv zeta. apply alloc_stats_finish. reflexivity. Qed.

Lemma alloc_stats_allocate_best_fit s st : alloc_stats st (allocate_best_fit s st).
Proof.
  unfold allocate_best_fit.
  destruct (mm_lower_bound _ _) as [[]|]; [apply alloc_stats_best_fit_take|].
  apply (alloc_stats_frame _ (add_new_chunk st)); [apply stats_add_new_chunk|].
  destruct (mm_lower_bound _ _) as [[]|]; [apply alloc_stats_best_fit_take|reflexivity].
Qed.

Lemma alloc_stats_allocate_from_pool s st : alloc_stats st (allocate_from_pool s st).
Proof.
  unfold allocate_from_pool.
  destruct (mm_lower_bound _ _) as [[]|]; [apply alloc_stats_pool_take|].
  apply (alloc_stats_frame _ (add_new_chunk st)); [apply stats_add_new_chunk|].
  destruct (mm_lower_bound _ _) as [[]|]; [apply alloc_stats_pool_take|reflexivity].
Qed.

Lemma alloc_stats_allocate_segregated s st : alloc_stats st (allocate_segregated s st).
Proof.
  unfold allocate_segregated. cbv zeta.
  case_match; [apply alloc_stats_allocate_best_fit|].
  assert (Hh : stats (match seg_list st (select_segregated_class s) with
                      | [] => replenish_segregated_class (select_segregated_class s) st
                      | _ :: _ => st end) = stats st)
    by (case_match; autorewrite with stats_keep; reflexivity).
  revert Hh. generalize (match seg_list st (select_segregated_class s) with
                      | [] => replenish_segregated_class (select_segregated_class s) st
                      | _ :: _ => st end). intros st' Hh.
  apply (alloc_stats_frame _ st' _ Hh).
  destruct (seg_list st' _); [apply alloc_stats_allocate_best_fit|].
  apply alloc_stats_finish. reflexivity.
Qed.

Lemma alloc_stats_slab_allocate c st : alloc_stats st (slab_allocate c st).
Proof.
  unfold slab_allocate. cbv zeta.
  assert (Hh : stats (match slab_free (get_slab c st) with
                      | [] => slab_add_new_chunk c st | _ :: _ => st end) = stats st)
    by (case_match; autorewrite with stats_keep; reflexivity).
  revert Hh. generalize (match slab_free (get_slab c st) with
                      | [] => slab_add_new_chunk c st | _ :: _ => st end). intros st' Hh.
  apply (alloc_stats_frame _ st' _ Hh).
  destruct (slab_free (get_slab c st')); [reflexivity|].
  apply alloc_stats_finish. apply stats_set_slab_free.
Qed.

Lemma alloc_stats_acquire_from_cache c st : alloc_stats st (acquire_from_cache c st).
Proof.
  unfold acquire_from_cache, refill_cache.
  destruct (get_cache c st) eqn:E0.
  - destruct (get_cache c (refill_loop (refill_batch c) c st)) eqn:E1.
    + pose proof (alloc_stats_slab_allocate c (refill_loop (refill_batch c) c st)) as Hs.
      destruct (slab_allocate c _) as [st0 r] eqn:E2.
      apply (alloc_stats_frame _ (refill_loop (refill_batch c) c st)); [apply stats_refill_loop|exact Hs].
    + apply (alloc_stats_frame _ (refill_loop (refill_batch c) c st)); [apply stats_refill_loop|].
      rewrite E1. cbv zeta.
      assert (Hz : Some z = Some (z - HEADER_SIZE + HEADER_SIZE)) by (f_equal; lia). rewrite Hz.
      apply alloc_stats_finish. apply stats_set_cache.
  - rewrite E0. cbv zeta.
    assert (Hz : Some z = Some (z - HEADER_SIZE + HEADER_SIZE)) by (f_equal; lia). rewrite Hz.
    apply alloc_stats_finish. apply stats_set_cache.
Qed.

Lemma alloc_stats_scope st st1 st2 r :
  scope_frame st1 st2 -> alloc_stats st (st1, r) -> alloc_stats st (st2, r).
Proof.
  unfold scope_frame, alloc_stats, bsize. cbn [fst snd].
  intros (Hh & _ & _ & _ & _ & _ & _ & _ & _ & _ & _ & _ & Hs).
  rewrite Hh, Hs. done.
Qed.

Lemma alloc_stats_fixed_path a st : alloc_stats st (fixed_path a st).
Proof. unfold fixed_path. case_match; [apply alloc_stats_acquire_from_cache|reflexivity]. Qed.

Lemma alloc_stats_general_path eff a st : alloc_stats st (general_path eff a st).
Proof.
  unfold general_path.
  assert (Ha : alloc_stats st (match eff with
              | BEST_FIT => allocate_best_fit a st
              | POOL_BASED => allocate_from_pool a st
              | SEGREGATED => allocate_segregated a st
              | FIXED_SIZE => allocate_best_fit a st
              end)) by (destruct eff; auto using alloc_stats_allocate_best_fit,
                        alloc_stats_allocate_from_pool, alloc_stats_allocate_segregated).
  destruct (match eff with BEST_FIT => _ | POOL_BASED => _ | SEGREGATED => _ | FIXED_SIZE => _ end)
    as [st1 [p|]].
  - exact (alloc_stats_scope _ _ _ _ (register_frame p st1) Ha).
  - exact Ha.
Qed.

(** [allocate] counts one allocation and the size of the returned block when
    it returns a payload, and leaves the counters alone when it returns
    null. *)
Theorem allocate_stats (size : Z) (s : AllocationStrategy) (st : MemoryPool) :
  match (allocate size s st).2 with
  | Some p => stats (allocate size s st).1 =
                mkStats (wrap (allocations (stats st) + 1)) (deallocations (stats st))
                        (wrap (bytes_allocated (stats st) +
                               bsize (allocate size s st).1 (p - HEADER_SIZE)))
  | None => stats (allocate size s st).1 = stats st
  end.
Proof.
  fold (alloc_stats st (allocate size s st)). unfold allocate. cbv zeta.
  destruct (strat_eqb _ FIXED_SIZE).
  - pose proof (alloc_stats_fixed_path (align_size size) st) as Hf.
    destruct (fixed_path (align_size size) st) as [st1 [p|]].
    + exact (alloc_stats_scope _ _ _ _ (fixed_register_frame p st1) Hf).
    + unfold alloc_stats in Hf. cbn [snd fst] in Hf.
      apply (alloc_stats_frame _ st1 _ Hf). apply alloc_stats_general_path.
  - apply alloc_stats_general_path.
Qed.

Lemma get_cache_stat_dealloc c n st : get_cache c (stat_dealloc n st) = get_cache c st.
Proof. by destruct c. Qed.
Lemma get_cache_upd_hdr c g b st : get_cache c (upd_hdr g b st) = get_cache c st.
Proof. by destruct c. Qed.
Lemma get_cache_stat_alloc c n st : get_cache c (stat_alloc n st) = get_cache c st.
Proof. by destruct c. Qed.
Lemma get_slab_set_cache c c' l st : get_slab c' (set_cache c l st) = get_slab c' st.
Proof. by destruct c, c'. Qed.

(** A payload released to a magazine with room is the next one that
    magazine hands out: the magazines end as they were, and the block's
    header is again in use and tagged [FIXED_SIZE]. *)
Theorem release_acquire_cache (c : SlabId) (p : Z) (st : MemoryPool)
    (Hlen : (length (get_cache c st) < CACHE_LIMIT)%nat) :
  (acquire_from_cache c (release_to_cache c p st).1).2 = Some p /\
  (forall c', get_cache c' (acquire_from_cache c (release_to_cache c p st).1).1 = get_cache c' st) /\
  (forall c', get_slab c' (acquire_from_cache c (release_to_cache c p st).1).1 = get_slab c' st) /\
  hdrs (acquire_from_cache c (release_to_cache c p st).1).1 !! (p - HEADER_SIZE) =
    (fun h => mkBlock (size h) false FIXED_SIZE) <$> hdrs st !! (p - HEADER_SIZE) /\
  (forall x, x <> p - HEADER_SIZE ->
     hdrs (acquire_from_cache c (release_to_cache c p st).1).1 !! x = hdrs st !! x).
Proof.
  unfold release_to_cache. rewrite (proj2 (Nat.ltb_lt _ _) Hlen). cbv zeta. cbn [fst].
  set (st1 := stat_dealloc _ _).
  assert (Hc1 : get_cache c st1 = p :: get_cache c st).
  { subst st1. rewrite get_cache_stat_dealloc, get_cache_set_cache, decide_True by done.
    by rewrite get_cache_upd_hdr. }
  unfold acquire_from_cache. rewrite Hc1. cbv zeta. cbn [fst snd]. rewrite Hc1. cbn [fst snd].
  split; [reflexivity|]. split.
  { intros c'. rewrite get_cache_stat_alloc, get_cache_upd_hdr, get_cache_set_cache.
    case_decide; [subst; reflexivity|]. subst st1.
    rewrite get_cache_stat_dealloc, get_cache_set_cache, decide_False by done.
    apply get_cache_upd_hdr. }
  split.
  { intros c'. subst st1. destruct c, c'; reflexivity. }
  assert (Hh : hdrs st1 = hdrs (upd_hdr (with_free true) (p - HEADER_SIZE) st))
    by (subst st1; destruct c; reflexivity).
  split.
  - cbn [hdrs stat_alloc set_stats]. rewrite lookup_upd_hdr, decide_True by done.
    assert (Hs : hdrs (set_cache c (get_cache c st) st1) = hdrs st1) by (destruct c; reflexivity).
    rewrite Hs, Hh, lookup_upd_hdr, decide_True by done.
    destruct (hdrs st !! (p - HEADER_SIZE)); reflexivity.
  - intros x Hx. cbn [hdrs stat_alloc set_stats]. rewrite lookup_upd_hdr, decide_False by congruence.
    assert (Hs : hdrs (set_cache c (get_cache c st) st1) = hdrs st1) by (destruct c; reflexivity).
    rewrite Hs, Hh, lookup_upd_hdr, decide_False by congruence. reflexivity.
Qed.

Lemma release_acquire_cache_witness :
  let st := (allocate 24 BEST_FIT (new_pool true 4096)).1 in
  (length (get_cache Small st) < CACHE_LIMIT)%nat /\
  (acquire_from_cache Small (release_to_cache Small 65584 st).1).2 = Some 65584 /\
  (forall c', get_cache c' (acquire_from_cache Small (release_to_cache Small 65584 st).1).1 = get_cache c' st) /\
  (forall c', get_slab c' (acquire_from_cache Small (release_to_cache Small 65584 st).1).1 = get_slab c' st) /\
  hdrs (acquire_from_cache Small (release_to_cache Small 65584 st).1).1 !! (65584 - HEADER_SIZE) =
    (fun h => mkBlock (size h) false FIXED_SIZE) <$> hdrs st !! (65584 - HEADER_SIZE) /\
  (forall x, x <> 65584 - HEADER_SIZE ->
     hdrs (acquire_from_cache Small (release_to_cache Small 65584 st).1).1 !! x = hdrs st !! x).
Proof.
  intros st.
  assert (Hl : (length (get_cache Small st) < CACHE_LIMIT)%nat) by (vm_compute; lia).
  split; [exact Hl|]. exact (release_acquire_cache Small 65584 st Hl).
Defined.

Create Rewrite HintDb tc_keep.

Lemma tc_upd_hdr f b st : thread_cache (upd_hdr f b st) = thread_cache st.
Proof. reflexivity. Qed.
Lemma tc_init_block p n s st : thread_cache (init_block p n s st) = thread_cache st.
Proof. reflexivity. Qed.
Lemma tc_stat_alloc n st : thread_cache (stat_alloc n st) = thread_cache st.
Proof. reflexivity. Qed.
Lemma tc_stat_dealloc n st : thread_cache (stat_dealloc n st) = thread_cache st.
Proof. reflexivity. Qed.
Lemma tc_set_seg_list i l st : thread_cache (set_seg_list i l st) = thread_cache st.
Proof. reflexivity. Qed.
Lemma tc_set_blocks v st : thread_cache (set_blocks v st) = thread_cache st.
Proof. reflexivity. Qed.
Lemma tc_set_slab c s st : thread_cache (set_slab c s st) = thread_cache st.
Proof. by destruct c. Qed.
Lemma tc_set_slab_free c l st : thread_cache (set_slab_free c l st) = thread_cache st.
Proof. by destruct c. Qed.
Lemma tc_insert b s ac st : thread_cache (insert_free_block b s ac st) = thread_cache st.
Proof. pose proof (insert_frame b s ac st) as H. unfold free_frame in H. destruct_and!. done. Qed.
Lemma tc_detach b st : thread_cache (detach_free_block b st) = thread_cache st.
Proof. reflexivity. Qed.

#[local] Hint Rewrite tc_upd_hdr tc_init_block tc_stat_alloc tc_stat_dealloc tc_set_seg_list
  tc_set_blocks tc_set_slab tc_set_slab_free tc_insert tc_detach : tc_keep.

Lemma tc_add_new_chunk st : thread_cache (add_new_chunk st) = thread_cache st.
Proof. unfold add_new_chunk, obtain_chunk. cbn zeta. autorewrite with tc_keep. reflexivity. Qed.
#[local] Hint Rewrite tc_add_new_chunk : tc_keep.

Lemma tc_best_fit_take s b st : thread_cache (best_fit_take s b st).1 = thread_cache st.
Proof. unfold best_fit_take. cbn zeta. case_match; cbn [fst]; autorewrite with tc_keep; reflexivity. Qed.
#[local] Hint Rewrite tc_best_fit_take : tc_keep.

Lemma tc_allocate_best_fit s st : thread_cache (allocate_best_fit s st).1 = thread_cache st.
Proof.
  unfold allocate_best_fit. cbn zeta.
  destruct (mm_lower_bound _ _) as [[]|]; autorewrite with tc_keep; [reflexivity|].
  destruct (mm_lower_bound _ _) as [[]|]; cbn [fst]; autorewrite with tc_keep; reflexivity.
Qed.
#[local] Hint Rewrite tc_allocate_best_fit : tc_keep.

Lemma tc_pool_take b st : thread_cache (pool_take b st).1 = thread_cache st.
Proof. reflexivity. Qed.
#[local] Hint Rewrite tc_pool_take : tc_keep.

Lemma tc_allocate_from_pool s st : thread_cache (allocate_from_pool s st).1 = thread_cache st.
Proof.
  unfold allocate_from_pool. cbn zeta.
  destruct (mm_lower_bound _ _) as [[]|]; autorewrite with tc_keep; [reflexivity|].
  destruct (mm_lower_bound _ _) as [[]|]; cbn [fst]; autorewrite with tc_keep; reflexivity.
Qed.
#[local] Hint Rewrite tc_allocate_from_pool : tc_keep.

Lemma tc_carve fuel cs cur tot hd st : thread_cache (carve fuel cs cur tot hd st).2 = thread_cache st.
Proof.
  revert cur tot hd st. induction fuel as [|fuel IH]; intros cur tot hd st; [reflexivity|].
  cbn [carve]. case_match; [|reflexivity]. rewrite IH. reflexivity.
Qed.

Lemma tc_replenish i st : thread_cache (replenish_segregated_class i st) = thread_cache st.
Proof.
  unfold replenish_segregated_class. cbn zeta.
  case_match; [reflexivity|]. case_match; [autorewrite with tc_keep; reflexivity|].
  match goal with |- context [carve ?f ?cs ?c ?t ?h ?s] =>
    pose proof (tc_carve f cs c t h s) as Hc; destruct (carve f cs c t h s) as [[[cur tot] hd] st'] end.
  cbn [snd] in Hc. autorewrite with tc_keep in Hc.
  assert (Hh : thread_cache (match hd with [] => st' | _ :: _ => set_seg_list i (hd ++ seg_list st' i) st' end)
               = thread_cache st') by (destruct hd; reflexivity).
  revert Hh. generalize (match hd with [] => st' | _ :: _ => set_seg_list i (hd ++ seg_list st' i) st' end).
  intros st'' Hh. case_match; autorewrite with tc_keep; congruence.
Qed.
#[local] Hint Rewrite tc_replenish : tc_keep.

Lemma tc_allocate_segregated s st : thread_cache (allocate_segregated s st).1 = thread_cache st.
Proof.
  unfold allocate_segregated. cbn zeta.
  case_match; [autorewrite with tc_keep; reflexivity|].
  assert (Hh : thread_cache (match seg_list st (select_segregated_class s) with
                           | [] => replenish_segregated_class (select_segregated_class s) st
                           | _ :: _ => st end) = thread_cache st)
    by (case_match; autorewrite with tc_keep; reflexivity).
  revert Hh. generalize (match seg_list st (select_segregated_class s) with
                           | [] => replenish_segregated_class (select_segregated_class s) st
                           | _ :: _ => st end). intros st' Hh.
  case_match; cbn [fst]; autorewrite with tc_keep; exact Hh.
Qed.

Lemma tc_slab_fill n ch sd i fr st : thread_cache (slab_fill n ch sd i fr st).2 = thread_cache st.
Proof.
  revert i fr st. induction n as [|n IH]; intros i fr st; [reflexivity|].
  cbn [slab_fill]. rewrite IH. reflexivity.
Qed.

Lemma tc_slab_add_new_chunk c st : thread_cache (slab_add_new_chunk c st) = thread_cache st.
Proof.
  unfold slab_add_new_chunk, obtain_chunk. cbn zeta.
  match goal with |- context [slab_fill ?n ?ch ?sd ?i ?fr ?s] =>
    pose proof (tc_slab_fill n ch sd i fr s) as Hf; destruct (slab_fill n ch sd i fr s) as [fr' st'] end.
  cbn [snd] in Hf. autorewrite with tc_keep. rewrite Hf. reflexivity.
Qed.
#[local] Hint Rewrite tc_slab_add_new_chunk : tc_keep.

Lemma tc_slab_allocate c st : thread_cache (slab_allocate c st).1 = thread_cache st.
Proof.
  unfold slab_allocate. cbn zeta.
  assert (Hh : thread_cache (match slab_free (get_slab c st) with
                           | [] => slab_add_new_chunk c st | _ :: _ => st end) = thread_cache st)
    by (case_match; autorewrite with tc_keep; reflexivity).
  revert Hh. generalize (match slab_free (get_slab c st) with
                           | [] => slab_add_new_chunk c st | _ :: _ => st end). intros st' Hh.
  case_match; cbn [fst]; autorewrite with tc_keep; exact Hh.
Qed.

Lemma tc_slab_deallocate c p st : thread_cache (slab_deallocate c p st) = thread_cache st.
Proof. unfold slab_deallocate. case_match; [reflexivity|]. cbn zeta. autorewrite with tc_keep. reflexivity. Qed.

Lemma tc_deallocate_block b st : thread_cache (deallocate_block b st) = thread_cache st.
Proof. unfold deallocate_block. cbn zeta. autorewrite with tc_keep. reflexivity. Qed.

Lemma tc_release_segregated b st : thread_cache (release_segregated b st) = thread_cache st.
Proof. unfold release_segregated. cbn zeta. case_match; autorewrite with tc_keep; reflexivity. Qed.
#[local] Hint Rewrite tc_allocate_segregated tc_slab_allocate tc_slab_deallocate tc_deallocate_block
  tc_release_segregated : tc_keep.

Lemma get_cache_tc c st st' : thread_cache st' = thread_cache st -> get_cache c st' = get_cache c st.
Proof. intros H. destruct c; unfold get_cache; by rewrite H. Qed.

Lemma cache_bound_tc st st' :
  thread_cache st' = thread_cache st ->
  (forall c, (length (get_cache c st) <= CACHE_LIMIT)%nat) ->
  forall c, (length (get_cache c st') <= CACHE_LIMIT)%nat.
Proof. intros H Hb c. rewrite (get_cache_tc c st st' H). apply Hb. Qed.

Lemma cache_bound_set_cache c l st :
  (length l <= CACHE_LIMIT)%nat ->
  (forall c, (length (get_cache c st) <= CACHE_LIMIT)%nat) ->
  forall c', (length (get_cache c' (set_cache c l st)) <= CACHE_LIMIT)%nat.
Proof. intros Hl Hb c'. rewrite get_cache_set_cache. case_decide; auto. Qed.

Lemma tc_slab_allocate_raw c st : thread_cache (slab_allocate_raw c st).1 = thread_cache st.
Proof. unfold slab_allocate_raw. case_match; cbn [fst]; autorewrite with tc_keep; reflexivity. Qed.

Lemma cache_bound_refill_loop k c st :
  (forall c, (length (get_cache c st) <= CACHE_LIMIT)%nat) ->
  forall c', (length (get_cache c' (refill_loop k c st)) <= CACHE_LIMIT)%nat.
Proof.
  revert st. induction k as [|k IH]; intros st Hb; [exact Hb|].
  cbn [refill_loop]. destruct (length (get_cache c st) <? CACHE_LIMIT)%nat eqn:El; [|exact Hb].
  apply Nat.ltb_lt in El.
  pose proof (tc_slab_allocate_raw c st) as Ht.
  destruct (slab_allocate_raw c st) as [st1 [ptr|]]; cbn [fst] in Ht.
  - apply IH. apply cache_bound_set_cache.
    + cbn [length]. rewrite get_cache_upd_hdr, (get_cache_tc c st st1 Ht). lia.
    + apply (cache_bound_tc st1); [apply tc_upd_hdr|]. exact (cache_bound_tc st st1 Ht Hb).
  - exact (cache_bound_tc st st1 Ht Hb).
Qed.

Lemma cache_bound_acquire c st :
  (forall c, (length (get_cache c st) <= CACHE_LIMIT)%nat) ->
  forall c', (length (get_cache c' (acquire_from_cache c st).1) <= CACHE_LIMIT)%nat.
Proof.
  intros Hb. unfold acquire_from_cache, refill_cache.
  assert (Hh : forall st1 early,
     (st1, early) = match get_cache c st with
       | [] => match get_cache c (refill_loop (refill_batch c) c st) with
               | [] => let '(st0, r) := slab_allocate c (refill_loop (refill_batch c) c st) in (st0, Some r)
               | _ :: _ => (refill_loop (refill_batch c) c st, None) end
       | _ :: _ => (st, None) end -> forall c', (length (get_cache c' st1) <= CACHE_LIMIT)%nat).
  { intros st1 early E. pose proof (cache_bound_refill_loop (refill_batch c) c st Hb) as Hr.
    destruct (get_cache c st); [|inversion E; subst; exact Hb].
    destruct (get_cache c (refill_loop _ c st)).
    - pose proof (tc_slab_allocate c (refill_loop (refill_batch c) c st)) as Hs.
      destruct (slab_allocate c _) as [st0 r]. inversion E; subst. cbn [fst] in Hs.
      exact (cache_bound_tc _ _ Hs Hr).
    - inversion E; subst. exact Hr. }
  destruct (match get_cache c st with | [] => _ | _ :: _ => _ end) as [st1 early] eqn:E.
  specialize (Hh st1 early eq_refl).
  destruct early as [r|]; [exact Hh|].
  destruct (get_cache c st1) as [|ptr rest] eqn:Ec; cbn [fst]; [exact Hh|].
  intros c'. rewrite get_cache_stat_alloc, get_cache_upd_hdr.
  apply cache_bound_set_cache; [|exact Hh].
  specialize (Hh c). rewrite Ec in Hh. cbn in Hh. lia.
Qed.

Lemma cache_bound_release c p st :
  (forall c, (length (get_cache c st) <= CACHE_LIMIT)%nat) ->
  forall c', (length (get_cache c' (release_to_cache c p st).1) <= CACHE_LIMIT)%nat.
Proof.
  intros Hb. unfold release_to_cache.
  destruct (length (get_cache c st) <? CACHE_LIMIT)%nat eqn:El; cbn [fst].
  - apply Nat.ltb_lt in El. cbv zeta. intros c'. rewrite get_cache_stat_dealloc.
    apply cache_bound_set_cache.
    + cbn [length]. rewrite get_cache_upd_hdr. lia.
    + apply (cache_bound_tc st); [apply tc_upd_hdr|exact Hb].
  - apply (cache_bound_tc st); [apply tc_slab_deallocate|exact Hb].
Qed.

Lemma cache_bound_deallocate p st :
  (forall c, (length (get_cache c st) <= CACHE_LIMIT)%nat) ->
  forall c', (length (get_cache c' (deallocate p st)) <= CACHE_LIMIT)%nat.
Proof.
  intros Hb. unfold deallocate. case_match; [exact Hb|]. cbv zeta.
  assert (Hb1 : forall c, (length (get_cache c (if thread_safe st && (0 <? active_scope_count st)%Z
                  then unregister_scope p st else st)) <= CACHE_LIMIT)%nat).
  { case_match; [|exact Hb]. apply (cache_bound_tc st); [|exact Hb].
    pose proof (unregister_frame p st) as Hf. unfold scope_frame in Hf. destruct_and!. done. }
  revert Hb1. generalize (if thread_safe st && (0 <? active_scope_count st)%Z
                  then unregister_scope p st else st). intros st1 Hb1.
  assert (Hrf : forall c, forall c', (length (get_cache c' (release_fixed c p st1)) <= CACHE_LIMIT)%nat).
  { intros c. unfold release_fixed. pose proof (cache_bound_release c p st1 Hb1) as Hr.
    destruct (release_to_cache c p st1) as [st2 []]; cbn [fst] in Hr; [exact Hr|].
    apply (cache_bound_tc st2); [apply tc_slab_deallocate|exact Hr]. }
  repeat case_match; auto;
    (apply (cache_bound_tc st1); [autorewrite with tc_keep; reflexivity|exact Hb1]).
Qed.

Lemma cache_bound_allocate size s st :
  (forall c, (length (get_cache c st) <= CACHE_LIMIT)%nat) ->
  forall c', (length (get_cache c' (allocate size s st).1) <= CACHE_LIMIT)%nat.
Proof.
  intros Hb. unfold allocate. cbv zeta.
  assert (Hg : forall st1, (forall c, (length (get_cache c st1) <= CACHE_LIMIT)%nat) ->
     forall c', (length (get_cache c' (general_path (effective_strategy (align_size size) s)
                                         (align_size size) st1).1) <= CACHE_LIMIT)%nat).
  { intros st1 Hb1. unfold general_path.
    assert (Ht : thread_cache (match effective_strategy (align_size size) s with
              | BEST_FIT => allocate_best_fit (align_size size) st1
              | POOL_BASED => allocate_from_pool (align_size size) st1
              | SEGREGATED => allocate_segregated (align_size size) st1
              | FIXED_SIZE => allocate_best_fit (align_size size) st1
              end).1 = thread_cache st1)
      by (destruct (effective_strategy _ _); autorewrite with tc_keep; reflexivity).
    destruct (match effective_strategy (align_size size) s with BEST_FIT => _ | POOL_BASED => _
              | SEGREGATED => _ | FIXED_SIZE => _ end) as [st2 [p|]]; cbn [fst] in Ht |- *.
    - apply (cache_bound_tc st1); [|exact Hb1].
      pose proof (register_frame p st2) as Hf. unfold scope_frame in Hf. destruct_and!. congruence.
    - exact (cache_bound_tc st1 st2 Ht Hb1). }
  destruct (strat_eqb _ FIXED_SIZE); [|exact (Hg st Hb)].
  assert (Hf : forall c, (length (get_cache c (fixed_path (align_size size) st).1) <= CACHE_LIMIT)%nat).
  { unfold fixed_path. case_match; [by apply cache_bound_acquire|exact Hb]. }
  destruct (fixed_path (align_size size) st) as [st1 [p|]]; cbn [fst] in Hf |- *.
  - apply (cache_bound_tc st1); [|exact Hf].
    pose proof (fixed_register_frame p st1) as Hfr. unfold scope_frame in Hfr. destruct_and!. done.
  - exact (Hg st1 Hf).
Qed.

Lemma cache_bound_end_scope st :
  (forall c, (length (get_cache c st) <= CACHE_LIMIT)%nat) ->
  forall c', (length (get_cache c' (end_scope st)) <= CACHE_LIMIT)%nat.
Proof.
  intros Hb. unfold end_scope.
  destruct (end_scope_pop st) as [[scoped st1]|] eqn:E.
  - assert (Hb1 : forall c, (length (get_cache c st1) <= CACHE_LIMIT)%nat).
    { apply (cache_bound_tc st); [|exact Hb].
      pose proof (end_scope_pop_frame st scoped st1 E) as Hf. unfold scope_frame in Hf. destruct_and!. done. }
    clear E. revert st1 Hb1. induction scoped as [|p ps IH]; intros st1 Hb1; [exact Hb1|].
    cbn [foldl]. apply IH. by apply cache_bound_deallocate.
  - case_match; [|exact Hb]. apply (cache_bound_tc st); [reflexivity|exact Hb].
Qed.


